(** * PatrickStar chunk management: a shallow embedding and its properties

    The development follows two source files:
    - [src/client/chunk_data.py]: [TensorInfo], [TensorInfoList] and the
      [Chunk] that packs tensors into one contiguous payload;
    - [src/patrickstar/core/chunk_list.py]: [ChunkList], the directory of
      chunks with admission ([access_chunk]), room making
      ([prepare_device]) and victim selection.

    Python integers are [Z]. Dictionaries whose iteration order is
    irrelevant are [gmap]s, the ordered one is an association list.
    Exceptions are results [inl e] that keep the state reached when the
    exception was raised. Logging, wall-clock profiling timers and the
    profiler's life-cycle table are diagnostics and are left out. *)

From Stdlib Require Import ZArith Lia.
From stdpp Require Import base option list sorting gmap.

Local Open Scope Z_scope.

(** ** Python-level plumbing: exceptions and stateful computations *)

Module Py.

Inductive exn : Type :=
  | RuntimeError
  | KeyError
  | AssertionError
  | AttributeError
  | TypeError
  | ZeroDivisionError
  | IndexError.

(** A computation on a state [St] that returns an [A] or raises. *)
Definition M (St A : Type) : Type := St → St * (exn + A).

Definition ret {St A} (a : A) : M St A := λ s, (s, inr a).

Definition raise {St A} (e : exn) : M St A := λ s, (s, inl e).

Definition bind {St A B} (m : M St A) (k : A → M St B) : M St B :=
  λ s, match m s with
       | (s', inr a) => k a s'
       | (s', inl e) => (s', inl e)
       end.

Definition get {St} : M St St := λ s, (s, inr s).

Definition modify {St} (f : St → St) : M St unit := λ s, (f s, inr tt).

(** [for x in l: body(x)] *)
Fixpoint for_each {St A} (body : A → M St unit) (l : list A) : M St unit :=
  match l with
  | [] => ret tt
  | x :: l' => bind (body x) (λ _, for_each body l')
  end.

End Py.

Notation "x <- m ;; k" := (Py.bind m (λ x, k))
  (at level 100, m at next level, right associativity,
   format "'[v' x  <-  m  ;;  '/' k ']'").
Notation "m ;;; k" := (Py.bind m (λ _, k))
  (at level 100, right associativity,
   format "'[v' m  ;;;  '/' k ']'").

(** ** The part of torch the code relies on *)

Module Torch.

Inductive DeviceType : Type := cpu | cuda.

(** [torch.device]: a type and an optional index ([torch.device("cpu")] has
    none, [torch.device("cuda:0")] has index 0). *)
Record Device : Type := mkDevice {
  dev_type : DeviceType;
  dev_index : option Z;
}.

#[global] Instance DeviceType_eq_dec : EqDecision DeviceType.
Proof. solve_decision. Defined.

#[global] Instance Device_eq_dec : EqDecision Device.
Proof. solve_decision. Defined.

Inductive dtype : Type := float | half.

#[global] Instance dtype_eq_dec : EqDecision dtype.
Proof. solve_decision. Defined.

(** Modelled from the spec: the helper [getsizeof] is not part of the
    sources at hand; it is the "elementSize" of the element type
    (4 bytes for [torch.float], 2 for [torch.half]). *)
Definition getsizeof (t : dtype) : Z :=
  match t with
  | float => 4
  | half => 2
  end.

(** The device a tensor placed on [d] reports as its [device], with
    [current_device] the answer of [torch.cuda.current_device()]: a cpu
    tensor reports the cpu without index, a cuda device without index is the
    current one. *)
Definition reported (current_device : Z) (d : Device) : Device :=
  match dev_type d, dev_index d with
  | cpu, _ => mkDevice cpu None
  | cuda, None => mkDevice cuda (Some current_device)
  | cuda, Some _ => d
  end.

(** Where a [start] given for a dimension of [n] elements lands: a negative
    one counts from the end. *)
Definition wrap (n start : Z) : Z :=
  if bool_decide (start < 0) then start + n else start.

(** [torch.Size]: dimensions are non-negative by construction. *)
Definition Size : Type := list N.

Definition numel (sh : Size) : Z := Z.of_N (foldr N.mul 1%N sh).

End Torch.

(** ** [src/client/chunk_data.py] *)

Module Client.
Import Py Torch.

Module PSTensorStatus.

(** [const.PSTensorStatus] is not among the sources; the code names
    [COMPUTE] and [FREE], every other status behaves like [HOLD]. *)
Inductive t : Type := COMPUTE | HOLD | FREE.

#[global] Instance eq_dec : EqDecision t.
Proof. solve_decision. Defined.

End PSTensorStatus.

Module PSChunkStatus.

Inductive t : Type := COMPUTE | HOLD | FREE | RELEASED.

#[global] Instance eq_dec : EqDecision t.
Proof. solve_decision. Defined.

End PSChunkStatus.

Inductive AccessType : Type := DATA | GRAD.

#[global] Instance AccessType_eq_dec : EqDecision AccessType.
Proof. solve_decision. Defined.

(** *** Tensors, storages and parameters

    A tensor is a view into a storage of the heap, so that several
    parameters can alias one payload. Element values are kept as integers;
    the code only copies them and writes zeros. *)
Record Storage : Type := mkStorage {
  st_device : Device;
  st_dtype : dtype;
  st_data : list Z;
}.

Record Tensor : Type := mkTensor {
  t_base : nat;
  t_offset : Z;
  t_numel : Z;
  t_shape : Size;
}.

#[global] Instance Tensor_eq_dec : EqDecision Tensor.
Proof. solve_decision. Defined.

(** The attributes of a [torch.nn.Parameter] registered with the client. *)
Record Param : Type := mkParam {
  ps_shape : Size;
  p_dtype : dtype;
  ps_data_id : Z;
  ps_grad_id : Z;
  data_status : PSTensorStatus.t;
  grad_status : PSTensorStatus.t;
  ps_data_tensor : option Tensor;
  ps_grad_tensor : option Tensor;
  data : option Tensor;
  grad : option Tensor;
}.

#[global] Instance Param_inhabited : Inhabited Param :=
  populate {| ps_shape := []; p_dtype := float; ps_data_id := 0; ps_grad_id := 0;
              data_status := PSTensorStatus.FREE; grad_status := PSTensorStatus.FREE;
              ps_data_tensor := None; ps_grad_tensor := None;
              data := None; grad := None |}.

(** [param] is a reference into the store of parameter objects. *)
Record TensorInfo : Type := mkTensorInfo {
  start : Z;
  param : nat;
  access_type : AccessType;
}.

Record Chunk : Type := mkChunk {
  chunk_id : Z;
  capacity : Z;
  data_type : dtype;
  cuda_idx : Z;
  device : Device;
  payload : Tensor;
  (** [tensor_info_list.tensor_id_to_info_dict], in insertion order *)
  tensor_id_to_info_dict : list (Z * TensorInfo);
  timestamp : Z;
}.

(** [d[k] = v] on a dictionary that remembers insertion order: an existing
    key keeps its place. *)
Fixpoint dict_set {V} (k : Z) (v : V) (d : list (Z * V)) : list (Z * V) :=
  match d with
  | [] => [(k, v)]
  | (k', v') :: d' =>
      if bool_decide (k' = k) then (k, v) :: d' else (k', v') :: dict_set k v d'
  end.

(** [list.sort(key=lambda x: x.start)] is stable: an element goes before the
    elements that follow it in the input and have the same key. *)
Fixpoint insert_by_start (x : TensorInfo) (l : list TensorInfo) : list TensorInfo :=
  match l with
  | [] => [x]
  | y :: l' =>
      if start x <=? start y then x :: y :: l' else y :: insert_by_start x l'
  end.

Definition sort_by_start (l : list TensorInfo) : list TensorInfo :=
  foldr insert_by_start [] l.

(** The singleton [HybridPSManager]: what a chunk asks of it. *)
Class PSManagerOps (Mgr : Type) : Type := {
  ps_is_init : Mgr → bool;
  ps_schedule : Mgr → Z → Z → Device;
  ps_add : DeviceType → option Z → Z → Mgr → Mgr;
  ps_delete : DeviceType → option Z → Z → Mgr → Mgr;
}.

Section chunk.
Context {Mgr : Type} `{!PSManagerOps Mgr}.

(** The heap of storages, the parameter objects, the manager singleton and
    the chunk [self]. *)
Record State : Type := mkState {
  heap : list Storage;
  params : gmap nat Param;
  ps_manager : Mgr;
  self : Chunk;
}.

Definition set_heap (h : list Storage) (s : State) : State :=
  {| heap := h; params := params s; ps_manager := ps_manager s; self := self s |}.

Definition set_params (ps : gmap nat Param) (s : State) : State :=
  {| heap := heap s; params := ps; ps_manager := ps_manager s; self := self s |}.

Definition set_ps_manager (m : Mgr) (s : State) : State :=
  {| heap := heap s; params := params s; ps_manager := m; self := self s |}.

Definition set_self (c : Chunk) (s : State) : State :=
  {| heap := heap s; params := params s; ps_manager := ps_manager s; self := c |}.

(** **** [TensorInfo] *)

Definition info_numel (ps : gmap nat Param) (info : TensorInfo) : Z :=
  numel (ps_shape (ps !!! param info)).

Definition info_tensor_id (ps : gmap nat Param) (info : TensorInfo) : Z :=
  match access_type info with
  | DATA => ps_data_id (ps !!! param info)
  | GRAD => ps_grad_id (ps !!! param info)
  end.

Definition info_status (ps : gmap nat Param) (info : TensorInfo) : PSTensorStatus.t :=
  match access_type info with
  | DATA => data_status (ps !!! param info)
  | GRAD => grad_status (ps !!! param info)
  end.

(** **** [TensorInfoList] *)

Definition generate_in_sorted_order (c : Chunk) : list TensorInfo :=
  sort_by_start (tensor_id_to_info_dict c).*2.

Definition get_len (c : Chunk) : nat := length (tensor_id_to_info_dict c).

(** **** Tensor operations *)

(** [t.narrow(0, start, length)] on a one-dimensional tensor of [n]
    elements, in the order of torch's checks: a negative [length] is a
    [RuntimeError]; a [start] outside [-n, n] is an [IndexError]; a negative
    [start] counts from the end; a range that runs past the end is a
    [RuntimeError]. *)
Definition narrow (t : Tensor) (start length : Z) : M State Tensor :=
  if bool_decide (length < 0) then raise RuntimeError
  else if bool_decide (- t_numel t ≤ start ≤ t_numel t) then
    if bool_decide (wrap (t_numel t) start ≤ t_numel t - length)
    then ret {| t_base := t_base t; t_offset := t_offset t + wrap (t_numel t) start;
                t_numel := length; t_shape := [Z.to_N length] |}
    else raise RuntimeError
  else raise IndexError.

(** [t.view(shape)] *)
Definition view (t : Tensor) (shape : Size) : M State Tensor :=
  if bool_decide (numel shape = t_numel t)
  then ret {| t_base := t_base t; t_offset := t_offset t;
              t_numel := t_numel t; t_shape := shape |}
  else raise RuntimeError.

Definition zero_range (offset length : Z) (l : list Z) : list Z :=
  take (Z.to_nat offset) l ++ replicate (Z.to_nat length) 0
    ++ drop (Z.to_nat (offset + length)) l.

(** [t.zero_()] *)
Definition zero_ (t : Tensor) : M State unit :=
  modify (λ s,
    match heap s !! t_base t with
    | Some st =>
        set_heap (<[t_base t :=
                     {| st_device := st_device st; st_dtype := st_dtype st;
                        st_data := zero_range (t_offset t) (t_numel t) (st_data st) |}]>
                    (heap s)) s
    | None => s
    end).

(** [t.to(device)], with [current_device] the answer of
    [torch.cuda.current_device()]: the tensor itself when the device it
    reports is the one the target stands for ([cpu:0] and [cpu] are one
    device, [cuda] is the current cuda device), a copy in a fresh storage on
    that device otherwise. Storages that [Chunk.__init__] made carry the
    device they were asked for, so both sides are compared as reported. The
    target is taken to exist and to have room, which is the stated
    precondition of [move]. *)
Definition to (t : Tensor) (target_device : Device) (current_device : Z)
    : M State Tensor :=
  λ s,
    match heap s !! t_base t with
    | Some st =>
        if bool_decide (reported current_device (st_device st)
                        = reported current_device target_device)
        then (s, inr t)
        else
          (set_heap (heap s ++
                       [{| st_device := reported current_device target_device;
                           st_dtype := st_dtype st;
                           st_data := take (Z.to_nat (t_numel t))
                                        (drop (Z.to_nat (t_offset t)) (st_data st)) |}]) s,
           inr {| t_base := length (heap s); t_offset := 0;
                  t_numel := t_numel t; t_shape := t_shape t |})
    | None => (s, inl RuntimeError)
    end.

(** **** [Chunk] *)

Definition set_timestamp (now : Z) (c : Chunk) : Chunk :=
  {| chunk_id := chunk_id c; capacity := capacity c; data_type := data_type c;
     cuda_idx := cuda_idx c; device := device c; payload := payload c;
     tensor_id_to_info_dict := tensor_id_to_info_dict c; timestamp := now |}.

Definition set_dict (d : list (Z * TensorInfo)) (c : Chunk) : Chunk :=
  {| chunk_id := chunk_id c; capacity := capacity c; data_type := data_type c;
     cuda_idx := cuda_idx c; device := device c; payload := payload c;
     tensor_id_to_info_dict := d; timestamp := timestamp c |}.

Definition set_payload (t : Tensor) (c : Chunk) : Chunk :=
  {| chunk_id := chunk_id c; capacity := capacity c; data_type := data_type c;
     cuda_idx := cuda_idx c; device := device c; payload := t;
     tensor_id_to_info_dict := tensor_id_to_info_dict c; timestamp := timestamp c |}.

Definition set_device (d : Device) (c : Chunk) : Chunk :=
  {| chunk_id := chunk_id c; capacity := capacity c; data_type := data_type c;
     cuda_idx := cuda_idx c; device := d; payload := payload c;
     tensor_id_to_info_dict := tensor_id_to_info_dict c; timestamp := timestamp c |}.

(** [Chunk.__init__] of this file, on the heap and the manager.
    [current_device] and [device_count] are the answers of
    [torch.cuda.current_device()] and [torch.cuda.device_count()]. The
    payload is allocated and accounted for right away. Raising a string is
    a [TypeError]; so is comparing a missing device index with a number. In
    the branch that replaces the device by [torch.cuda.current_device()],
    an integer, the payload is allocated on that cuda device and
    [self.device.type] then fails. *)
Definition Chunk_init (capacity : Z) (data_type : dtype) (chunk_id : Z)
    (current_device device_count now : Z) : M (list Storage * Mgr) Chunk :=
  λ '(h, m),
    if negb (ps_is_init m) then ((h, m), inl TypeError)
    else
      let cuda_idx := current_device in
      let device := ps_schedule m (capacity * getsizeof data_type) cuda_idx in
      let zeros (d : Device) : list Storage :=
        h ++ [{| st_device := d; st_dtype := data_type;
                 st_data := replicate (Z.to_nat capacity) 0 |}] in
      let normal : (list Storage * Mgr) * (exn + Chunk) :=
        if capacity <? 0 then ((h, m), inl RuntimeError)
        else
          ((zeros device,
            ps_add (dev_type device) (dev_index device)
              (capacity * getsizeof data_type) m),
           inr {| chunk_id := chunk_id; capacity := capacity; data_type := data_type;
                  cuda_idx := cuda_idx; device := device;
                  payload := {| t_base := length h; t_offset := 0;
                                t_numel := capacity;
                                t_shape := [Z.to_N capacity] |};
                  tensor_id_to_info_dict := []; timestamp := now |}) in
      match dev_type device, dev_index device with
      | cuda, None => ((h, m), inl TypeError)
      | cuda, Some index =>
          if device_count <? index then
            if capacity <? 0 then ((h, m), inl RuntimeError)
            else ((zeros (mkDevice cuda (Some current_device)), m), inl AttributeError)
          else normal
      | cpu, _ => normal
      end.

(** [now] is the reading of the clock, [datetime.datetime.now().timestamp()]. *)
Definition touch (now : Z) : M State unit :=
  modify (λ s, set_self (set_timestamp now (self s)) s).

(** [self.tensor_info_list.add(item)] *)
Definition add (item : TensorInfo) : M State unit :=
  modify (λ s,
    set_self (set_dict (dict_set (info_tensor_id (params s) item) item
                          (tensor_id_to_info_dict (self s))) (self s)) s).

Definition allocate (offset numel : Z) (param : nat) (access_type : AccessType)
    (now : Z) : M State Tensor :=
  s <- get ;;
  dest <- narrow (payload (self s)) offset numel ;;
  zero_ dest ;;;
  add {| start := offset; param := param; access_type := access_type |} ;;;
  touch now ;;;
  ret dest.

(** The loop of [try_allocate]: [(prev_end, true)] when it returns from
    inside the loop to allocate at [prev_end], [(prev_end, false)] when it
    runs to its end. *)
Fixpoint scan_gaps (ps : gmap nat Param) (numel prev_end : Z)
    (infos : list TensorInfo) : Z * bool :=
  match infos with
  | [] => (prev_end, false)
  | info :: rest =>
      if bool_decide (info_status ps info = PSTensorStatus.FREE)
      then scan_gaps ps numel prev_end rest
      else
        let start := start info in
        let gap := start - prev_end in
        if numel <=? gap then (prev_end, true)
        else scan_gaps ps numel (start + info_numel ps info) rest
  end.

Definition try_allocate (param : nat) (access_type : AccessType) (now : Z)
    : M State (option Tensor) :=
  s <- get ;;
  let numel := numel (ps_shape (params s !!! param)) in
  match scan_gaps (params s) numel 0 (generate_in_sorted_order (self s)) with
  | (prev_end, true) =>
      dest <- allocate prev_end numel param access_type now ;;
      ret (Some dest)
  | (prev_end, false) =>
      if numel <=? capacity (self s) - prev_end then
        dest <- allocate prev_end numel param access_type now ;;
        ret (Some dest)
      else ret None
  end.

Definition repoint_data (p : nat) (t : Tensor) : M State unit :=
  modify (λ s,
    let old := params s !!! p in
    set_params (<[p := {| ps_shape := ps_shape old; p_dtype := p_dtype old;
                          ps_data_id := ps_data_id old; ps_grad_id := ps_grad_id old;
                          data_status := data_status old; grad_status := grad_status old;
                          ps_data_tensor := Some t; ps_grad_tensor := ps_grad_tensor old;
                          data := Some t; grad := grad old |}]> (params s)) s).

Definition repoint_grad (p : nat) (t : Tensor) : M State unit :=
  modify (λ s,
    let old := params s !!! p in
    set_params (<[p := {| ps_shape := ps_shape old; p_dtype := p_dtype old;
                          ps_data_id := ps_data_id old; ps_grad_id := ps_grad_id old;
                          data_status := data_status old; grad_status := grad_status old;
                          ps_data_tensor := ps_data_tensor old; ps_grad_tensor := Some t;
                          data := data old; grad := None |}]> (params s)) s).

(** The body of the loop of [move]. *)
Definition move_item (param_data_dict param_grad_dict : gmap Z nat)
    (info : TensorInfo) : M State unit :=
  s <- get ;;
  let tensor_id := info_tensor_id (params s) info in
  let start := start info in
  let size := info_numel (params s) info in
  if bool_decide (info_status (params s) info = PSTensorStatus.FREE) then ret tt
  else
    match param_data_dict !! tensor_id with
    | Some p =>
        t <- narrow (payload (self s)) start size ;;
        t' <- view t (ps_shape (params s !!! p)) ;;
        repoint_data p t'
    | None =>
        match param_grad_dict !! tensor_id with
        | Some p =>
            t <- narrow (payload (self s)) start size ;;
            t' <- view t (ps_shape (params s !!! p)) ;;
            repoint_grad p t'
        | None => raise RuntimeError
        end
    end.

(** [current_device] is the answer of [torch.cuda.current_device()] when
    the payload is sent to the target. *)
Definition move (param_data_dict param_grad_dict : gmap Z nat)
    (target_device : Device) (current_device now : Z) : M State unit :=
  s <- get ;;
  if bool_decide (device (self s) = target_device) then ret tt
  else
    new_payload <- to (payload (self s)) target_device current_device ;;
    modify (λ s, set_self (set_payload new_payload (self s)) s) ;;;
    modify (λ s, set_ps_manager
                   (ps_add (dev_type target_device) (dev_index target_device)
                      (capacity (self s) * getsizeof (data_type (self s)))
                      (ps_manager s)) s) ;;;
    modify (λ s, set_ps_manager
                   (ps_delete (dev_type (device (self s))) (dev_index (device (self s)))
                      (capacity (self s) * getsizeof (data_type (self s)))
                      (ps_manager s)) s) ;;;
    s' <- get ;;
    for_each (move_item param_data_dict param_grad_dict)
      (generate_in_sorted_order (self s')) ;;;
    modify (λ s, set_self (set_device target_device (self s)) s) ;;;
    touch now.

(** The loop of [get_status]. *)
Fixpoint status_scan (ps : gmap nat Param) (infos : list TensorInfo)
    (free_flag : bool) : PSChunkStatus.t :=
  match infos with
  | [] => if free_flag then PSChunkStatus.FREE else PSChunkStatus.HOLD
  | info :: rest =>
      if bool_decide (info_status ps info = PSTensorStatus.COMPUTE)
      then PSChunkStatus.COMPUTE
      else if bool_decide (info_status ps info ≠ PSTensorStatus.FREE)
           then status_scan ps rest false
           else status_scan ps rest free_flag
  end.

Definition get_status (s : State) : PSChunkStatus.t :=
  if bool_decide (get_len (self s) = 0%nat) then PSChunkStatus.FREE
  else status_scan (params s) (generate_in_sorted_order (self s)) true.

(** **** The remaining methods *)

Definition get_timestamp (s : State) : Z := timestamp (self s).

(** [TensorInfo.delete_tensor_memory]: the tensor must be [FREE]; the data
    tensor of the parameter becomes a fresh one-element tensor of zeros on
    the cpu, the gradient tensor becomes [None]. The chunk is not told. *)
Definition delete_tensor_memory (info : TensorInfo) : M State unit :=
  λ s,
    let old := params s !!! param info in
    match access_type info with
    | DATA =>
        if bool_decide (data_status old = PSTensorStatus.FREE) then
          (set_params
             (<[param info :=
                  {| ps_shape := ps_shape old; p_dtype := p_dtype old;
                     ps_data_id := ps_data_id old; ps_grad_id := ps_grad_id old;
                     data_status := data_status old; grad_status := grad_status old;
                     ps_data_tensor := Some {| t_base := length (heap s); t_offset := 0;
                                               t_numel := 1; t_shape := [1%N] |};
                     ps_grad_tensor := ps_grad_tensor old;
                     data := data old; grad := grad old |}]> (params s))
             (set_heap (heap s ++ [{| st_device := mkDevice cpu None;
                                      st_dtype := p_dtype old;
                                      st_data := [0] |}]) s),
           inr tt)
        else (s, inl AssertionError)
    | GRAD =>
        if bool_decide (grad_status old = PSTensorStatus.FREE) then
          (set_params
             (<[param info :=
                  {| ps_shape := ps_shape old; p_dtype := p_dtype old;
                     ps_data_id := ps_data_id old; ps_grad_id := ps_grad_id old;
                     data_status := data_status old; grad_status := grad_status old;
                     ps_data_tensor := ps_data_tensor old;
                     ps_grad_tensor := None;
                     data := data old; grad := grad old |}]> (params s)) s,
           inr tt)
        else (s, inl AssertionError)
    end.

End chunk.

Arguments State : clear implicits.

End Client.

(** ** [src/patrickstar/core/chunk_list.py] *)

Module Core.
Import Py Torch.

Inductive ChunkState : Type := RELEASED | FREE | HOLD | COMPUTE.

Inductive TensorState : Type := T_FREE | T_HOLD | T_COMPUTE.

Inductive ChunkType : Type :=
  | PARAM_FP16 | PARAM_FP32 | MOMENTUM | VARIANCE | UNDEF.

#[global] Instance ChunkState_eq_dec : EqDecision ChunkState.
Proof. solve_decision. Defined.

#[global] Instance TensorState_eq_dec : EqDecision TensorState.
Proof. solve_decision. Defined.

#[global] Instance ChunkType_eq_dec : EqDecision ChunkType.
Proof. solve_decision. Defined.

(** Modelled from the spec: the chunk class that [chunk_list.py] imports
    from its own package ([from .chunk_data import Chunk]) is missing. A
    "Block" has an id, a capacity, an element type, a current tier, items
    with a status each, a pin flag kept by the pin registry, and the access
    moments noted per tier ([cpu_access_moments], [gpu_access_moments] in
    [display_access_info]). *)
Record Chunk : Type := mkChunk {
  chunk_id : Z;
  capacity : Z;
  data_type : dtype;
  local_rank : Z;
  is_dummy : bool;
  (** [None]: no payload yet; [Some d]: payload materialised on [d] *)
  payload_device : option Device;
  (** states of the tensors packed in the chunk *)
  tensor_states : list TensorState;
  pinned : bool;
  cpu_access_moments : list Z;
  gpu_access_moments : list Z;
}.

(** Modelled from the spec: [Chunk.__init__] of the core package is
    missing. "registers a Block (lazily, storage not yet materialized —
    status RELEASED)": the constructor records its arguments and allocates
    nothing. *)
Definition Chunk_init (capacity : Z) (data_type : dtype) (chunk_id : Z)
    (local_rank : Z) (is_dummy : bool) : Chunk :=
  {| chunk_id := chunk_id; capacity := capacity; data_type := data_type;
     local_rank := local_rank; is_dummy := is_dummy;
     payload_device := None; tensor_states := []; pinned := false;
     cpu_access_moments := []; gpu_access_moments := [] |}.

(** Modelled from the spec: [Chunk.get_device] is missing; it is the
    "current tier", [None] as long as there is no payload. *)
Definition get_device (c : Chunk) : option Device := payload_device c.

(** Modelled from the spec: [Chunk.is_pin] is missing; "isPinned(blockId)". *)
Definition is_pin (c : Chunk) : bool := pinned c.

(** Modelled from the spec: [Chunk.get_state] is missing. "RELEASED:
    storage not yet materialized"; otherwise "any COMPUTE item forces block
    COMPUTE; otherwise any non-released item forces HOLD; otherwise
    FREE". *)
Definition get_state (c : Chunk) : ChunkState :=
  match payload_device c with
  | None => RELEASED
  | Some _ =>
      if bool_decide (T_COMPUTE ∈ tensor_states c) then COMPUTE
      else if bool_decide (T_HOLD ∈ tensor_states c) then HOLD
      else FREE
  end.

(** Modelled from the spec: [Chunk.get_chunk_space] is missing; it is
    "block.requiredBytes", the capacity in bytes. *)
Definition get_chunk_space (c : Chunk) : Z :=
  capacity c * getsizeof (data_type c).

(** Modelled from the spec: [Chunk.get_payload_space] is missing;
    "capacity * elementSize" for a resident block, nothing for a block
    without payload. *)
Definition get_payload_space (c : Chunk) : Z :=
  match payload_device c with
  | None => 0
  | Some _ => capacity c * getsizeof (data_type c)
  end.

Definition access_moments (ty : DeviceType) (c : Chunk) : list Z :=
  match ty with
  | cuda => gpu_access_moments c
  | cpu => cpu_access_moments c
  end.

Definition set_access_moments (ty : DeviceType) (l : list Z) (c : Chunk) : Chunk :=
  match ty with
  | cuda =>
      {| chunk_id := chunk_id c; capacity := capacity c;
         data_type := data_type c; local_rank := local_rank c;
         is_dummy := is_dummy c; payload_device := payload_device c;
         tensor_states := tensor_states c; pinned := pinned c;
         cpu_access_moments := cpu_access_moments c;
         gpu_access_moments := l |}
  | cpu =>
      {| chunk_id := chunk_id c; capacity := capacity c;
         data_type := data_type c; local_rank := local_rank c;
         is_dummy := is_dummy c; payload_device := payload_device c;
         tensor_states := tensor_states c; pinned := pinned c;
         cpu_access_moments := l;
         gpu_access_moments := gpu_access_moments c |}
  end.

Definition set_payload_device (d : option Device) (c : Chunk) : Chunk :=
  {| chunk_id := chunk_id c; capacity := capacity c;
     data_type := data_type c; local_rank := local_rank c;
     is_dummy := is_dummy c; payload_device := d;
     tensor_states := tensor_states c; pinned := pinned c;
     cpu_access_moments := cpu_access_moments c;
     gpu_access_moments := gpu_access_moments c |}.

(** The singleton [PatrickStarManager] is an external collaborator. Its
    state is a type [Mgr]; the operations the directory and the chunks call
    form the interface. [record_moment] and [next_moment] are the parts of
    [Chunk.append_moment] and [Chunk.next_accessed_mom] (both missing) that
    work on one access history. *)
Class ManagerOps (Mgr : Type) : Type := {
  available_chunk_mem : Mgr → DeviceType → Z;
  free_chunk_mem : Mgr → DeviceType → Z;
  is_warmup_training : Mgr → bool;
  get_cur_mom : Mgr → Z;
  mgr_add : DeviceType → Z → Mgr → Mgr;
  mgr_delete : DeviceType → Z → Mgr → Mgr;
  record_moment : list Z → Z → list Z;
  next_moment : Mgr → list Z → Z;
}.

(** Instance attributes of a [ChunkList]. *)
Record ChunkList : Type := mkChunkList {
  id_to_chunk_map : gmap Z Chunk;
  chunk_type_to_id_list_map : ChunkType → list Z;
  _time_profile : bool;
  moments_cnt_of_iteration : option Z;
  cl_local_rank : Z;
}.

Definition ChunkList_init (local_rank : Z) : ChunkList :=
  {| id_to_chunk_map := ∅;
     chunk_type_to_id_list_map := λ _, [];
     _time_profile := true;
     moments_cnt_of_iteration := None;
     cl_local_rank := local_rank |}.

(** *** The class attribute [generated_chunk_id]

    [generated_chunk_id = -1] is bound once on the class; a process holds
    that one cell and any number of instances. *)
Record Process : Type := mkProcess {
  generated_chunk_id : Z;
  instances : list ChunkList;
}.

Definition process_start : Process :=
  {| generated_chunk_id := -1; instances := [] |}.

(** [ChunkList(local_rank)]: returns the reference of the new instance. *)
Definition construct (local_rank : Z) : M Process nat :=
  λ p, ({| generated_chunk_id := generated_chunk_id p;
           instances := instances p ++ [ChunkList_init local_rank] |},
        inr (length (instances p))).

(** [self.generate_chunk_id()]: [ChunkList.generated_chunk_id += 1] writes
    the class attribute, whichever instance [self] is. *)
Definition generate_chunk_id (self : nat) : M Process Z :=
  λ p, let n := generated_chunk_id p + 1 in
       ({| generated_chunk_id := n; instances := instances p |}, inr n).

(** A client of the class: it constructs instances and asks any of them
    for ids. *)
Inductive call : Type :=
  | CallConstruct (local_rank : Z)
  | CallGenerate (self : nat).

(** Runs the calls in order and collects the ids handed out. *)
Fixpoint run_calls (cs : list call) (p : Process) : Process * list Z :=
  match cs with
  | [] => (p, [])
  | CallConstruct r :: cs' => run_calls cs' (construct r p).1
  | CallGenerate self :: cs' =>
      match generate_chunk_id self p with
      | (p', inr n) => let '(p'', ids) := run_calls cs' p' in (p'', n :: ids)
      | (p', inl _) => (p', [])
      end
  end.

(** *** The directory and the manager singleton *)

Section directory.
Context {Mgr : Type} `{!ManagerOps Mgr}.

Record State : Type := mkState {
  mgr : Mgr;
  self : ChunkList;
}.

Definition set_id_to_chunk_map (m : gmap Z Chunk) (cl : ChunkList) : ChunkList :=
  {| id_to_chunk_map := m;
     chunk_type_to_id_list_map := chunk_type_to_id_list_map cl;
     _time_profile := _time_profile cl;
     moments_cnt_of_iteration := moments_cnt_of_iteration cl;
     cl_local_rank := cl_local_rank cl |}.

(** Modelled from the spec: [Chunk.move] of the core package is missing.
    "no-op if already on targetTier. Otherwise: increment destination
    used, decrement source used; relocate the storage; update current
    tier". A chunk without payload has nothing to relocate. *)
Definition Chunk_move (target_device : Device) (c : Chunk) (m : Mgr) : Chunk * Mgr :=
  match payload_device c with
  | None => (c, m)
  | Some src =>
      if bool_decide (src = target_device) then (c, m)
      else (set_payload_device (Some target_device) c,
            mgr_delete (dev_type src) (get_payload_space c)
              (mgr_add (dev_type target_device) (get_payload_space c) m))
  end.

(** Modelled from the spec: [Chunk.allocate_payload] is missing.
    "materialize storage on targetDevice (first-touch allocation)": the
    payload appears on the device and its bytes are reserved there. *)
Definition Chunk_allocate_payload (device : Device) (c : Chunk) (m : Mgr) : Chunk * Mgr :=
  (set_payload_device (Some device) c,
   mgr_add (dev_type device) (get_chunk_space c) m).

(** Modelled from the spec: [Chunk.append_moment] is missing; the access
    history of the device's tier is "populated externally during a warm-up
    phase". *)
Definition Chunk_append_moment (mom : Z) (compute_device : Device) (c : Chunk) : Chunk :=
  set_access_moments (dev_type compute_device)
    (record_moment (access_moments (dev_type compute_device) c) mom) c.

(** Modelled from the spec: [Chunk.next_accessed_mom] is missing;
    "nextAccessMoment(blockId, tierType) -> scalar". *)
Definition next_accessed_mom (m : Mgr) (c : Chunk) (target_device : Device) : Z :=
  next_moment m (access_moments (dev_type target_device) c).

(** [self.id_to_chunk_map[chunk_id]] *)
Definition lookup_chunk (chunk_id : Z) : M State Chunk :=
  λ s, match id_to_chunk_map (self s) !! chunk_id with
       | Some c => (s, inr c)
       | None => (s, inl KeyError)
       end.

(** A method call that mutates the chunk object stored under [chunk_id]
    (and possibly the manager). *)
Definition update_chunk (chunk_id : Z) (f : Chunk → Mgr → Chunk * Mgr) : M State unit :=
  λ s, match id_to_chunk_map (self s) !! chunk_id with
       | Some c =>
           let '(c', m') := f c (mgr s) in
           ({| mgr := m';
               self := set_id_to_chunk_map
                         (<[chunk_id := c']> (id_to_chunk_map (self s))) (self s) |},
            inr tt)
       | None => (s, inl KeyError)
       end.

(** [queue.PriorityQueue] of pairs: [put] keeps the entries in ascending
    lexicographic order, [get] takes the head. *)
Definition entry_lt (a b : Z * Z) : bool :=
  (a.1 <? b.1) || ((a.1 =? b.1) && (a.2 <? b.2)).

Fixpoint pq_put (x : Z * Z) (q : list (Z * Z)) : list (Z * Z) :=
  match q with
  | [] => [x]
  | y :: q' => if entry_lt x y then x :: y :: q' else y :: pq_put x q'
  end.

(** The guard of the first loop of victim selection. *)
Definition movable (target_device : Device) (c : Chunk) : bool :=
  match get_device c with
  | None => false
  | Some d =>
      bool_decide (dev_type d = dev_type target_device)
      && negb (bool_decide (get_state c = COMPUTE))
      && negb (is_pin c)
  end.

(** [for chunk_id, chunk in self.id_to_chunk_map.items(): ... q.put(...)] *)
Definition fill_queue (m : Mgr) (target_device : Device)
    (items : list (Z * Chunk)) : list (Z * Z) :=
  foldl (λ q '(chunk_id, chunk),
           if movable target_device chunk
           then pq_put (- next_accessed_mom m chunk target_device, chunk_id) q
           else q)
        [] items.

(** [while not q.empty(): ... if moved_bytes >= still_need_bytes: break] *)
Fixpoint drain_queue (chunks : gmap Z Chunk) (still_need_bytes : Z)
    (q : list (Z * Z)) (moved_bytes : Z) (moved_list : list Z)
    : exn + (Z * list Z) :=
  match q with
  | [] => inr (moved_bytes, moved_list)
  | (_, chunk_id) :: q' =>
      match chunks !! chunk_id with
      | None => inl KeyError
      | Some chunk =>
          let moved_bytes := moved_bytes + get_payload_space chunk in
          let moved_list := moved_list ++ [chunk_id] in
          if still_need_bytes <=? moved_bytes
          then inr (moved_bytes, moved_list)
          else drain_queue chunks still_need_bytes q' moved_bytes moved_list
      end
  end.

Definition _chunk_to_move_out_for_room_making (size_in_bytes : Z)
    (target_device : Device) : M State (list Z) :=
  λ s,
    let still_need_bytes := size_in_bytes in
    let q := fill_queue (mgr s) target_device
               (map_to_list (id_to_chunk_map (self s))) in
    match drain_queue (id_to_chunk_map (self s)) still_need_bytes q 0 [] with
    | inl e => (s, inl e)
    | inr (moved_bytes, moved_list) =>
        if moved_bytes <? still_need_bytes
        then (s, inl RuntimeError)
        else (s, inr moved_list)
    end.

Definition chunk_move (chunk_id : Z) (device : Device) : M State unit :=
  chunk <- lookup_chunk chunk_id ;;
  s <- get ;;
  let free_chunk_mem_size := free_chunk_mem (mgr s) (dev_type device) in
  let chunk_mem_size := get_payload_space chunk in
  if free_chunk_mem_size <? chunk_mem_size then raise RuntimeError
  else if bool_decide (get_device chunk ≠ Some device)
       then update_chunk chunk_id (Chunk_move device)
       else ret tt.

Definition other_device (target_device : Device) (local_rank : Z) : Device :=
  if bool_decide (dev_type target_device = cuda)
  then mkDevice cpu None
  else mkDevice cuda (Some local_rank).

Definition prepare_device (target_device : Device) (need_bytes : Z) : M State unit :=
  s <- get ;;
  let ava_chunk_mem_size := available_chunk_mem (mgr s) (dev_type target_device) in
  let free_chunk_mem_size := free_chunk_mem (mgr s) (dev_type target_device) in
  if ava_chunk_mem_size <? need_bytes then raise RuntimeError
  else
    let extra_need_bytes := need_bytes - free_chunk_mem_size in
    if extra_need_bytes <=? 0 then ret tt
    else
      moved_list <- _chunk_to_move_out_for_room_making extra_need_bytes target_device ;;
      let new_device := other_device target_device (cl_local_rank (self s)) in
      for_each (λ idx, chunk_move idx new_device) moved_list.

Definition access_chunk (chunk_id : Z) (compute_device : Device) : M State unit :=
  _ <- lookup_chunk chunk_id ;;
  s <- get ;;
  (if is_warmup_training (mgr s)
   then update_chunk chunk_id
          (λ c m, (Chunk_append_moment (get_cur_mom (mgr s)) compute_device c, m))
   else ret tt) ;;;
  chunk <- lookup_chunk chunk_id ;;
  let chunk_state := get_state chunk in
  let payload_space := get_chunk_space chunk in
  if bool_decide (chunk_state = RELEASED) then
    (prepare_device compute_device payload_space ;;;
     update_chunk chunk_id (Chunk_allocate_payload compute_device))
  else
    match get_device chunk with
    | None => raise AttributeError
    | Some d =>
        if bool_decide (dev_type d ≠ dev_type compute_device) then
          (prepare_device compute_device payload_space ;;;
           update_chunk chunk_id (Chunk_move compute_device) ;;;
           chunk' <- lookup_chunk chunk_id ;;
           match get_device chunk' with
           | None => raise AttributeError
           | Some d' =>
               if bool_decide (dev_type d' = dev_type compute_device)
               then ret tt
               else raise AssertionError
           end)
        else ret tt
    end.

(** [CommInfo], the value [new_chunk] returns. *)
Record CommInfo : Type := mkCommInfo {
  ci_chunk_type : ChunkType;
  group_id : Z;
  offset : Z;
}.

Definition append_id (chunk_type : ChunkType) (chunk_id : Z) (cl : ChunkList) : ChunkList :=
  {| id_to_chunk_map := id_to_chunk_map cl;
     chunk_type_to_id_list_map :=
       λ t, if bool_decide (t = chunk_type)
            then chunk_type_to_id_list_map cl t ++ [chunk_id]
            else chunk_type_to_id_list_map cl t;
     _time_profile := _time_profile cl;
     moments_cnt_of_iteration := moments_cnt_of_iteration cl;
     cl_local_rank := cl_local_rank cl |}.

(** [world_size] is what [get_world_size()] returns. *)
Definition new_chunk (world_size : Z) (chunk_id chunk_size : Z) (data_type : dtype)
    (is_dummy : bool) (chunk_type : ChunkType) : M State CommInfo :=
  s <- get ;;
  if bool_decide (is_Some (id_to_chunk_map (self s) !! chunk_id))
  then raise RuntimeError
  else
    modify (λ s, {| mgr := mgr s;
                    self := set_id_to_chunk_map
                      (<[chunk_id := Chunk_init chunk_size data_type chunk_id
                                       (cl_local_rank (self s)) is_dummy]>
                         (id_to_chunk_map (self s))) (self s) |}) ;;;
    modify (λ s, {| mgr := mgr s; self := append_id chunk_type chunk_id (self s) |}) ;;;
    s' <- get ;;
    let num_type_chunk :=
      Z.of_nat (length (chunk_type_to_id_list_map (self s') chunk_type)) in
    if bool_decide (world_size = 0) then raise ZeroDivisionError
    else ret {| ci_chunk_type := chunk_type;
                group_id := (num_type_chunk - 1) `div` world_size;
                offset := (num_type_chunk - 1) `mod` world_size |}.

(** *** The remaining methods of [ChunkList] *)

(** [chunk_ids_generator]: the ids of a type, in the order of the list. *)
Definition chunk_ids_generator (chunk_type : ChunkType) (cl : ChunkList) : list Z :=
  chunk_type_to_id_list_map cl chunk_type.

(** [self.id_to_chunk_map.get(chunk_id)]: [None] for an unknown id. *)
Definition __getitem__ (chunk_id : Z) (cl : ChunkList) : option Chunk :=
  id_to_chunk_map cl !! chunk_id.

(** [size] and [__len__]. *)
Definition chunk_list_size (cl : ChunkList) : nat := size (id_to_chunk_map cl).

(** The body of the loop of [get_chunk_memory_used]. *)
Definition memory_step (device : Device) (mem_used : Z) (item : Z * Chunk) : Z :=
  match get_device item.2 with
  | Some d =>
      if bool_decide (dev_type d = dev_type device)
      then mem_used + get_payload_space item.2
      else mem_used
  | None => mem_used
  end.

Definition get_chunk_memory_used (device : Device) (cl : ChunkList) : Z :=
  foldl (memory_step device) 0 (map_to_list (id_to_chunk_map cl)).

Definition max_chunk_size (cl : ChunkList) : Z :=
  foldl (λ max_size item, Z.max (capacity item.2) max_size) 0
    (map_to_list (id_to_chunk_map cl)).

Definition make_room (offload_size_in_bytes : Z) (target_device : Device) : M State unit :=
  moved_list <- _chunk_to_move_out_for_room_making offload_size_in_bytes target_device ;;
  s <- get ;;
  let new_device := other_device target_device (cl_local_rank (self s)) in
  for_each (λ idx, chunk_move idx new_device) moved_list.

Definition is_empty (chunk_type : ChunkType) (cl : ChunkList) : bool :=
  bool_decide (length (chunk_type_to_id_list_map cl chunk_type) = 0%nat).

(** [self.chunk_type_to_id_list_map[chunk_type][-1]] after the test for
    emptiness; the list has a last element there, so the second [raise]
    stands for an index error that cannot happen. *)
Definition last_chunk_id (chunk_type : ChunkType) : M State Z :=
  s <- get ;;
  if is_empty chunk_type (self s) then raise RuntimeError
  else
    match last (chunk_type_to_id_list_map (self s) chunk_type) with
    | Some chunk_id => ret chunk_id
    | None => raise KeyError
    end.

End directory.

Arguments State : clear implicits.

End Core.

(** ** Vocabulary of the statements about the directory *)

Module CoreSpec.
Import Py Torch Core.

(** How many of the calls are [generate_chunk_id]. *)
Fixpoint generate_count (cs : list call) : nat :=
  match cs with
  | [] => 0
  | CallGenerate _ :: cs' => S (generate_count cs')
  | CallConstruct _ :: cs' => generate_count cs'
  end.

(** The chunk types, as [for chunk_type in ChunkType] meets them. *)
Definition chunk_types : list ChunkType :=
  [PARAM_FP16; PARAM_FP32; MOMENTUM; VARIANCE; UNDEF].

(** All ids filed in the lists of the types. *)
Definition listed_ids (cl : ChunkList) : list Z :=
  chunk_types ≫= chunk_type_to_id_list_map cl.

(** Every registered chunk is filed once, in one list, and nothing else is
    filed. *)
Definition registry_consistent (cl : ChunkList) : Prop :=
  NoDup (listed_ids cl)
  ∧ ∀ id, id ∈ listed_ids cl ↔ is_Some (id_to_chunk_map cl !! id).

(** The payload bytes a chunk holds on a tier. *)
Definition resident_bytes (ty : DeviceType) (c : Chunk) : Z :=
  match get_device c with
  | Some d => if bool_decide (dev_type d = ty) then get_payload_space c else 0
  | None => 0
  end.

(** The lists and the set of registered ids are the same in both. *)
Definition same_registry (cl cl' : ChunkList) : Prop :=
  (∀ ty, chunk_type_to_id_list_map cl' ty = chunk_type_to_id_list_map cl ty)
  ∧ ∀ id, is_Some (id_to_chunk_map cl' !! id) ↔ is_Some (id_to_chunk_map cl !! id).

(** The payload bytes the chunks of a map hold on a tier. *)
Definition used_on (ty : DeviceType) (chunks : gmap Z Chunk) : Z :=
  foldr (λ item acc, resident_bytes ty item.2 + acc) 0 (map_to_list chunks).

(** The order of the entries of the priority queue. *)
Definition entry_before (a b : Z * Z) : Prop :=
  a.1 < b.1 ∨ (a.1 = b.1 ∧ a.2 < b.2).

Section vocabulary.
Context {Mgr : Type} `{!ManagerOps Mgr}.

(** One turn of the first loop of victim selection. *)
Definition queue_step (m : Mgr) (target_device : Device) (q : list (Z * Z))
    (item : Z * Chunk) : list (Z * Z) :=
  let '(chunk_id, chunk) := item in
  if movable target_device chunk
  then pq_put (- next_accessed_mom m chunk target_device, chunk_id) q
  else q.

(** The chunks victim selection may choose from. *)
Definition candidate (chunks : gmap Z Chunk) (target_device : Device) (id : Z) : Prop :=
  ∃ c, chunks !! id = Some c ∧ movable target_device c = true.

Definition moment_of (m : Mgr) (chunks : gmap Z Chunk) (target_device : Device)
    (id : Z) : Z :=
  match chunks !! id with
  | Some c => next_accessed_mom m c target_device
  | None => 0
  end.

(** Later next access first; the smaller id first among equal moments. *)
Definition evicted_before (m : Mgr) (chunks : gmap Z Chunk) (target_device : Device)
    (a b : Z) : Prop :=
  moment_of m chunks target_device b < moment_of m chunks target_device a
  ∨ (moment_of m chunks target_device a = moment_of m chunks target_device b ∧ a < b).

(** [order] lists exactly the candidates, each once, in eviction order. *)
Definition victim_order (m : Mgr) (chunks : gmap Z Chunk) (target_device : Device)
    (order : list Z) : Prop :=
  StronglySorted (evicted_before m chunks target_device) order
  ∧ ∀ id, id ∈ order ↔ candidate chunks target_device id.

Definition bytes_of (chunks : gmap Z Chunk) (id : Z) : Z :=
  match chunks !! id with
  | Some c => get_payload_space c
  | None => 0
  end.

(** Payload bytes of a list of chunk ids. *)
Definition payload_bytes (chunks : gmap Z Chunk) (ids : list Z) : Z :=
  foldr (λ id acc, bytes_of chunks id + acc) 0 ids.

(** [l] stops at the first victim with which the bytes gathered so far
    reach [d]: no shorter non-empty prefix reaches [d]. *)
Definition stops_at_first_reach (chunks : gmap Z Chunk) (d : Z) (l : list Z) : Prop :=
  (l ≠ [] → d ≤ payload_bytes chunks l)
  ∧ ∀ l', l' `prefix_of` l → l' ≠ [] → l' ≠ l → payload_bytes chunks l' < d.

(** The calls a user of the directory makes. *)
Inductive request : Type :=
  | NewChunk (world_size chunk_id chunk_size : Z) (data_type : dtype)
      (is_dummy : bool) (chunk_type : ChunkType)
  | AccessChunk (chunk_id : Z) (compute_device : Device)
  | PrepareDevice (target_device : Device) (need_bytes : Z)
  | MakeRoom (offload_size_in_bytes : Z) (target_device : Device)
  | ChunkMove (chunk_id : Z) (device : Device).

(** The state a call leaves, whether it returns or raises. *)
Definition serve (r : request) (s : State Mgr) : State Mgr :=
  match r with
  | NewChunk ws id size dt dummy ty => (new_chunk ws id size dt dummy ty s).1
  | AccessChunk id dev => (access_chunk id dev s).1
  | PrepareDevice dev need => (prepare_device dev need s).1
  | MakeRoom d dev => (make_room d dev s).1
  | ChunkMove id dev => (chunk_move id dev s).1
  end.

(** The calls served one after the other, the caller going on after an
    exception. *)
Definition serve_all (rs : list request) (s : State Mgr) : State Mgr :=
  foldl (λ s r, serve r s) s rs.

(** The warm-up bookkeeping of [access_chunk]: the access moment goes into
    the history of the chunk, nothing else changes. *)
Definition record_access (chunk_id : Z) (compute_device : Device)
    (s : State Mgr) : State Mgr :=
  match id_to_chunk_map (self s) !! chunk_id with
  | Some c =>
      {| mgr := mgr s;
         self := set_id_to_chunk_map
                   (<[chunk_id := Chunk_append_moment (get_cur_mom (mgr s))
                                    compute_device c]>
                      (id_to_chunk_map (self s))) (self s) |}
  | None => s
  end.

(** The state in which [access_chunk] inspects the chunk. *)
Definition noted (chunk_id : Z) (compute_device : Device) (s : State Mgr) : State Mgr :=
  if is_warmup_training (mgr s) then record_access chunk_id compute_device s else s.

End vocabulary.
End CoreSpec.

(** ** A concrete manager and directory for running the code *)

Module CoreScenario.
Import Py Torch Core.

(** Modelled from the spec: the capacity tracker of section 6, with a
    budget and a used amount per tier; free is budget minus used. During
    warm-up every chunk's next access moment is 0, afterwards it is the
    first noted moment later than the current one (0 when there is none). *)
Record Tracker : Type := mkTracker {
  cpu_budget : Z;
  cuda_budget : Z;
  cpu_used : Z;
  cuda_used : Z;
  warmup : bool;
  cur_mom : Z;
}.

Definition budget (t : Tracker) (ty : DeviceType) : Z :=
  match ty with cpu => cpu_budget t | cuda => cuda_budget t end.

Definition used (t : Tracker) (ty : DeviceType) : Z :=
  match ty with cpu => cpu_used t | cuda => cuda_used t end.

Definition reserve (ty : DeviceType) (n : Z) (t : Tracker) : Tracker :=
  match ty with
  | cpu => {| cpu_budget := cpu_budget t; cuda_budget := cuda_budget t;
              cpu_used := cpu_used t + n; cuda_used := cuda_used t;
              warmup := warmup t; cur_mom := cur_mom t |}
  | cuda => {| cpu_budget := cpu_budget t; cuda_budget := cuda_budget t;
               cpu_used := cpu_used t; cuda_used := cuda_used t + n;
               warmup := warmup t; cur_mom := cur_mom t |}
  end.

Fixpoint first_after (now : Z) (l : list Z) : Z :=
  match l with
  | [] => 0
  | x :: l' => if now <? x then x else first_after now l'
  end.

#[global] Instance Tracker_ops : ManagerOps Tracker := {|
  available_chunk_mem := budget;
  free_chunk_mem := λ t ty, budget t ty - used t ty;
  is_warmup_training := warmup;
  get_cur_mom := cur_mom;
  mgr_add := reserve;
  mgr_delete := λ ty n, reserve ty (- n);
  record_moment := λ l mom, l ++ [mom];
  next_moment := λ t l, if warmup t then 0 else first_after (cur_mom t) l;
|}.

Definition gpu0 : Device := mkDevice cuda (Some 0).
Definition host : Device := mkDevice cpu None.

(** A fast tier of 100 bytes and a slow tier of 1000 bytes. *)
Definition tracker0 : Tracker :=
  {| cpu_budget := 1000; cuda_budget := 100; cpu_used := 0; cuda_used := 0;
     warmup := false; cur_mom := 0 |}.

Definition state0 : State Tracker :=
  {| mgr := tracker0; self := ChunkList_init 0 |}.

(** Chunk 1 of 60 bytes and chunk 2 of 50 bytes, registered. *)
Definition state_registered : State Tracker :=
  (new_chunk 1 2 25 half false PARAM_FP16
     (new_chunk 1 1 30 half false PARAM_FP16 state0).1).1.

(** Chunk 1 resident on the fast tier. *)
Definition state_one_resident : State Tracker :=
  (access_chunk 1 gpu0 state_registered).1.

(** A resident chunk with the given bytes (in [half] elements), tensor
    states, pin flag and noted moments on the fast tier. *)
Definition resident (id elems : Z) (states : list TensorState) (pin : bool)
    (moments : list Z) : Chunk :=
  {| chunk_id := id; capacity := elems; data_type := half; local_rank := 0;
     is_dummy := false; payload_device := Some gpu0; tensor_states := states;
     pinned := pin; cpu_access_moments := []; gpu_access_moments := moments |}.

(** Five chunks on the fast tier: 1 and 2 are next used at moment 7, 3 at
    moment 9, 4 is in [COMPUTE], 5 is pinned. *)
Definition state_crowded : State Tracker :=
  {| mgr := {| cpu_budget := 1000; cuda_budget := 100; cpu_used := 0;
               cuda_used := 100; warmup := false; cur_mom := 5 |};
     self := {| id_to_chunk_map :=
                  <[1 := resident 1 10 [T_HOLD] false [7]]>
                  (<[2 := resident 2 10 [T_HOLD] false [3; 7]]>
                  (<[3 := resident 3 10 [T_FREE] false [9]]>
                  (<[4 := resident 4 10 [T_COMPUTE] false [20]]>
                  (<[5 := resident 5 10 [T_HOLD] true [30]]> ∅))));
                chunk_type_to_id_list_map := λ _, [];
                _time_profile := true;
                moments_cnt_of_iteration := None;
                cl_local_rank := 0 |} |}.

End CoreScenario.

(** ** Vocabulary of the statements about a chunk *)

Module ClientSpec.
Import Py Torch Client.

Section vocabulary.
Context {Mgr : Type} `{!PSManagerOps Mgr}.

(** The items the chunk contains. *)
Definition items (s : State Mgr) : list TensorInfo :=
  (tensor_id_to_info_dict (self s)).*2.

(** An item is resident when its status is not [FREE]. *)
Definition resident (ps : gmap nat Param) (info : TensorInfo) : Prop :=
  info_status ps info ≠ PSTensorStatus.FREE.

(** Start and element count of the resident ones among [infos]. *)
Definition ranges (ps : gmap nat Param) (infos : list TensorInfo) : list (Z * Z) :=
  (λ info, (start info, info_numel ps info)) <$> filter (resident ps) infos.

(** The resident items of the chunk in ascending start order. *)
Definition occupied (s : State Mgr) : list (Z * Z) :=
  ranges (params s) (generate_in_sorted_order (self s)).

(** The gaps as the scan meets them, each with its start and its size: in
    front of every resident item, from the end of the previous one (from 0
    for the first), and the tail gap up to the capacity. *)
Fixpoint gaps (prev_end capacity : Z) (occ : list (Z * Z)) : list (Z * Z) :=
  match occ with
  | [] => [(prev_end, capacity - prev_end)]
  | (st, n) :: occ' => (prev_end, st - prev_end) :: gaps (st + n) capacity occ'
  end.

(** Start of the first gap that holds [numel] elements. *)
Fixpoint first_fit (numel : Z) (gs : list (Z * Z)) : option Z :=
  match gs with
  | [] => None
  | (off, size) :: gs' => if numel <=? size then Some off else first_fit numel gs'
  end.

(** The payload spans the capacity and the resident items lie inside it. *)
Definition well_formed (s : State Mgr) : Prop :=
  t_numel (payload (self s)) = capacity (self s)
  ∧ ∀ info, info ∈ items s → resident (params s) info →
      0 ≤ start info ∧ start info + info_numel (params s) info ≤ capacity (self s).

(** The state after [numel] elements at [offset] were given to the tensor
    [access_type] of [param] at time [now]: the range is zeroed in the
    payload's storage, the item is in the dictionary under the tensor's id,
    the timestamp is [now]. *)
Definition allocated (offset numel : Z) (param : nat) (access_type : AccessType)
    (now : Z) (s : State Mgr) : State Mgr :=
  let item := {| start := offset; param := param; access_type := access_type |} in
  let base := t_base (payload (self s)) in
  {| heap :=
       match heap s !! base with
       | Some st =>
           <[base := {| st_device := st_device st; st_dtype := st_dtype st;
                        st_data := zero_range (t_offset (payload (self s)) + offset)
                                     numel (st_data st) |}]> (heap s)
       | None => heap s
       end;
     params := params s;
     ps_manager := ps_manager s;
     self := set_timestamp now
               (set_dict (dict_set (info_tensor_id (params s) item) item
                            (tensor_id_to_info_dict (self s))) (self s)) |}.

(** The view [allocate] hands back. *)
Definition slice (offset numel : Z) (s : State Mgr) : Tensor :=
  {| t_base := t_base (payload (self s));
     t_offset := t_offset (payload (self s)) + offset;
     t_numel := numel;
     t_shape := [Z.to_N numel] |}.

(** Two ranges, each a start and an element count, share an element. *)
Definition overlap (a b : Z * Z) : Prop :=
  Z.max a.1 b.1 < Z.min (a.1 + a.2) (b.1 + b.2).

(** No two ranges of the list overlap. *)
Fixpoint pairwise_disjoint (l : list (Z * Z)) : Prop :=
  match l with
  | [] => True
  | x :: l' => Forall (λ y, ¬ overlap x y) l' ∧ pairwise_disjoint l'
  end.

(** No two resident items of the chunk overlap. *)
Definition non_overlapping (s : State Mgr) : Prop :=
  pairwise_disjoint (ranges (params s) (items s)).

(** *** Vocabulary for [move] *)

(** The tensor of a parameter an item stands for, with the attribute that
    goes with it: [ps_data_tensor] and [data], or [ps_grad_tensor] and
    [grad]. *)
Definition views (a : AccessType) (p : Param) : option Tensor * option Tensor :=
  match a with
  | DATA => (ps_data_tensor p, data p)
  | GRAD => (ps_grad_tensor p, grad p)
  end.

(** What [move] leaves in these attributes for a tensor seen at [v]. *)
Definition repointed (a : AccessType) (v : Tensor) : option Tensor * option Tensor :=
  match a with
  | DATA => (Some v, Some v)
  | GRAD => (Some v, None)
  end.

(** What [move] never writes: shape, element type, ids and statuses. *)
Definition statics (p : Param)
    : Size * dtype * Z * Z * PSTensorStatus.t * PSTensorStatus.t :=
  (ps_shape p, p_dtype p, ps_data_id p, ps_grad_id p, data_status p, grad_status p).

Definition same_statics (ps ps' : gmap nat Param) : Prop :=
  ∀ r, statics (ps' !!! r) = statics (ps !!! r).



(** The items are filed under the id of their tensor, one item per id, and
    refer to parameters of the store. *)
Definition keyed (s : State Mgr) : Prop :=
  NoDup (tensor_id_to_info_dict (self s)).*1
  ∧ ∀ k info, (k, info) ∈ tensor_id_to_info_dict (self s) →
      is_Some (params s !! param info) ∧ k = info_tensor_id (params s) info.

(** The payload is a storage of the heap that lives on the chunk's device. *)
Definition payload_on_device (s : State Mgr) : Prop :=
  ∃ st, heap s !! t_base (payload (self s)) = Some st
        ∧ st_device st = device (self s).



(** The elements the payload holds, in order. *)
Definition payload_data (s : State Mgr) : option (list Z) :=
  (λ st, take (Z.to_nat (t_numel (payload (self s))))
           (drop (Z.to_nat (t_offset (payload (self s)))) (st_data st)))
    <$> heap s !! t_base (payload (self s)).


(** The state after [allocate] was given an [offset] that may be
    negative: the range zeroed is the one [narrow] selects, counted from the
    end of the payload for a negative [offset], while the item is filed with
    the [offset] as given. *)
Definition allocated_wrapped (offset numel : Z) (param : nat) (access_type : AccessType)
    (now : Z) (s : State Mgr) : State Mgr :=
  let item := {| start := offset; param := param; access_type := access_type |} in
  let base := t_base (payload (self s)) in
  {| heap :=
       match heap s !! base with
       | Some st =>
           <[base := {| st_device := st_device st; st_dtype := st_dtype st;
                        st_data :=
                          zero_range
                            (t_offset (payload (self s))
                             + wrap (t_numel (payload (self s))) offset)
                            numel (st_data st) |}]> (heap s)
       | None => heap s
       end;
     params := params s;
     ps_manager := ps_manager s;
     self := set_timestamp now
               (set_dict (dict_set (info_tensor_id (params s) item) item
                            (tensor_id_to_info_dict (self s))) (self s)) |}.

(** What no method writes after construction: id, capacity, element type
    and cuda index. *)
Definition same_frame (c c' : Chunk) : Prop :=
  chunk_id c' = chunk_id c ∧ capacity c' = capacity c
  ∧ data_type c' = data_type c ∧ cuda_idx c' = cuda_idx c.

(** What a step of the loop of [move] keeps, returning or raising: the
    heap, the chunk, the manager, what [same_statics] lists and the
    parameters of the store; it raises [RuntimeError] or [IndexError] only. *)
Definition loop_frame (s0 : State Mgr) (r : State Mgr * (exn + unit)) : Prop :=
  heap r.1 = heap s0 ∧ self r.1 = self s0 ∧ ps_manager r.1 = ps_manager s0
  ∧ same_statics (params s0) (params r.1)
  ∧ (∀ q, is_Some (params s0 !! q) → is_Some (params r.1 !! q))
  ∧ (r.2 = inr tt ∨ r.2 = inl RuntimeError ∨ r.2 = inl IndexError).

(** A device on which [Chunk.__init__] keeps the payload: the cpu, or a
    cuda device whose index does not exceed [device_count]. *)
Definition usable (device_count : Z) (d : Device) : Prop :=
  match dev_type d, dev_index d with
  | cpu, _ => True
  | cuda, Some index => index ≤ device_count
  | cuda, None => False
  end.



(** The state in which the loop of [move] starts: the payload [np] is in
    place and the manager has been told. *)
Definition relocated (target_device : Device) (np : Tensor) (sa : State Mgr) : State Mgr :=
  {| heap := heap sa;
     params := params sa;
     ps_manager :=
       ps_delete (dev_type (device (self sa))) (dev_index (device (self sa)))
         (capacity (self sa) * getsizeof (data_type (self sa)))
         (ps_add (dev_type target_device) (dev_index target_device)
            (capacity (self sa) * getsizeof (data_type (self sa))) (ps_manager sa));
     self := set_payload np (self sa) |}.

End vocabulary.
End ClientSpec.

(** ** A concrete chunk for running the code *)

Module ClientScenario.
Import Py Torch Client.

(** A manager that keeps the log of the accounting calls it received. *)
Inductive entry : Type :=
  | Added (ty : DeviceType) (index : option Z) (bytes : Z)
  | Deleted (ty : DeviceType) (index : option Z) (bytes : Z).

#[global] Instance Log_ops : PSManagerOps (list entry) := {|
  ps_is_init := λ _, true;
  ps_schedule := λ _ _ _, mkDevice cpu None;
  ps_add := λ ty index bytes log, log ++ [Added ty index bytes];
  ps_delete := λ ty index bytes log, log ++ [Deleted ty index bytes];
|}.

Definition host : Device := mkDevice cpu None.
Definition gpu0 : Device := mkDevice cuda (Some 0).

(** A parameter whose data tensor is held and whose gradient is released. *)
Definition held (shape : Size) (data_id grad_id : Z) : Param :=
  {| ps_shape := shape; p_dtype := float;
     ps_data_id := data_id; ps_grad_id := grad_id;
     data_status := PSTensorStatus.HOLD; grad_status := PSTensorStatus.FREE;
     ps_data_tensor := None; ps_grad_tensor := None;
     data := None; grad := None |}.

(** An empty chunk of 10 floats on the host, its payload filled with 7s,
    and three parameters of 5, 0 and 3 elements. *)
Definition empty_chunk : State (list entry) :=
  {| heap := [{| st_device := host; st_dtype := float; st_data := replicate 10 7 |}];
     params := <[0%nat := held [5%N] 1 2]>
               (<[1%nat := held [0%N] 3 4]>
               (<[2%nat := held [3%N] 5 6]> ∅));
     ps_manager := [];
     self := {| chunk_id := 0; capacity := 10; data_type := float; cuda_idx := 0;
                device := host;
                payload := {| t_base := 0; t_offset := 0; t_numel := 10;
                              t_shape := [10%N] |};
                tensor_id_to_info_dict := [];
                timestamp := 0 |} |}.

(** The 5-element tensor allocated. *)
Definition one_tensor : State (list entry) :=
  (try_allocate 0 DATA 1 empty_chunk).1.

(** Then the 0-element tensor. *)
Definition two_tensors : State (list entry) :=
  (try_allocate 1 DATA 2 one_tensor).1.

(** Then the 3-element tensor. *)
Definition three_tensors : State (list entry) :=
  (try_allocate 2 DATA 3 two_tensors).1.


(** The chunk of [one_tensor] after the data tensor of parameter 0 was
    released: its item is still in the dictionary, with status [FREE]. *)
Definition tensor_released : State (list entry) :=
  set_params
    (<[0%nat := {| ps_shape := [5%N]; p_dtype := float;
                   ps_data_id := 1; ps_grad_id := 2;
                   data_status := PSTensorStatus.FREE;
                   grad_status := PSTensorStatus.FREE;
                   ps_data_tensor := None; ps_grad_tensor := None;
                   data := None; grad := None |}]> (params one_tensor))
    one_tensor.

(** The chunk of [one_tensor] with a fourth parameter, of 11 elements. *)
Definition with_large_param : State (list entry) :=
  set_params (<[3%nat := held [11%N] 7 8]> (params one_tensor)) one_tensor.

End ClientScenario.

(** ** Properties of the directory *)

Module CoreFacts.
Import Py Torch Core CoreSpec.

(** *** The id counter *)

Lemma run_calls_from (cs : list call) (p : Process) :
  (run_calls cs p).2
  = (λ k, generated_chunk_id p + 1 + Z.of_nat k)
      <$> seq 0 (generate_count cs)
  ∧ generated_chunk_id (run_calls cs p).1
    = generated_chunk_id p + Z.of_nat (generate_count cs).
Proof.
  revert p. induction cs as [|c cs IH]; intros p.
  - simpl. split; [done | lia].
  - destruct c as [r|self0].
    + simpl.
      destruct (IH (construct r p).1) as [IH1 IH2]. simpl in *. done.
    + simpl.
      set (p' := {| generated_chunk_id := generated_chunk_id p + 1;
                    instances := instances p |}).
      destruct (IH p') as [IH1 IH2].
      destruct (run_calls cs p') as [p'' ids] eqn:E. simpl in *.
      split.
      * rewrite IH1. f_equal; [lia|].
        rewrite <- fmap_S_seq, <- list_fmap_compose.
        apply list_fmap_ext. intros _ k _. simpl. lia.
      * rewrite IH2. lia.
Qed.

(** C10. [generated_chunk_id] belongs to the class: whatever mix of
    constructions and [generate_chunk_id] calls on whatever instances a
    process performs, the ids handed out are 0, 1, 2, ... in call order (so
    strictly increasing and never reused), and constructing an instance does
    not reset the counter. *)
Theorem generate_chunk_id_class_counter (cs : list call) :
  let n := generate_count cs in
  (run_calls cs process_start).2 = Z.of_nat <$> seq 0 n
  ∧ generated_chunk_id (run_calls cs process_start).1 = Z.of_nat n - 1
  ∧ ∀ r p, generated_chunk_id (construct r p).1 = generated_chunk_id p.
Proof.
  intros n. destruct (run_calls_from cs process_start) as [H1 H2].
  fold n in H1, H2. split; [|split].
  - rewrite H1. apply list_fmap_ext. intros _ k _. simpl. lia.
  - rewrite H2. simpl. lia.
  - done.
Qed.

(** *** The priority queue *)

Lemma entry_lt_spec a b : entry_lt a b = true ↔ entry_before a b.
Proof.
  unfold entry_lt, entry_before.
  rewrite orb_true_iff, andb_true_iff, !Z.ltb_lt, Z.eqb_eq. tauto.
Qed.

#[local] Instance entry_before_trans : Transitive entry_before.
Proof. intros a b c. unfold entry_before. lia. Qed.

Lemma pq_put_elem x q e : e ∈ pq_put x q ↔ e = x ∨ e ∈ q.
Proof.
  induction q as [|y q IH]; simpl.
  - rewrite list_elem_of_singleton. set_solver.
  - destruct (entry_lt x y); rewrite ?elem_of_cons; [tauto|].
    rewrite IH. tauto.
Qed.

Lemma pq_put_sorted x q :
  StronglySorted entry_before q →
  (∀ e, e ∈ q → e.2 ≠ x.2) →
  StronglySorted entry_before (pq_put x q).
Proof.
  induction q as [|y q IH]; simpl; intros Hs Hne.
  - repeat constructor.
  - apply StronglySorted_inv in Hs as [Hs Hy].
    destruct (entry_lt x y) eqn:E.
    + apply entry_lt_spec in E. constructor.
      * constructor; done.
      * constructor; [done|].
        eapply Forall_impl; [exact Hy|]. intros z Hz. by etrans.
    + constructor.
      * apply IH; [done|]. intros e He. apply Hne. by right.
      * apply Forall_forall. intros e He. apply pq_put_elem in He as [->|He].
        -- assert (Hxy : ¬ entry_before x y).
           { rewrite <- entry_lt_spec. congruence. }
           specialize (Hne y (list_elem_of_here _ _)).
           unfold entry_before in *. lia.
        -- by eapply Forall_forall in Hy.
Qed.

Section selection.
Context {Mgr : Type} `{!ManagerOps Mgr}.

Implicit Types (m : Mgr) (chunks : gmap Z Chunk) (q : list (Z * Z)).

Lemma fill_queue_foldl m target_device items :
  fill_queue m target_device items = foldl (queue_step m target_device) [] items.
Proof.
  unfold fill_queue. f_equal.
Qed.

(** The first loop: the queue holds one entry per movable chunk seen, in
    ascending order of (minus the moment, the id). *)
Lemma queue_step_invariant m target_device items q :
  NoDup items.*1 →
  (∀ e, e ∈ q → e.2 ∉ items.*1) →
  StronglySorted entry_before q →
  let q' := foldl (queue_step m target_device) q items in
  StronglySorted entry_before q'
  ∧ ∀ e, e ∈ q' ↔
      e ∈ q ∨ ∃ id c, (id, c) ∈ items ∧ movable target_device c = true
                      ∧ e = (- next_accessed_mom m c target_device, id).
Proof.
  revert q. induction items as [|[id c] items IH]; intros q Hnd Hfresh Hs; simpl.
  - split; [done|]. intros e. split; [auto|].
    intros [?|(?&?&Hin&_)]; [done|]. by apply elem_of_nil in Hin.
  - simpl in Hnd. apply NoDup_cons in Hnd as [Hid Hnd].
    destruct (movable target_device c) eqn:Hmov.
    + destruct (IH (pq_put (- next_accessed_mom m c target_device, id) q)) as [IH1 IH2].
      * done.
      * intros e He. apply pq_put_elem in He as [->|He]; [done|].
        specialize (Hfresh e He). simpl in Hfresh. set_solver.
      * apply pq_put_sorted; [done|]. intros e He. specialize (Hfresh e He).
        simpl in *. set_solver.
      * split; [done|]. intros e. rewrite IH2, pq_put_elem. split.
        -- intros [[->|?]|(id'&c'&Hin&?&?)]; [right|by left|right].
           ++ exists id, c. split_and!; [left|done|done].
           ++ exists id', c'. split_and!; [by right|done|done].
        -- intros [?|(id'&c'&Hin&?&?)]; [by left; right|].
           apply elem_of_cons in Hin as [Heq|Hin].
           ++ inversion Heq; subst. by left; left.
           ++ right. by exists id', c'.
    + destruct (IH q) as [IH1 IH2].
      * done.
      * intros e He. specialize (Hfresh e He). simpl in Hfresh. set_solver.
      * done.
      * split; [done|]. intros e. rewrite IH2. split.
        -- intros [?|(id'&c'&Hin&?&?)]; [by left|right].
           exists id', c'. split_and!; [by right|done|done].
        -- intros [?|(id'&c'&Hin&?&?)]; [by left|].
           apply elem_of_cons in Hin as [Heq|Hin].
           ++ inversion Heq; subst. congruence.
           ++ right. by exists id', c'.
Qed.

Lemma fill_queue_spec m chunks target_device :
  let q := fill_queue m target_device (map_to_list chunks) in
  StronglySorted entry_before q
  ∧ ∀ e, e ∈ q ↔
      ∃ c, chunks !! e.2 = Some c ∧ movable target_device c = true
           ∧ e.1 = - next_accessed_mom m c target_device.
Proof.
  intros q. subst q. rewrite fill_queue_foldl.
  destruct (queue_step_invariant m target_device (map_to_list chunks) []) as [H1 H2].
  - apply NoDup_fst_map_to_list.
  - intros e He. by apply elem_of_nil in He.
  - constructor.
  - split; [done|]. intros e. rewrite H2. split.
    + intros [He|(id&c&Hin&Hmov&->)]; [by apply elem_of_nil in He|].
      apply elem_of_map_to_list in Hin. by exists c.
    + intros (c&Hc&Hmov&He). right. exists e.2, c.
      split_and!; [by apply elem_of_map_to_list|done|].
      destruct e; simpl in *; by subst.
Qed.

(** The queue read back as a list of ids is the eviction order. *)
Lemma fill_queue_victim_order m chunks target_device :
  victim_order m chunks target_device
    (fill_queue m target_device (map_to_list chunks)).*2.
Proof.
  destruct (fill_queue_spec m chunks target_device) as [Hs He].
  set (q := fill_queue m target_device (map_to_list chunks)) in *.
  assert (Hmom : ∀ e, e ∈ q → e.1 = - moment_of m chunks target_device e.2).
  { intros e Hin. apply He in Hin as (c&Hc&_&->). unfold moment_of. by rewrite Hc. }
  split.
  - clearbody q. clear He. induction Hs as [|e q Hs IH Hall]; simpl; [constructor|].
    constructor.
    + apply IH. intros e' He'. apply Hmom. by right.
    + apply Forall_fmap, Forall_forall. intros e' He'.
      eapply Forall_forall in Hall; [|exact He'].
      pose proof (Hmom e (list_elem_of_here _ _)) as H1.
      pose proof (Hmom e' (list_elem_of_further _ _ _ He')) as H2.
      unfold evicted_before, entry_before in *. simpl. lia.
  - intros id. rewrite list_elem_of_fmap. unfold candidate. split.
    + intros (e&->&Hin). apply He in Hin as (c&?&?&?). by exists c.
    + intros (c&Hc&Hmov).
      exists (- next_accessed_mom m c target_device, id). split; [done|].
      apply He. by exists c.
Qed.

Lemma payload_bytes_app chunks l1 l2 :
  payload_bytes chunks (l1 ++ l2) = payload_bytes chunks l1 + payload_bytes chunks l2.
Proof. induction l1 as [|x l1 IH]; simpl; [done|]. rewrite IH. lia. Qed.

Lemma payload_bytes_nonneg chunks l :
  (∀ id c, chunks !! id = Some c → 0 ≤ capacity c) →
  0 ≤ payload_bytes chunks l.
Proof.
  intros Hcap. induction l as [|x l IH]; simpl; [done|].
  assert (0 ≤ bytes_of chunks x); [|lia].
  unfold bytes_of. destruct (chunks !! x) as [c|] eqn:E; [|done].
  unfold get_payload_space. destruct (payload_device c); [|done].
  specialize (Hcap _ _ E). destruct (data_type c); simpl; lia.
Qed.

Lemma prefix_cons_cases {A} (l' : list A) x l :
  l' `prefix_of` x :: l → l' = [] ∨ ∃ l'', l' = x :: l'' ∧ l'' `prefix_of` l.
Proof.
  destruct l' as [|y l']; [by left|]. intros Hp. right.
  pose proof (prefix_cons_inv_1 _ _ _ _ Hp) as ->.
  apply prefix_cons_inv_2 in Hp. by exists l'.
Qed.

(** The second loop, started with [moved_bytes] and [moved_list]: it pops
    ids until the bytes reach the need or the queue is empty. *)
Lemma drain_queue_spec chunks need q moved_bytes moved_list :
  (∀ e, e ∈ q → is_Some (chunks !! e.2)) →
  ∃ taken,
    drain_queue chunks need q moved_bytes moved_list
    = inr (moved_bytes + payload_bytes chunks taken, moved_list ++ taken)
    ∧ taken `prefix_of` q.*2
    ∧ (∀ l', l' `prefix_of` taken → l' ≠ [] → l' ≠ taken →
             moved_bytes + payload_bytes chunks l' < need)
    ∧ ((taken ≠ [] ∧ need ≤ moved_bytes + payload_bytes chunks taken)
       ∨ (taken = q.*2
          ∧ ∀ l', l' `prefix_of` taken → l' ≠ [] →
                  moved_bytes + payload_bytes chunks l' < need)).
Proof.
  revert moved_bytes moved_list.
  induction q as [|[k id] q IH]; intros moved_bytes moved_list Hin; simpl.
  - exists []. simpl. rewrite app_nil_r, Z.add_0_r. split_and!; [done|done| |].
    + intros l' Hl' ??. apply prefix_nil_inv in Hl'. done.
    + right. split; [done|]. intros l' Hl' ?. apply prefix_nil_inv in Hl'. done.
  - destruct (Hin (k, id) (list_elem_of_here _ _)) as [c Hc]. simpl in Hc.
    rewrite Hc.
    assert (Hb : bytes_of chunks id = get_payload_space c).
    { unfold bytes_of. by rewrite Hc. }
    destruct (need <=? moved_bytes + get_payload_space c) eqn:E.
    + apply Z.leb_le in E. exists [id]. simpl. rewrite Hb, Z.add_0_r.
      split_and!; [done| | |].
      * by apply prefix_cons, prefix_nil.
      * intros l' Hl' Hne Hne'. apply prefix_cons_cases in Hl' as [->|(l''&->&Hl'')]; [done|].
        apply prefix_nil_inv in Hl'' as ->. done.
      * left. split; [done|lia].
    + apply Z.leb_gt in E.
      destruct (IH (moved_bytes + get_payload_space c) (moved_list ++ [id]))
        as (taken&Heq&Hpre&Hbelow&Hend).
      { intros e He. apply Hin. by right. }
      exists (id :: taken). simpl. rewrite Hb.
      split_and!.
      * rewrite Heq. f_equal. f_equal; [lia|]. by rewrite <- app_assoc.
      * by apply prefix_cons.
      * intros l' Hl' Hne Hne'.
        apply prefix_cons_cases in Hl' as [->|(l''&->&Hl'')]; [done|].
        simpl. rewrite Hb. destruct l'' as [|y l''].
        -- simpl. lia.
        -- assert (moved_bytes + get_payload_space c
                   + payload_bytes chunks (y :: l'') < need); [|simpl in *; lia].
           apply Hbelow; [done|done|congruence].
      * destruct Hend as [[Hne Hreach]|[-> Hex]].
        -- left. split; [done|lia].
        -- right. split; [done|]. intros l' Hl' Hne.
           apply prefix_cons_cases in Hl' as [->|(l''&->&Hl'')]; [done|].
           simpl. rewrite Hb. destruct l'' as [|y l''].
           ++ simpl. lia.
           ++ assert (moved_bytes + get_payload_space c
                      + payload_bytes chunks (y :: l'') < need); [|simpl in *; lia].
              by apply Hex.
Qed.

Lemma prefix_payload_bytes_le chunks l1 l2 :
  (∀ id c, chunks !! id = Some c → 0 ≤ capacity c) →
  l1 `prefix_of` l2 → payload_bytes chunks l1 ≤ payload_bytes chunks l2.
Proof.
  intros Hcap [k ->]. rewrite payload_bytes_app.
  pose proof (payload_bytes_nonneg chunks k Hcap). lia.
Qed.

(** What victim selection computes, without any assumption on the state. *)
Lemma room_making_spec (s : State Mgr) d target_device :
  let chunks := id_to_chunk_map (self s) in
  let order := (fill_queue (mgr s) target_device (map_to_list chunks)).*2 in
  ∃ taken,
    taken `prefix_of` order
    ∧ (∀ l', l' `prefix_of` taken → l' ≠ [] → l' ≠ taken → payload_bytes chunks l' < d)
    ∧ ((taken ≠ [] ∧ d ≤ payload_bytes chunks taken
        ∧ _chunk_to_move_out_for_room_making d target_device s = (s, inr taken))
       ∨ (taken = order
          ∧ (∀ l', l' `prefix_of` order → l' ≠ [] → payload_bytes chunks l' < d)
          ∧ _chunk_to_move_out_for_room_making d target_device s
            = (s, if 0 <? d then inl RuntimeError
                  else if bool_decide (order = []) then inr [] else inl RuntimeError))).
Proof.
  intros chunks order.
  destruct (fill_queue_spec (mgr s) chunks target_device) as [_ Hq].
  destruct (drain_queue_spec chunks d
              (fill_queue (mgr s) target_device (map_to_list chunks)) 0 [])
    as (taken&Heq&Hpre&Hbelow&Hend).
  { intros e He. apply Hq in He as (c&Hc&_). by exists c. }
  exists taken. fold order in Hpre, Hend. simpl in Heq.
  split_and!; [done|done|].
  unfold _chunk_to_move_out_for_room_making. fold chunks. rewrite Heq.
  destruct Hend as [[Hne Hreach]|[-> Hex]].
  - left. split_and!; [done|lia|].
    destruct (_ <? _) eqn:E; [apply Z.ltb_lt in E; lia|done].
  - right. split_and!; [done|done|].
    destruct order as [|x order'] eqn:Eo.
    + simpl. rewrite Z.add_0_l. by destruct (0 <? d).
    + rewrite (bool_decide_eq_false_2 (x :: order' = [])); [|discriminate].
      assert (payload_bytes chunks (x :: order') < d) as Hlt.
      { specialize (Hex (x :: order')). simpl in *. apply Hex; done. }
      assert ((0 + payload_bytes chunks (x :: order') <? d) = true) as ->.
      { apply Z.ltb_lt. lia. }
      by destruct (0 <? d).
Qed.

(** C1. Victim selection for a deficit [d] on [target_device]: the
    candidates taken in order of next access moment descending, ties by
    ascending chunk id, form [order]; the call returns the prefix of
    [order] that ends with the first victim at which the accumulated payload
    bytes reach [d]; when all candidates together stay below [d] it raises
    [RuntimeError] and returns no list. The state is only read. *)
Theorem chunk_to_move_out_for_room_making_spec (s : State Mgr) (d : Z)
    (target_device : Device) :
  (∀ id c, id_to_chunk_map (self s) !! id = Some c → 0 ≤ capacity c) →
  let chunks := id_to_chunk_map (self s) in
  ∃ order,
    victim_order (mgr s) chunks target_device order
    ∧ match _chunk_to_move_out_for_room_making d target_device s with
      | (s', inl e) =>
          s' = s ∧ e = RuntimeError ∧ payload_bytes chunks order < d
      | (s', inr moved_list) =>
          s' = s
          ∧ d ≤ payload_bytes chunks order
          ∧ moved_list `prefix_of` order
          ∧ (moved_list = [] → order = [])
          ∧ stops_at_first_reach chunks d moved_list
      end.
Proof.
  intros Hcap chunks. subst chunks.
  exists (fill_queue (mgr s) target_device (map_to_list (id_to_chunk_map (self s)))).*2.
  split; [apply fill_queue_victim_order|].
  destruct (room_making_spec s d target_device)
    as (taken&Hpre&Hbelow&[(Hne&Hreach&->)|(->&Hex&->)]).
  - split_and!; [done| |done|done|].
    + pose proof (prefix_payload_bytes_le _ _ _ Hcap Hpre). lia.
    + split; done.
  - set (chunks := id_to_chunk_map (self s)) in *.
    set (order := (fill_queue (mgr s) target_device (map_to_list chunks)).*2) in *.
    destruct (0 <? d) eqn:E.
    + apply Z.ltb_lt in E. split_and!; [done|done|].
      destruct order as [|x order'] eqn:Eo; [simpl; lia|].
      apply Hex; done.
    + apply Z.ltb_ge in E. case_bool_decide as Ho.
      * rewrite Ho. simpl. split_and!; try done. split; [done|].
        intros l' Hl' ?. by apply prefix_nil_inv in Hl'.
      * split_and!; [done|done|]. exfalso.
        destruct order as [|x order'] eqn:Eo; [done|].
        pose proof (payload_bytes_nonneg chunks (x :: order') Hcap).
        assert (payload_bytes chunks (x :: order') < d) by (apply Hex; done). lia.
Qed.


Lemma movable_inv target_device c :
  movable target_device c = true →
  get_state c ≠ COMPUTE ∧ is_pin c = false
  ∧ ∃ d, get_device c = Some d ∧ dev_type d = dev_type target_device.
Proof.
  unfold movable. destruct (get_device c) as [d|]; [|done].
  rewrite !andb_true_iff, !negb_true_iff.
  intros [[Hd Hs] Hp]. apply bool_decide_eq_true in Hd.
  apply bool_decide_eq_false in Hs. eauto.
Qed.

Lemma room_making_members (s : State Mgr) d target_device s' moved_list id :
  _chunk_to_move_out_for_room_making d target_device s = (s', inr moved_list) →
  id ∈ moved_list →
  s' = s ∧ candidate (id_to_chunk_map (self s)) target_device id.
Proof.
  intros Hrun Hin.
  destruct (fill_queue_victim_order (mgr s) (id_to_chunk_map (self s)) target_device)
    as [_ Hcand].
  destruct (room_making_spec s d target_device)
    as (taken&Hpre&_&[(_&_&Heq)|(->&_&Heq)]); rewrite Heq in Hrun.
  - inversion Hrun; subst. split; [done|].
    apply Hcand. by eapply elem_of_prefix.
  - destruct (0 <? d); [done|]. case_bool_decide; [|done].
    inversion Hrun; subst. by apply elem_of_nil in Hin.
Qed.

Lemma update_chunk_other chunk_id f (s : State Mgr) id :
  id ≠ chunk_id →
  id_to_chunk_map (self (update_chunk chunk_id f s).1) !! id
  = id_to_chunk_map (self s) !! id.
Proof.
  intros Hne. unfold update_chunk.
  destruct (id_to_chunk_map (self s) !! chunk_id) as [c|]; [|done].
  destruct (f c (mgr s)) as [c' m']. simpl. by rewrite lookup_insert_ne.
Qed.

Lemma chunk_move_other chunk_id device (s : State Mgr) id :
  id ≠ chunk_id →
  id_to_chunk_map (self (chunk_move chunk_id device s).1) !! id
  = id_to_chunk_map (self s) !! id.
Proof.
  intros Hne. unfold chunk_move, bind, lookup_chunk, get, raise, ret.
  destruct (id_to_chunk_map (self s) !! chunk_id) as [c|] eqn:E; [|done].
  destruct (_ <? _); [done|]. case_bool_decide; [|done].
  by apply update_chunk_other.
Qed.

Lemma for_each_chunk_move_other device l (s : State Mgr) id :
  id ∉ l →
  id_to_chunk_map (self (for_each (λ idx, chunk_move idx device) l s).1) !! id
  = id_to_chunk_map (self s) !! id.
Proof.
  revert s. induction l as [|x l IH]; intros s Hni; simpl; [done|].
  apply not_elem_of_cons in Hni as [Hne Hni].
  unfold bind.
  pose proof (chunk_move_other x device s id Hne) as Hx.
  destruct (chunk_move x device s) as [s1 [e|[]]]; simpl in *; [done|].
  by rewrite IH.
Qed.

(** C2. No chunk in state [COMPUTE] and no pinned chunk is in the list
    victim selection returns; and whatever [prepare_device] does, succeed
    or raise, a chunk that was in state [COMPUTE] or pinned is left exactly
    as it was, on the device it was on. *)
Theorem eviction_excludes_in_use (s : State Mgr) (target_device : Device) :
  (∀ d s' moved_list id,
     _chunk_to_move_out_for_room_making d target_device s = (s', inr moved_list) →
     id ∈ moved_list →
     ∃ c, id_to_chunk_map (self s) !! id = Some c
          ∧ get_state c ≠ COMPUTE ∧ is_pin c = false)
  ∧ (∀ need_bytes id c,
       id_to_chunk_map (self s) !! id = Some c →
       get_state c = COMPUTE ∨ is_pin c = true →
       id_to_chunk_map (self (prepare_device target_device need_bytes s).1) !! id
       = Some c).
Proof.
  split.
  - intros d s' moved_list id Hrun Hin.
    destruct (room_making_members s d target_device s' moved_list id Hrun Hin)
      as (_&c&Hc&Hmov).
    apply movable_inv in Hmov as (?&?&_). by exists c.
  - intros need_bytes id c Hc Huse.
    unfold prepare_device, bind, get, raise, ret.
    destruct (_ <? _); [done|]. destruct (_ <=? _); [done|].
    destruct (_chunk_to_move_out_for_room_making _ target_device s)
      as [s' [e|moved_list]] eqn:Hrun.
    + unfold _chunk_to_move_out_for_room_making in Hrun.
      destruct (drain_queue _ _ _ _ _) as [?|[??]]; [|destruct (_ <? _)];
        inversion Hrun; by subst.
    + assert (s' = s) as ->.
      { unfold _chunk_to_move_out_for_room_making in Hrun.
        destruct (drain_queue _ _ _ _ _) as [?|[??]]; [|destruct (_ <? _)];
          by inversion Hrun. }
      rewrite for_each_chunk_move_other; [done|].
      intros Hin.
      destruct (room_making_members s _ target_device s moved_list id Hrun Hin)
        as (_&c'&Hc'&Hmov).
      apply movable_inv in Hmov as (Hs&Hp&_).
      rewrite Hc in Hc'. inversion Hc'; subst.
      destruct Huse; congruence.
Qed.

(** C3. [prepare_device target_device need_bytes]: when the available
    chunk memory of the tier is below the need it raises [RuntimeError] and
    the state is the one it started from (no victim selected, no chunk
    moved); otherwise, when the free chunk memory covers the need, it
    returns and the state is again unchanged. *)
Theorem prepare_device_guards (s : State Mgr) (target_device : Device) (need_bytes : Z) :
  (available_chunk_mem (mgr s) (dev_type target_device) < need_bytes →
   prepare_device target_device need_bytes s = (s, inl RuntimeError))
  ∧ (need_bytes ≤ available_chunk_mem (mgr s) (dev_type target_device) →
     need_bytes ≤ free_chunk_mem (mgr s) (dev_type target_device) →
     prepare_device target_device need_bytes s = (s, inr tt)).
Proof.
  unfold prepare_device, bind, get, raise, ret. split.
  - intros Hlt. apply Z.ltb_lt in Hlt. by rewrite Hlt.
  - intros Hava Hfree.
    assert ((available_chunk_mem (mgr s) (dev_type target_device) <? need_bytes) = false)
      as -> by (apply Z.ltb_ge; lia).
    assert ((need_bytes - free_chunk_mem (mgr s) (dev_type target_device) <=? 0) = true)
      as -> by (apply Z.leb_le; lia).
    done.
Qed.

Lemma get_state_released c : get_state c = RELEASED ↔ payload_device c = None.
Proof.
  unfold get_state. destruct (payload_device c); [|done].
  repeat case_bool_decide; done.
Qed.

Lemma append_moment_payload_device mom compute_device c :
  payload_device (Chunk_append_moment mom compute_device c) = payload_device c.
Proof. unfold Chunk_append_moment. by destruct (dev_type compute_device). Qed.

Lemma record_access_payload_device chunk_id compute_device (s : State Mgr) id :
  payload_device <$> id_to_chunk_map (self (record_access chunk_id compute_device s)) !! id
  = payload_device <$> id_to_chunk_map (self s) !! id.
Proof.
  unfold record_access.
  destruct (id_to_chunk_map (self s) !! chunk_id) as [c|] eqn:E; [|done]. simpl.
  destruct (decide (id = chunk_id)) as [->|Hne].
  - rewrite lookup_insert_eq, E. simpl. by rewrite append_moment_payload_device.
  - by rewrite lookup_insert_ne.
Qed.

Lemma access_chunk_unfold chunk_id compute_device (s : State Mgr) c :
  id_to_chunk_map (self s) !! chunk_id = Some c →
  ∃ c0,
    id_to_chunk_map (self (noted chunk_id compute_device s)) !! chunk_id = Some c0
    ∧ payload_device c0 = payload_device c
    ∧ capacity c0 = capacity c ∧ data_type c0 = data_type c
    ∧ access_chunk chunk_id compute_device s
      = (if bool_decide (get_state c0 = RELEASED) then
           (prepare_device compute_device (get_chunk_space c0) ;;;
            update_chunk chunk_id (Chunk_allocate_payload compute_device))
         else
           match get_device c0 with
           | None => raise AttributeError
           | Some d =>
               if bool_decide (dev_type d ≠ dev_type compute_device) then
                 (prepare_device compute_device (get_chunk_space c0) ;;;
                  update_chunk chunk_id (Chunk_move compute_device) ;;;
                  chunk' <- lookup_chunk chunk_id ;;
                  match get_device chunk' with
                  | None => raise AttributeError
                  | Some d' =>
                      if bool_decide (dev_type d' = dev_type compute_device)
                      then ret tt
                      else raise AssertionError
                  end)
               else ret tt
           end) (noted chunk_id compute_device s).
Proof.
  intros Hc. unfold noted, access_chunk, record_access.
  unfold bind at 1. unfold lookup_chunk at 1. rewrite Hc.
  unfold bind at 1. unfold get at 1.
  unfold bind at 1.
  destruct (is_warmup_training (mgr s)).
  - unfold update_chunk at 1. rewrite Hc. cbn [fst snd].
    exists (Chunk_append_moment (get_cur_mom (mgr s)) compute_device c).
    cbn [self id_to_chunk_map set_id_to_chunk_map]. rewrite lookup_insert_eq.
    split_and!; [done|apply append_moment_payload_device| | |].
    + unfold Chunk_append_moment. by destruct (dev_type compute_device).
    + unfold Chunk_append_moment. by destruct (dev_type compute_device).
    + unfold bind at 1. unfold lookup_chunk at 1.
      cbn [self id_to_chunk_map set_id_to_chunk_map]. by rewrite lookup_insert_eq.
  - unfold ret at 1. exists c. split_and!; try done.
    unfold bind at 1. unfold lookup_chunk at 1. by rewrite Hc.
Qed.

(** When the chunk already has its payload on a device of the requested
    type, [access_chunk] only does the warm-up bookkeeping. *)
Lemma access_chunk_resident chunk_id compute_device (s : State Mgr) c d :
  id_to_chunk_map (self s) !! chunk_id = Some c →
  payload_device c = Some d →
  dev_type d = dev_type compute_device →
  access_chunk chunk_id compute_device s = (noted chunk_id compute_device s, inr tt).
Proof.
  intros Hc Hd Hty.
  destruct (access_chunk_unfold chunk_id compute_device s c Hc)
    as (c0&Hc0&Hpd&_&_&->).
  rewrite bool_decide_eq_false_2.
  2:{ rewrite get_state_released. congruence. }
  unfold get_device. rewrite Hpd, Hd.
  rewrite bool_decide_eq_false_2; [done|]. intros Hne. by apply Hne.
Qed.

Lemma lookup_noted chunk_id compute_device (s : State Mgr) id :
  payload_device <$> id_to_chunk_map (self (noted chunk_id compute_device s)) !! id
  = payload_device <$> id_to_chunk_map (self s) !! id.
Proof.
  unfold noted. destruct (is_warmup_training (mgr s)); [|done].
  apply record_access_payload_device.
Qed.

Lemma mgr_noted chunk_id compute_device (s : State Mgr) :
  mgr (noted chunk_id compute_device s) = mgr s.
Proof.
  unfold noted, record_access. destruct (is_warmup_training (mgr s)); [|done].
  by destruct (id_to_chunk_map (self s) !! chunk_id).
Qed.

(** After a successful [access_chunk] the payload is on a device of the
    requested type. *)
Lemma access_chunk_post chunk_id compute_device (s s1 : State Mgr) :
  access_chunk chunk_id compute_device s = (s1, inr tt) →
  ∃ c d, id_to_chunk_map (self s1) !! chunk_id = Some c
         ∧ get_device c = Some d ∧ dev_type d = dev_type compute_device.
Proof.
  intros Hrun.
  destruct (id_to_chunk_map (self s) !! chunk_id) as [c|] eqn:Hc.
  2:{ unfold access_chunk, bind, lookup_chunk in Hrun. by rewrite Hc in Hrun. }
  destruct (access_chunk_unfold chunk_id compute_device s c Hc)
    as (c0&Hc0&Hpd&_&_&Heq).
  rewrite Heq in Hrun. clear Heq.
  set (s0 := noted chunk_id compute_device s) in *. clearbody s0.
  case_bool_decide as Hrel.
  - unfold bind in Hrun.
    destruct (prepare_device _ _ s0) as [sb [e|[]]]; [done|].
    unfold update_chunk in Hrun.
    destruct (id_to_chunk_map (self sb) !! chunk_id) as [cb|]; [|done].
    simpl in Hrun. inversion Hrun; subst. simpl.
    rewrite lookup_insert_eq. eauto.
  - destruct (get_device c0) as [d|] eqn:Hd; [|done].
    case_bool_decide as Hne.
    + unfold bind in Hrun.
      destruct (prepare_device _ _ s0) as [sb [e|[]]]; [done|].
      destruct (update_chunk chunk_id (Chunk_move compute_device) sb)
        as [sc [e|[]]]; [done|].
      unfold lookup_chunk in Hrun.
      destruct (id_to_chunk_map (self sc) !! chunk_id) as [cc|] eqn:Hcc; [|done].
      destruct (get_device cc) as [d'|] eqn:Hd'; [|done].
      case_bool_decide; [|done]. inversion Hrun; subst. eauto.
    + inversion Hrun; subst. exists c0, d. split_and!; [done|done|].
      destruct (decide (dev_type d = dev_type compute_device)); done.
Qed.

(** C7. After a successful [access_chunk chunk_id compute_device] the
    chunk's device has the type of the requested device. A second call
    right after it succeeds and does no move, no materialisation and no
    accounting: the manager is the same, every chunk has its payload where
    it was, and the whole state is the same except that, during warm-up, the
    access moment is noted in the history of the chunk. *)
Theorem access_chunk_idempotent (chunk_id : Z) (compute_device : Device)
    (s s1 : State Mgr) :
  access_chunk chunk_id compute_device s = (s1, inr tt) →
  (∃ c d, id_to_chunk_map (self s1) !! chunk_id = Some c
          ∧ get_device c = Some d ∧ dev_type d = dev_type compute_device)
  ∧ ∃ s2,
      access_chunk chunk_id compute_device s1 = (s2, inr tt)
      ∧ mgr s2 = mgr s1
      ∧ (∀ id, payload_device <$> id_to_chunk_map (self s2) !! id
               = payload_device <$> id_to_chunk_map (self s1) !! id)
      ∧ s2 = (if is_warmup_training (mgr s1)
              then record_access chunk_id compute_device s1 else s1).
Proof.
  intros Hrun.
  destruct (access_chunk_post _ _ _ _ Hrun) as (c&d&Hc&Hd&Hty).
  split; [by eauto|].
  exists (noted chunk_id compute_device s1). split_and!.
  - by eapply access_chunk_resident.
  - apply mgr_noted.
  - apply lookup_noted.
  - done.
Qed.

(** C9. [new_chunk] registers the chunk without storage: when it returns,
    the chunk is in the directory with no payload and state [RELEASED], the
    manager's accounting is untouched and the id is the last of its type's
    list. The payload first appears in [access_chunk]: that call is
    [prepare_device] for the chunk's bytes followed by the allocation of the
    payload, and when it succeeds the payload is on the requested device.
    [new_chunk] does return whenever the id is new and the world size is
    not zero. *)
Theorem new_chunk_is_lazy (world_size chunk_id chunk_size : Z) (data_type : dtype)
    (is_dummy : bool) (chunk_type : ChunkType) (s : State Mgr) :
  (id_to_chunk_map (self s) !! chunk_id = None → world_size ≠ 0 →
   ∃ s1 ci, new_chunk world_size chunk_id chunk_size data_type is_dummy chunk_type s
            = (s1, inr ci))
  ∧ ∀ s1 ci,
      new_chunk world_size chunk_id chunk_size data_type is_dummy chunk_type s
      = (s1, inr ci) →
      ∃ c, id_to_chunk_map (self s1) !! chunk_id = Some c
           ∧ get_device c = None
           ∧ get_state c = RELEASED
           ∧ mgr s1 = mgr s
           ∧ chunk_type_to_id_list_map (self s1) chunk_type
             = chunk_type_to_id_list_map (self s) chunk_type ++ [chunk_id]
           ∧ ∀ compute_device,
               access_chunk chunk_id compute_device s1
               = (prepare_device compute_device (chunk_size * getsizeof data_type) ;;;
                  update_chunk chunk_id (Chunk_allocate_payload compute_device))
                   (noted chunk_id compute_device s1)
               ∧ ∀ s2, access_chunk chunk_id compute_device s1 = (s2, inr tt) →
                       ∃ c2, id_to_chunk_map (self s2) !! chunk_id = Some c2
                             ∧ get_device c2 = Some compute_device.
Proof.
  unfold new_chunk, bind, get, modify, raise, ret. split.
  - intros Hnew Hws. rewrite bool_decide_eq_false_2.
    2:{ rewrite Hnew. by intros [??]. }
    rewrite bool_decide_eq_false_2 by done. eauto.
  - intros s1 ci. case_bool_decide as Hreg; [done|].
    case_bool_decide as Hws; [done|]. intros Hrun. inversion Hrun; subst. clear Hrun.
    eexists. cbn [self mgr id_to_chunk_map append_id set_id_to_chunk_map
                  chunk_type_to_id_list_map].
    rewrite lookup_insert_eq. split_and!; try done.
    { by rewrite bool_decide_eq_true_2. }
    intros compute_device.
    match goal with |- context [access_chunk _ _ ?st] => set (s1 := st) end.
    assert (Hc1 : id_to_chunk_map (self s1) !! chunk_id
                  = Some (Chunk_init chunk_size data_type chunk_id
                            (cl_local_rank (self s)) is_dummy)).
    { subst s1. simpl. by rewrite lookup_insert_eq. }
    destruct (access_chunk_unfold chunk_id compute_device s1 _ Hc1)
      as (c0&Hc0&Hpd&Hcap&Hdt&Heq).
    assert (Hrel : get_state c0 = RELEASED) by (by apply get_state_released).
    rewrite bool_decide_eq_true_2 in Heq by done.
    assert (Hsp : get_chunk_space c0 = chunk_size * getsizeof data_type).
    { unfold get_chunk_space. by rewrite Hcap, Hdt. }
    rewrite Hsp in Heq. split; [done|].
    intros s2 Hrun. rewrite Heq in Hrun. unfold bind in Hrun.
    destruct (prepare_device _ _ _) as [sb [e|[]]]; [done|].
    unfold update_chunk in Hrun.
    destruct (id_to_chunk_map (self sb) !! chunk_id) as [cb|]; [|done].
    simpl in Hrun. inversion Hrun; subst. simpl.
    rewrite lookup_insert_eq. eauto.
Qed.

End selection.

(** *** The statements at work on the concrete directory *)

Import CoreScenario.

Lemma chunk_to_move_out_for_room_making_spec_witness :
  let s := state_crowded in
  let chunks := id_to_chunk_map (self s) in
  _chunk_to_move_out_for_room_making 25 gpu0 s = (s, inr [3; 1])
  ∧ ∃ order,
      victim_order (mgr s) chunks gpu0 order
      ∧ match _chunk_to_move_out_for_room_making 25 gpu0 s with
        | (s', inl e) => s' = s ∧ e = RuntimeError ∧ payload_bytes chunks order < 25
        | (s', inr moved_list) =>
            s' = s
            ∧ 25 ≤ payload_bytes chunks order
            ∧ moved_list `prefix_of` order
            ∧ (moved_list = [] → order = [])
            ∧ stops_at_first_reach chunks 25 moved_list
        end.
Proof.
  intros s chunks. split; [by vm_compute|].
  apply (chunk_to_move_out_for_room_making_spec state_crowded 25 gpu0).
  apply (bool_decide_unpack
           (map_Forall (λ _ c, 0 ≤ capacity c) (id_to_chunk_map (self state_crowded)))).
  by vm_compute.
Defined.

Lemma eviction_excludes_in_use_witness :
  (∃ c, id_to_chunk_map (self state_crowded) !! 3 = Some c
        ∧ get_state c ≠ COMPUTE ∧ is_pin c = false)
  ∧ id_to_chunk_map (self (prepare_device gpu0 40 state_crowded).1) !! 4
    = Some (resident 4 10 [T_COMPUTE] false [20])
  ∧ id_to_chunk_map (self (prepare_device gpu0 40 state_crowded).1) !! 5
    = Some (resident 5 10 [T_HOLD] true [30])
  ∧ payload_device <$> id_to_chunk_map (self (prepare_device gpu0 40 state_crowded).1) !! 3
    = Some (Some host).
Proof.
  destruct (eviction_excludes_in_use state_crowded gpu0) as [H1 H2].
  split_and!.
  - apply (H1 25 state_crowded [3; 1] 3); [by vm_compute|]. apply list_elem_of_here.
  - apply H2; [by vm_compute|]. left. by vm_compute.
  - apply H2; [by vm_compute|]. right. by vm_compute.
  - by vm_compute.
Defined.

Lemma prepare_device_guards_witness :
  prepare_device gpu0 130 state_crowded = (state_crowded, inl RuntimeError)
  ∧ prepare_device gpu0 40 state_one_resident = (state_one_resident, inr tt).
Proof.
  split.
  - apply (prepare_device_guards state_crowded gpu0 130). by vm_compute.
  - apply (prepare_device_guards state_one_resident gpu0 40); by vm_compute.
Defined.

Lemma access_chunk_idempotent_witness :
  let s1 := (access_chunk 2 gpu0 state_one_resident).1 in
  (∃ c d, id_to_chunk_map (self s1) !! 2 = Some c
          ∧ get_device c = Some d ∧ dev_type d = dev_type gpu0)
  ∧ ∃ s2,
      access_chunk 2 gpu0 s1 = (s2, inr tt)
      ∧ mgr s2 = mgr s1
      ∧ (∀ id, payload_device <$> id_to_chunk_map (self s2) !! id
               = payload_device <$> id_to_chunk_map (self s1) !! id)
      ∧ s2 = (if is_warmup_training (mgr s1) then record_access 2 gpu0 s1 else s1).
Proof.
  intros s1. apply (access_chunk_idempotent 2 gpu0 state_one_resident s1).
  by vm_compute.
Defined.

Lemma new_chunk_is_lazy_witness :
  let s1 := (new_chunk 1 1 30 half false PARAM_FP16 state0).1 in
  ∃ c, id_to_chunk_map (self s1) !! 1 = Some c
       ∧ get_device c = None
       ∧ get_state c = RELEASED
       ∧ mgr s1 = mgr state0
       ∧ ∃ c2, id_to_chunk_map (self (access_chunk 1 gpu0 s1).1) !! 1 = Some c2
               ∧ get_device c2 = Some gpu0.
Proof.
  intros s1.
  destruct (new_chunk_is_lazy 1 1 30 half false PARAM_FP16 state0) as [_ H].
  destruct (H s1 {| ci_chunk_type := PARAM_FP16; group_id := 0; offset := 0 |})
    as (c&Hc&Hd&Hs&Hm&_&Hacc).
  { by vm_compute. }
  exists c. split_and!; [done|done|done|done|].
  destruct (Hacc gpu0) as [_ Hmat].
  apply (Hmat (access_chunk 1 gpu0 s1).1). by vm_compute.
Defined.

End CoreFacts.

(** ** Properties of a chunk *)

Module ClientFacts.
Import Py Torch Client ClientSpec.

Lemma insert_by_start_perm x l : insert_by_start x l ≡ₚ x :: l.
Proof.
  induction l as [|y l IH]; simpl; [done|].
  destruct (start x <=? start y); [done|].
  rewrite IH. apply Permutation_swap.
Qed.

Lemma sort_by_start_perm l : sort_by_start l ≡ₚ l.
Proof.
  induction l as [|x l IH]; simpl; [done|].
  by rewrite insert_by_start_perm, IH.
Qed.

Section chunk_facts.
Context {Mgr : Type} `{!PSManagerOps Mgr}.

Implicit Types (s : State Mgr) (ps : gmap nat Param) (info : TensorInfo).

Lemma elem_of_sorted_order s info :
  info ∈ generate_in_sorted_order (self s) ↔ info ∈ items s.
Proof. unfold generate_in_sorted_order, items. by rewrite sort_by_start_perm. Qed.

(** *** Construction *)

(** The constructor of this file allocates: when it returns, the payload
    is a new storage of [capacity] zeros on the scheduled device, the
    manager has been charged for it, and [get_status] of the new chunk is
    [FREE]. (The directory of [chunk_list.py] builds its chunks with another
    constructor, which takes [local_rank] and [is_dummy].) *)
Lemma Chunk_init_allocates capacity data_type chunk_id current_device device_count now
    (h h' : list Storage) (m m' : Mgr) (ps : gmap nat Param) (c : Chunk) :
  Chunk_init capacity data_type chunk_id current_device device_count now (h, m)
  = ((h', m'), inr c) →
  h' = h ++ [{| st_device := device c; st_dtype := data_type;
                st_data := replicate (Z.to_nat capacity) 0 |}]
  ∧ t_base (payload c) = length h
  ∧ device c = ps_schedule m (capacity * getsizeof data_type) current_device
  ∧ m' = ps_add (dev_type (device c)) (dev_index (device c))
           (capacity * getsizeof data_type) m
  ∧ get_status {| heap := h'; params := ps; ps_manager := m'; self := c |}
    = PSChunkStatus.FREE.
Proof.
  unfold Chunk_init. destruct (ps_is_init m); [|done]. simpl.
  set (d := ps_schedule m (capacity * getsizeof data_type) current_device).
  assert (Hnormal :
    (if capacity <? 0 then ((h, m), inl RuntimeError)
     else
       ((h ++ [{| st_device := d; st_dtype := data_type;
                  st_data := replicate (Z.to_nat capacity) 0 |}],
         ps_add (dev_type d) (dev_index d) (capacity * getsizeof data_type) m),
        inr {| chunk_id := chunk_id; capacity := capacity; data_type := data_type;
               cuda_idx := current_device; device := d;
               payload := {| t_base := length h; t_offset := 0; t_numel := capacity;
                             t_shape := [Z.to_N capacity] |};
               tensor_id_to_info_dict := []; timestamp := now |}))
    = ((h', m'), inr c) →
    h' = h ++ [{| st_device := device c; st_dtype := data_type;
                  st_data := replicate (Z.to_nat capacity) 0 |}]
    ∧ t_base (payload c) = length h
    ∧ device c = d
    ∧ m' = ps_add (dev_type (device c)) (dev_index (device c))
             (capacity * getsizeof data_type) m
    ∧ get_status {| heap := h'; params := ps; ps_manager := m'; self := c |}
      = PSChunkStatus.FREE).
  { destruct (capacity <? 0); [done|]. intros [= <- <- <-]. done. }
  destruct (dev_type d), (dev_index d) as [index|]; try done.
  destruct (device_count <? index); [|done].
  by destruct (capacity <? 0).
Qed.

(** *** Status aggregation *)

Lemma status_scan_spec ps l free_flag :
  (status_scan ps l free_flag = PSChunkStatus.COMPUTE
   ↔ ∃ info, info ∈ l ∧ info_status ps info = PSTensorStatus.COMPUTE)
  ∧ (status_scan ps l free_flag = PSChunkStatus.HOLD
     ↔ (¬ ∃ info, info ∈ l ∧ info_status ps info = PSTensorStatus.COMPUTE)
       ∧ (free_flag = false
          ∨ ∃ info, info ∈ l ∧ info_status ps info ≠ PSTensorStatus.FREE))
  ∧ (status_scan ps l free_flag = PSChunkStatus.FREE
     ↔ free_flag = true
       ∧ ∀ info, info ∈ l → info_status ps info = PSTensorStatus.FREE)
  ∧ status_scan ps l free_flag ≠ PSChunkStatus.RELEASED.
Proof.
  revert free_flag. induction l as [|a l IH]; intros free_flag; simpl.
  - destruct free_flag; split_and!; try done;
      (split; [try done|]); try (intros; set_solver).
  - case_bool_decide as Hc.
    + split_and!; try done; split; try done.
      * intros _. exists a. split; [left|done].
      * intros [Hno _]. destruct Hno. exists a. split; [left|done].
      * intros [_ Hall]. specialize (Hall a (list_elem_of_here _ _)). congruence.
    + case_bool_decide as Hf.
      * destruct (IH false) as (IH1&IH2&IH3&IH4).
        split_and!; [| | |done].
        -- rewrite IH1. split.
           ++ intros (i&Hin&?). exists i. split; [by right|done].
           ++ intros (i&Hin&?). apply elem_of_cons in Hin as [->|Hin]; [done|]. eauto.
        -- rewrite IH2. split.
           ++ intros [Hno _]. split.
              ** intros (i&Hin&?). apply elem_of_cons in Hin as [->|Hin]; [done|].
                 apply Hno. eauto.
              ** right. exists a. split; [left|done].
           ++ intros [Hno _]. split; [|by left].
              intros (i&Hin&?). apply Hno. exists i. split; [by right|done].
        -- rewrite IH3. split; [intros [? _]; done|].
           intros [_ Hall]. specialize (Hall a (list_elem_of_here _ _)). done.
      * assert (Hfree : info_status ps a = PSTensorStatus.FREE).
        { destruct (decide (info_status ps a = PSTensorStatus.FREE)); [done|].
          by destruct Hf. }
        destruct (IH free_flag) as (IH1&IH2&IH3&IH4).
        split_and!; [| | |done].
        -- rewrite IH1. split.
           ++ intros (i&Hin&?). exists i. split; [by right|done].
           ++ intros (i&Hin&?). apply elem_of_cons in Hin as [->|Hin]; [done|]. eauto.
        -- rewrite IH2. split.
           ++ intros [Hno Hor]. split.
              ** intros (i&Hin&?). apply elem_of_cons in Hin as [->|Hin]; [done|].
                 apply Hno. eauto.
              ** destruct Hor as [?|(i&Hin&?)]; [by left|right].
                 exists i. split; [by right|done].
           ++ intros [Hno Hor]. split.
              ** intros (i&Hin&?). apply Hno. exists i. split; [by right|done].
              ** destruct Hor as [?|(i&Hin&?)]; [by left|right].
                 apply elem_of_cons in Hin as [->|Hin]; [done|]. eauto.
        -- rewrite IH3. split.
           ++ intros [? Hall]. split; [done|]. intros i Hin.
              apply elem_of_cons in Hin as [->|Hin]; [done|]. by apply Hall.
           ++ intros [? Hall]. split; [done|]. intros i Hin. apply Hall. by right.
Qed.

(** C5. [get_status] is [COMPUTE] exactly when some contained item is in
    status [COMPUTE]; otherwise it is [HOLD] exactly when some item has a
    status other than [FREE]; otherwise it is [FREE]; a chunk with no items
    is [FREE]. It is never [RELEASED]. *)
Theorem get_status_aggregates (s : State Mgr) :
  (get_status s = PSChunkStatus.COMPUTE
   ↔ ∃ info, info ∈ items s ∧ info_status (params s) info = PSTensorStatus.COMPUTE)
  ∧ (get_status s = PSChunkStatus.HOLD
     ↔ (¬ ∃ info, info ∈ items s ∧ info_status (params s) info = PSTensorStatus.COMPUTE)
       ∧ ∃ info, info ∈ items s ∧ info_status (params s) info ≠ PSTensorStatus.FREE)
  ∧ (get_status s = PSChunkStatus.FREE
     ↔ ∀ info, info ∈ items s → info_status (params s) info = PSTensorStatus.FREE)
  ∧ (items s = [] → get_status s = PSChunkStatus.FREE)
  ∧ get_status s ≠ PSChunkStatus.RELEASED.
Proof.
  unfold get_status, get_len.
  destruct (status_scan_spec (params s) (generate_in_sorted_order (self s)) true)
    as (H1&H2&H3&H4).
  case_bool_decide as Hlen.
  - assert (Hnil : items s = []).
    { unfold items. apply length_zero_iff_nil in Hlen. by rewrite Hlen. }
    rewrite Hnil. split_and!; try done; split; try done.
    + intros (?&Hin&_). by apply elem_of_nil in Hin.
    + intros [_ (?&Hin&_)]. by apply elem_of_nil in Hin.
    + intros _ ? Hin. by apply elem_of_nil in Hin.
  - split_and!; [| | | |done].
    + rewrite H1. by setoid_rewrite elem_of_sorted_order.
    + rewrite H2. setoid_rewrite elem_of_sorted_order. split.
      * intros [? [?|?]]; done.
      * intros [? ?]. split; [done|by right].
    + rewrite H3. setoid_rewrite elem_of_sorted_order. split.
      * intros [_ ?]. done.
      * done.
    + intros Hnil. destruct Hlen. unfold items in Hnil.
      apply fmap_nil_inv in Hnil. by rewrite Hnil.
Qed.

(** *** First-fit allocation *)

Lemma insert_by_start_sorted x l :
  StronglySorted (λ a b, start a ≤ start b) l →
  StronglySorted (λ a b, start a ≤ start b) (insert_by_start x l).
Proof.
  induction l as [|y l IH]; simpl; intros Hs.
  - repeat constructor.
  - apply StronglySorted_inv in Hs as [Hs Hy].
    destruct (start x <=? start y) eqn:E.
    + apply Z.leb_le in E. constructor; [by constructor|].
      constructor; [done|]. eapply Forall_impl; [exact Hy|]. simpl. lia.
    + apply Z.leb_gt in E. constructor; [by apply IH|].
      rewrite insert_by_start_perm. constructor; [lia|done].
Qed.

(** The scan really runs in ascending start order. *)
Lemma sort_by_start_sorted l :
  StronglySorted (λ a b, start a ≤ start b) (sort_by_start l).
Proof.
  induction l as [|x l IH]; simpl; [constructor|]. by apply insert_by_start_sorted.
Qed.

Lemma zero_range_length offset length0 (l : list Z) :
  0 ≤ offset → 0 ≤ length0 → offset + length0 ≤ Z.of_nat (length l) →
  length (zero_range offset length0 l) = length l.
Proof.
  intros. unfold zero_range.
  rewrite !length_app, length_take, length_replicate, length_drop. lia.
Qed.

(** [zero_range] writes zeros in the range and leaves the rest alone. *)
Lemma zero_range_lookup offset length0 (l : list Z) (i : nat) :
  0 ≤ offset → 0 ≤ length0 → offset + length0 ≤ Z.of_nat (length l) →
  zero_range offset length0 l !! i
  = if bool_decide (offset ≤ Z.of_nat i < offset + length0) then Some 0 else l !! i.
Proof.
  intros Ho Hl Hle. unfold zero_range. case_bool_decide as Hin.
  - rewrite lookup_app_r by (rewrite length_take; lia).
    rewrite length_take, lookup_app_l by (rewrite length_replicate; lia).
    apply lookup_replicate_2. lia.
  - destruct (decide (Z.of_nat i < offset)).
    + rewrite lookup_app_l by (rewrite length_take; lia).
      apply lookup_take_lt. lia.
    + rewrite lookup_app_r by (rewrite length_take; lia).
      rewrite lookup_app_r by (rewrite length_take, length_replicate; lia).
      rewrite length_take, length_replicate, lookup_drop. f_equal. lia.
Qed.

Lemma numel_nonneg sh : 0 ≤ numel sh.
Proof. unfold numel. lia. Qed.

Lemma ranges_cons_resident ps info l :
  resident ps info →
  ranges ps (info :: l) = (start info, info_numel ps info) :: ranges ps l.
Proof. intros H. unfold ranges. by rewrite filter_cons_True. Qed.

Lemma ranges_cons_free ps info l :
  ¬ resident ps info → ranges ps (info :: l) = ranges ps l.
Proof. intros H. unfold ranges. by rewrite filter_cons_False. Qed.

(** The loop of [try_allocate] followed by its tail test finds the first
    gap that fits. *)
Lemma scan_gaps_first_fit ps n cap prev_end l :
  first_fit n (gaps prev_end cap (ranges ps l))
  = match scan_gaps ps n prev_end l with
    | (pe, true) => Some pe
    | (pe, false) => if n <=? cap - pe then Some pe else None
    end.
Proof.
  revert prev_end. induction l as [|info l IH]; intros prev_end; simpl.
  - done.
  - case_bool_decide as Hfree.
    + rewrite ranges_cons_free; [apply IH|]. unfold resident. by intros ?.
    + rewrite ranges_cons_resident by done. simpl.
      destruct (n <=? start info - prev_end); [done|]. apply IH.
Qed.

Lemma first_fit_in_range n cap prev_end occ off :
  0 ≤ prev_end → 0 ≤ n →
  Forall (λ r, 0 ≤ r.1 ∧ 0 ≤ r.2 ∧ r.1 + r.2 ≤ cap) occ →
  first_fit n (gaps prev_end cap occ) = Some off →
  0 ≤ off ∧ off + n ≤ cap.
Proof.
  intros Hp Hn Hocc. revert prev_end Hp.
  induction Hocc as [|[st m] occ (H1&H2&H3) Hocc IH]; intros prev_end Hp; simpl.
  - destruct (n <=? cap - prev_end) eqn:E; [|done].
    apply Z.leb_le in E. intros [= <-]. lia.
  - simpl in *. destruct (n <=? st - prev_end) eqn:E.
    + apply Z.leb_le in E. intros [= <-]. lia.
    + apply IH. lia.
Qed.

Lemma occupied_in_range s :
  well_formed s →
  Forall (λ r, 0 ≤ r.1 ∧ 0 ≤ r.2 ∧ r.1 + r.2 ≤ capacity (self s)) (occupied s).
Proof.
  intros [_ Hwf]. unfold occupied, ranges.
  apply Forall_fmap, Forall_forall. intros info Hin.
  apply list_elem_of_filter in Hin as [Hres Hin].
  apply elem_of_sorted_order in Hin. simpl.
  destruct (Hwf info Hin Hres). split_and!; [done| |done].
  apply numel_nonneg.
Qed.

Lemma wrap_nonneg n start : 0 ≤ start → wrap n start = start.
Proof. intros H. unfold wrap. by rewrite bool_decide_eq_false_2 by lia. Qed.

Lemma narrow_in_range (t : Tensor) start length (s : State Mgr) :
  0 ≤ start → 0 ≤ length → start + length ≤ t_numel t →
  narrow t start length s
  = (s, inr {| t_base := t_base t; t_offset := t_offset t + start;
               t_numel := length; t_shape := [Z.to_N length] |}).
Proof.
  intros Hs Hl Hle. unfold narrow, ret.
  rewrite (bool_decide_eq_false_2 (length < 0)) by lia.
  rewrite (bool_decide_eq_true_2 (- t_numel t ≤ start ≤ t_numel t)) by lia.
  rewrite wrap_nonneg by done.
  by rewrite bool_decide_eq_true_2 by lia.
Qed.

Lemma narrow_returns (t : Tensor) start length (s s' : State Mgr) t' :
  narrow t start length s = (s', inr t') →
  s' = s ∧ 0 ≤ length ∧ - t_numel t ≤ start ≤ t_numel t
  ∧ wrap (t_numel t) start + length ≤ t_numel t
  ∧ t' = {| t_base := t_base t; t_offset := t_offset t + wrap (t_numel t) start;
            t_numel := length; t_shape := [Z.to_N length] |}.
Proof.
  unfold narrow, ret, raise.
  case_bool_decide as Hlen; [done|].
  case_bool_decide as Hrange; [|done].
  case_bool_decide as Hend; [|done].
  intros [= <- <-]. split_and!; [done|lia|lia|lia|lia|done].
Qed.

Lemma narrow_raises (t : Tensor) start length (s s' : State Mgr) e :
  narrow t start length s = (s', inl e) →
  s' = s
  ∧ ((e = RuntimeError
      ∧ (length < 0
         ∨ (- t_numel t ≤ start ≤ t_numel t
            ∧ t_numel t < wrap (t_numel t) start + length)))
     ∨ (e = IndexError ∧ 0 ≤ length ∧ ¬ (- t_numel t ≤ start ≤ t_numel t))).
Proof.
  unfold narrow, ret, raise.
  case_bool_decide as Hlen; [intros [= <- <-]; split; [done|left; split; [done|by left]]|].
  case_bool_decide as Hrange.
  - case_bool_decide as Hend; [done|]. intros [= <- <-]. split; [done|].
    left. split; [done|]. right. split; [done|lia].
  - intros [= <- <-]. split; [done|]. right. split_and!; [done|lia|done].
Qed.

Lemma allocate_in_range s offset n p a now :
  0 ≤ offset → 0 ≤ n → offset + n ≤ t_numel (payload (self s)) →
  allocate offset n p a now s = (allocated offset n p a now s, inr (slice offset n s)).
Proof.
  intros Ho Hn Hle.
  unfold allocate. unfold bind at 1. unfold get at 1. unfold bind at 1.
  rewrite narrow_in_range by done.
  unfold bind, zero_, add, touch, modify, ret.
  unfold allocated, slice. cbn [t_base t_offset t_numel].
  by destruct (heap s !! t_base (payload (self s))).
Qed.

(** The outcome of [try_allocate] on a well-formed chunk. *)
Lemma try_allocate_run (s : State Mgr) (p : nat) (a : AccessType) (now : Z) :
  well_formed s →
  let n := numel (ps_shape (params s !!! p)) in
  match first_fit n (gaps 0 (capacity (self s)) (occupied s)) with
  | Some off =>
      try_allocate p a now s = (allocated off n p a now s, inr (Some (slice off n s)))
      ∧ 0 ≤ off ∧ off + n ≤ capacity (self s)
  | None => try_allocate p a now s = (s, inr None)
  end.
Proof.
  intros Hwf n.
  pose proof (occupied_in_range s Hwf) as Hocc.
  pose proof (numel_nonneg (ps_shape (params s !!! p))) as Hn. fold n in Hn.
  pose proof (scan_gaps_first_fit (params s) n (capacity (self s)) 0
                (generate_in_sorted_order (self s))) as Hscan.
  fold (occupied s) in Hscan.
  destruct (first_fit n (gaps 0 (capacity (self s)) (occupied s))) as [off|] eqn:Hfit.
  - destruct (first_fit_in_range n _ 0 _ off ltac:(done) Hn Hocc Hfit) as [Hoff Hend].
    split_and!; [|done|done].
    unfold try_allocate. unfold bind at 1. unfold get at 1. fold n.
    destruct Hwf as [Hpay _].
    destruct (scan_gaps _ n 0 _) as [pe [|]].
    + inversion Hscan; subst. unfold bind.
      rewrite allocate_in_range by (rewrite ?Hpay; lia). done.
    + destruct (n <=? capacity (self s) - pe); [|done].
      inversion Hscan; subst. unfold bind.
      rewrite allocate_in_range by (rewrite ?Hpay; lia). done.
  - unfold try_allocate. unfold bind at 1. unfold get at 1. fold n.
    destruct (scan_gaps _ n 0 _) as [pe [|]]; [done|].
    by destruct (n <=? capacity (self s) - pe).
Qed.

(** C6. [try_allocate] scans the items in ascending start order, skips
    the [FREE] ones and takes the first gap (in front of a resident item,
    or the tail gap up to the capacity) whose size is at least the requested
    element count: it allocates at the start of that gap, zeroes the range
    and records the item. It returns [None] and leaves the state unchanged
    exactly when no gap fits. *)
Theorem try_allocate_first_fit (s : State Mgr) (p : nat) (a : AccessType) (now : Z) :
  well_formed s →
  let n := numel (ps_shape (params s !!! p)) in
  StronglySorted (λ i j, start i ≤ start j) (generate_in_sorted_order (self s))
  ∧ match first_fit n (gaps 0 (capacity (self s)) (occupied s)) with
    | Some off =>
        try_allocate p a now s = (allocated off n p a now s, inr (Some (slice off n s)))
        ∧ 0 ≤ off ∧ off + n ≤ capacity (self s)
        ∧ tensor_id_to_info_dict (self (allocated off n p a now s))
          = dict_set (info_tensor_id (params s) {| start := off; param := p; access_type := a |})
              {| start := off; param := p; access_type := a |}
              (tensor_id_to_info_dict (self s))
        ∧ ∀ st, heap s !! t_base (payload (self s)) = Some st →
                heap (allocated off n p a now s) !! t_base (payload (self s))
                = Some {| st_device := st_device st; st_dtype := st_dtype st;
                          st_data := zero_range (t_offset (payload (self s)) + off) n
                                       (st_data st) |}
    | None => try_allocate p a now s = (s, inr None)
    end.
Proof.
  intros Hwf n. split; [apply sort_by_start_sorted|].
  pose proof (try_allocate_run s p a now Hwf) as Hrun. cbv zeta in Hrun. fold n in Hrun.
  destruct (first_fit n (gaps 0 (capacity (self s)) (occupied s))) as [off|]; [|done].
  destruct Hrun as (Hrun&Hoff&Hend). split_and!; [done|done|done|done|].
  intros st Hst. unfold allocated. cbn [heap]. rewrite Hst.
  apply list_lookup_insert_eq. by eapply lookup_lt_Some.
Qed.

(** *** Non-overlap *)

Lemma overlap_sym a b : overlap a b → overlap b a.
Proof. unfold overlap. lia. Qed.

Lemma pairwise_disjoint_perm l1 l2 :
  l1 ≡ₚ l2 → pairwise_disjoint l1 → pairwise_disjoint l2.
Proof.
  induction 1 as [|x l1 l2 Hp IH|x y l|l1 l2 l3 _ IH1 _ IH2]; simpl.
  - done.
  - intros [Hx Hl]. split; [by rewrite <- Hp|by apply IH].
  - intros (Hy&Hx&Hl). apply Forall_cons in Hy as [Hyx Hy].
    split_and!; [|done|done]. constructor; [|done].
    intros Hov. by apply Hyx, overlap_sym.
  - intros. by apply IH2, IH1.
Qed.

Lemma ranges_perm ps l1 l2 : l1 ≡ₚ l2 → ranges ps l1 ≡ₚ ranges ps l2.
Proof. intros Hp. unfold ranges. by rewrite Hp. Qed.

Lemma ranges_sorted ps l :
  StronglySorted (λ i j, start i ≤ start j) l →
  StronglySorted (λ a b : Z * Z, a.1 ≤ b.1) (ranges ps l).
Proof.
  induction 1 as [|info l Hs IH Hall]; [constructor|].
  destruct (decide (resident ps info)) as [Hr|Hr].
  - rewrite ranges_cons_resident by done. constructor; [done|].
    unfold ranges. apply Forall_fmap, Forall_forall. intros j Hj.
    apply list_elem_of_filter in Hj as [_ Hj].
    eapply Forall_forall in Hall; [|exact Hj]. done.
  - by rewrite ranges_cons_free.
Qed.

(** In a sorted list of disjoint ranges that all hold something, the
    first gap that fits is clear of every range. *)
Lemma first_fit_clear n cap prev_end occ off :
  0 ≤ n →
  StronglySorted (λ a b : Z * Z, a.1 ≤ b.1) occ →
  pairwise_disjoint occ →
  Forall (λ r, 0 < r.2) occ →
  Forall (λ r, prev_end ≤ r.1) occ →
  first_fit n (gaps prev_end cap occ) = Some off →
  prev_end ≤ off ∧ Forall (λ r, ¬ overlap (off, n) r) occ.
Proof.
  intros Hn Hs. revert prev_end.
  induction Hs as [|[st m] occ Hs IH Hall]; intros prev_end Hdis Hpos Hprev; simpl.
  - destruct (n <=? cap - prev_end); [|done]. intros [= <-]. split; [lia|constructor].
  - destruct Hdis as [Hst Hdis].
    apply Forall_cons in Hpos as [Hm Hpos]. apply Forall_cons in Hprev as [Hp Hprev].
    simpl in *.
    destruct (n <=? st - prev_end) eqn:E.
    + apply Z.leb_le in E. intros [= <-]. split; [lia|].
      constructor.
      * unfold overlap. simpl. lia.
      * apply Forall_forall. intros r Hr.
        eapply Forall_forall in Hall; [|exact Hr]. unfold overlap. simpl in *. lia.
    + intros Hfit.
      assert (Hnext : Forall (λ r : Z * Z, st + m ≤ r.1) occ).
      { apply Forall_forall. intros r Hr.
        eapply Forall_forall in Hall; [|exact Hr].
        eapply Forall_forall in Hst; [|exact Hr].
        eapply Forall_forall in Hpos; [|exact Hr].
        unfold overlap in Hst. simpl in *. lia. }
      destruct (IH (st + m) Hdis Hpos Hnext Hfit) as [Hoff Hclear].
      split; [lia|]. constructor; [|done]. unfold overlap. simpl. lia.
Qed.

Lemma ranges_dict_set_clear ps (y : Z * Z) k item d :
  (resident ps item → ¬ overlap y (start item, info_numel ps item)) →
  Forall (λ r, ¬ overlap y r) (ranges ps d.*2) →
  Forall (λ r, ¬ overlap y r) (ranges ps (dict_set k item d).*2).
Proof.
  intros Hitem. induction d as [|[k' info] d IH]; simpl; intros Hall.
  - destruct (decide (resident ps item)) as [Hr|Hr].
    + rewrite ranges_cons_resident by done. constructor; [by apply Hitem|done].
    + by rewrite ranges_cons_free.
  - assert (Hrest : Forall (λ r, ¬ overlap y r) (ranges ps d.*2)).
    { destruct (decide (resident ps info)) as [Hr|Hr].
      - rewrite ranges_cons_resident in Hall by done. by apply Forall_cons in Hall as [_ ?].
      - by rewrite ranges_cons_free in Hall. }
    case_bool_decide; simpl.
    + destruct (decide (resident ps item)) as [Hr|Hr].
      * rewrite ranges_cons_resident by done. constructor; [by apply Hitem|done].
      * by rewrite ranges_cons_free.
    + destruct (decide (resident ps info)) as [Hr|Hr].
      * rewrite ranges_cons_resident in Hall |- * by done.
        apply Forall_cons in Hall as [? _]. constructor; [done|by apply IH].
      * rewrite ranges_cons_free by done. by apply IH.
Qed.

(** Filing an item that is clear of the resident ones keeps them disjoint. *)
Lemma ranges_dict_set_disjoint ps k item d :
  Forall (λ r, ¬ overlap (start item, info_numel ps item) r) (ranges ps d.*2) →
  pairwise_disjoint (ranges ps d.*2) →
  pairwise_disjoint (ranges ps (dict_set k item d).*2).
Proof.
  induction d as [|[k' info] d IH]; simpl; intros Hclear Hdis.
  - destruct (decide (resident ps item)) as [Hr|Hr].
    + rewrite ranges_cons_resident by done. simpl. split; [constructor|done].
    + by rewrite ranges_cons_free.
  - case_bool_decide; simpl.
    + destruct (decide (resident ps info)) as [Hr|Hr].
      * rewrite ranges_cons_resident in Hdis, Hclear by done.
        destruct Hdis as [_ Hdis]. apply Forall_cons in Hclear as [_ Hclear].
        destruct (decide (resident ps item)) as [Hr'|Hr'].
        -- rewrite ranges_cons_resident by done. simpl. done.
        -- by rewrite ranges_cons_free.
      * rewrite ranges_cons_free in Hdis, Hclear by done.
        destruct (decide (resident ps item)) as [Hr'|Hr'].
        -- rewrite ranges_cons_resident by done. simpl. done.
        -- by rewrite ranges_cons_free.
    + destruct (decide (resident ps info)) as [Hr|Hr].
      * rewrite ranges_cons_resident in Hdis, Hclear |- * by done.
        destruct Hdis as [Hinfo Hdis]. apply Forall_cons in Hclear as [Hci Hclear].
        simpl. split; [|by apply IH].
        apply ranges_dict_set_clear; [|done].
        intros _ Hov. by apply Hci, overlap_sym.
      * rewrite ranges_cons_free in Hdis, Hclear |- * by done. by apply IH.
Qed.

(** As long as every resident item holds at least one element,
    [try_allocate] keeps the resident items disjoint, whatever it returns. *)
Lemma try_allocate_keeps_non_overlapping (s : State Mgr) (p : nat) (a : AccessType)
    (now : Z) :
  well_formed s →
  Forall (λ r, 0 < r.2) (ranges (params s) (items s)) →
  non_overlapping s →
  non_overlapping (try_allocate p a now s).1.
Proof.
  intros Hwf Hpos Hdis.
  pose proof (try_allocate_run s p a now Hwf) as Hrun. cbv zeta in Hrun.
  pose proof (sort_by_start_sorted (tensor_id_to_info_dict (self s)).*2) as Hsorted.
  fold (generate_in_sorted_order (self s)) in Hsorted.
  set (n := numel (ps_shape (params s !!! p))) in *.
  assert (Hperm : occupied s ≡ₚ ranges (params s) (items s)).
  { unfold occupied, generate_in_sorted_order, items.
    apply ranges_perm, sort_by_start_perm. }
  destruct (first_fit n (gaps 0 (capacity (self s)) (occupied s))) as [off|] eqn:Hfit.
  - destruct Hrun as (->&_). cbn [fst].
    destruct (first_fit_clear n (capacity (self s)) 0 (occupied s) off) as [_ Hclear].
    + apply numel_nonneg.
    + by apply ranges_sorted.
    + eapply pairwise_disjoint_perm; [symmetry; exact Hperm|exact Hdis].
    + by rewrite Hperm.
    + eapply Forall_impl; [apply (occupied_in_range s Hwf)|]. simpl. tauto.
    + done.
    + rewrite Hperm in Hclear. unfold non_overlapping, items, allocated.
      cbn [params self set_timestamp set_dict tensor_id_to_info_dict].
      apply ranges_dict_set_disjoint; [|exact Hdis].
      unfold info_numel. cbn [start param]. exact Hclear.
  - by rewrite Hrun.
Qed.

(** *** Moving a chunk *)

Lemma info_same_statics ps ps' info :
  same_statics ps ps' →
  info_numel ps' info = info_numel ps info
  ∧ info_tensor_id ps' info = info_tensor_id ps info
  ∧ info_status ps' info = info_status ps info
  ∧ ps_shape (ps' !!! param info) = ps_shape (ps !!! param info).
Proof.
  intros Hst. specialize (Hst (param info)). unfold statics in Hst.
  unfold info_numel, info_tensor_id, info_status.
  inversion Hst as [[H1 H2 H3 H4 H5 H6]]. rewrite H1, H3, H4, H5, H6.
  by destruct (access_type info).
Qed.

Lemma same_statics_refl ps : same_statics ps ps.
Proof. by intros r. Qed.

Lemma same_statics_trans ps1 ps2 ps3 :
  same_statics ps1 ps2 → same_statics ps2 ps3 → same_statics ps1 ps3.
Proof. intros H1 H2 r. by rewrite H2, H1. Qed.

(** One turn of the loop of [move] that does not raise: the heap, the
    chunk and the manager stay, the parameters keep their static part, the
    views of the item's slot are repointed when the dictionaries resolve
    the id to the item's owner, and no other slot is written. *)
Lemma move_item_ok dd gd info s0 s1 :
  move_item dd gd info s0 = (s1, inr tt) →
  heap s1 = heap s0 ∧ self s1 = self s0 ∧ ps_manager s1 = ps_manager s0
  ∧ same_statics (params s0) (params s1)
  ∧ (resident (params s0) info →
     ∃ r a,
       ((dd !! info_tensor_id (params s0) info = Some r ∧ a = DATA)
        ∨ (dd !! info_tensor_id (params s0) info = None
           ∧ gd !! info_tensor_id (params s0) info = Some r ∧ a = GRAD))
       ∧ - t_numel (payload (self s0)) ≤ start info ≤ t_numel (payload (self s0))
       ∧ wrap (t_numel (payload (self s0))) (start info) + info_numel (params s0) info
         ≤ t_numel (payload (self s0))
       ∧ numel (ps_shape (params s0 !!! r)) = info_numel (params s0) info
       ∧ views a (params s1 !!! r)
         = repointed a {| t_base := t_base (payload (self s0));
                          t_offset := t_offset (payload (self s0))
                                      + wrap (t_numel (payload (self s0))) (start info);
                          t_numel := info_numel (params s0) info;
                          t_shape := ps_shape (params s0 !!! r) |}
       ∧ ∀ r' a', (r', a') ≠ (r, a) →
           views a' (params s1 !!! r') = views a' (params s0 !!! r'))
  ∧ (¬ resident (params s0) info → s1 = s0).
Proof.
  unfold move_item. unfold bind at 1. unfold get at 1. unfold resident.
  case_bool_decide as Hfree.
  { intros [= <-]. split_and!; done. }
  destruct (dd !! info_tensor_id (params s0) info) as [r|] eqn:Hdd.
  - unfold bind at 1.
    destruct (narrow (payload (self s0)) (start info) (info_numel (params s0) info) s0)
      as [sn [e|t]] eqn:Hnarrow; [done|].
    apply narrow_returns in Hnarrow as (->&Hlen&Hrange&Hend&->).
    unfold bind, view, repoint_data, modify, ret, raise. cbn [t_numel].
    case_bool_decide as Hview; [|done]. intros [= <-].
    cbn [heap self ps_manager params set_params]. split_and!; try done.
    + intros r'. destruct (decide (r' = r)) as [->|Hne].
      * by rewrite lookup_total_insert_eq.
      * by rewrite lookup_total_insert_ne.
    + intros _. exists r, DATA. split_and!; [by left|lia|lia|lia|done| |].
      * by rewrite lookup_total_insert_eq.
      * intros r' a' Hne. destruct (decide (r' = r)) as [->|Hner].
        -- rewrite lookup_total_insert_eq. destruct a'; [done|]. done.
        -- by rewrite lookup_total_insert_ne.
  - destruct (gd !! info_tensor_id (params s0) info) as [r|] eqn:Hgd; [|done].
    unfold bind at 1.
    destruct (narrow (payload (self s0)) (start info) (info_numel (params s0) info) s0)
      as [sn [e|t]] eqn:Hnarrow; [done|].
    apply narrow_returns in Hnarrow as (->&Hlen&Hrange&Hend&->).
    unfold bind, view, repoint_grad, modify, ret, raise. cbn [t_numel].
    case_bool_decide as Hview; [|done]. intros [= <-].
    cbn [heap self ps_manager params set_params]. split_and!; try done.
    + intros r'. destruct (decide (r' = r)) as [->|Hne].
      * by rewrite lookup_total_insert_eq.
      * by rewrite lookup_total_insert_ne.
    + intros _. exists r, GRAD. split_and!; [by right|lia|lia|lia|done| |].
      * by rewrite lookup_total_insert_eq.
      * intros r' a' Hne. destruct (decide (r' = r)) as [->|Hner].
        -- rewrite lookup_total_insert_eq. destruct a'; [done|]. done.
        -- by rewrite lookup_total_insert_ne.
Qed.


(** An item that is resident and that neither dictionary resolves stops
    the loop with an exception. *)
Lemma move_items_unresolved dd gd l : ∀ s0 info,
  info ∈ l → resident (params s0) info →
  dd !! info_tensor_id (params s0) info = None →
  gd !! info_tensor_id (params s0) info = None →
  ∃ s1 e, for_each (move_item dd gd) l s0 = (s1, inl e).
Proof.
  induction l as [|x l IH]; intros s0 info Hin Hr Hdd Hgd.
  - by apply elem_of_nil in Hin.
  - simpl. unfold bind.
    destruct (move_item dd gd x s0) as [sm [e|[]]] eqn:Hstep; [by eauto|].
    apply elem_of_cons in Hin as [->|Hin].
    + exfalso. apply move_item_ok in Hstep as (_&_&_&_&Hres&_).
      destruct (Hres Hr) as (r&a&[[Hto _]|(_&Hto&_)]&_); congruence.
    + apply move_item_ok in Hstep as (_&_&_&Hst&_&_).
      destruct (info_same_statics _ _ info Hst) as (_&Hid&Hstat&_).
      apply (IH sm info Hin).
      * unfold resident. by rewrite Hstat.
      * by rewrite Hid.
      * by rewrite Hid.
Qed.





Lemma move_unfold dd gd target_device current_device now s :
  device (self s) ≠ target_device →
  move dd gd target_device current_device now s
  = match to (payload (self s)) target_device current_device s with
    | (sa, inl e) => (sa, inl e)
    | (sa, inr np) =>
        match for_each (move_item dd gd)
                (generate_in_sorted_order (self (relocated target_device np sa)))
                (relocated target_device np sa) with
        | (sc, inl e) => (sc, inl e)
        | (sc, inr _) =>
            (set_self (set_timestamp now (set_device target_device (self sc))) sc,
             inr tt)
        end
    end.
Proof.
  intros Hne. unfold move. unfold bind at 1. unfold get at 1.
  rewrite bool_decide_eq_false_2 by done.
  unfold bind at 1. destruct (to _ _ _ s) as [sa [e|np]]; [done|].
  unfold bind, modify, get, touch. cbn [fst snd].
  change (set_ps_manager _ _) with (relocated target_device np sa).
  by destruct (for_each _ _ _) as [sc [e|[]]].
Qed.


Lemma to_other_device s target_device current_device st :
  heap s !! t_base (payload (self s)) = Some st →
  reported current_device (st_device st) ≠ reported current_device target_device →
  to (payload (self s)) target_device current_device s
  = (set_heap (heap s ++
                 [{| st_device := reported current_device target_device;
                     st_dtype := st_dtype st;
                     st_data := take (Z.to_nat (t_numel (payload (self s))))
                                  (drop (Z.to_nat (t_offset (payload (self s))))
                                     (st_data st)) |}]) s,
     inr {| t_base := length (heap s); t_offset := 0;
            t_numel := t_numel (payload (self s));
            t_shape := t_shape (payload (self s)) |}).
Proof.
  intros Hst Hne. unfold to. rewrite Hst. by rewrite bool_decide_eq_false_2.
Qed.



(** *** Checking the side conditions on a concrete state *)



Lemma keyed_check s :
  NoDup (tensor_id_to_info_dict (self s)).*1 →
  Forall (λ e, is_Some (params s !! param e.2) ∧ e.1 = info_tensor_id (params s) e.2)
    (tensor_id_to_info_dict (self s)) →
  keyed s.
Proof.
  intros Hnd Hall. split; [done|]. intros k info Hin.
  eapply Forall_forall in Hall; [|exact Hin]. done.
Qed.

Lemma well_formed_check s :
  t_numel (payload (self s)) = capacity (self s) →
  Forall (λ info, 0 ≤ start info
                  ∧ start info + info_numel (params s) info ≤ capacity (self s))
    (items s) →
  well_formed s.
Proof.
  intros Hp Hall. split; [done|]. intros info Hin _.
  eapply Forall_forall in Hall; [|exact Hin]. done.
Qed.

End chunk_facts.

(** *** The statements at work on the concrete chunk *)

Import ClientScenario.


Lemma get_status_aggregates_witness :
  get_status one_tensor = PSChunkStatus.HOLD
  ∧ get_status empty_chunk = PSChunkStatus.FREE.
Proof.
  split.
  - apply (get_status_aggregates one_tensor).
    assert (items one_tensor = [{| start := 0; param := 0%nat; access_type := DATA |}])
      as -> by (by vm_compute).
    split.
    + intros (info&Hin&Hst). apply list_elem_of_singleton in Hin as ->.
      by vm_compute in Hst.
    + eexists. split; [apply list_elem_of_here|]. by vm_compute.
  - apply (get_status_aggregates empty_chunk). by vm_compute.
Defined.

Lemma one_tensor_well_formed : well_formed one_tensor.
Proof.
  apply well_formed_check; [by vm_compute|].
  assert (items one_tensor = [{| start := 0; param := 0%nat; access_type := DATA |}])
    as -> by (by vm_compute).
  repeat constructor; by vm_compute.
Qed.

Lemma try_allocate_first_fit_witness :
  try_allocate 2 DATA 3 one_tensor
  = (allocated 5 3 2 DATA 3 one_tensor, inr (Some (slice 5 3 one_tensor)))
  ∧ st_data <$> heap (allocated 5 3 2 DATA 3 one_tensor) !! 0%nat
    = Some [0; 0; 0; 0; 0; 0; 0; 0; 7; 7].
Proof.
  destruct (try_allocate_first_fit one_tensor 2 DATA 3 one_tensor_well_formed)
    as [_ H].
  assert (first_fit (numel (ps_shape (params one_tensor !!! 2%nat)))
            (gaps 0 (capacity (self one_tensor)) (occupied one_tensor)) = Some 5)
    as Hfit by (by vm_compute).
  rewrite Hfit in H. destruct H as (Hrun&_). split; [exact Hrun|]. by vm_compute.
Defined.


(** C8. Non-overlap of the resident items does not survive
    [try_allocate] when a tensor without elements is among them. From an
    empty chunk of capacity 10, three calls install a 5-element, a
    0-element and a 3-element tensor, all held; each call returns a tensor;
    the items are then at starts 0, 0 and 0, and the first and the third
    share the elements 0, 1 and 2. *)
Theorem try_allocate_overlap_after_empty_tensor :
  (try_allocate 0 DATA 1 empty_chunk).2
  = inr (Some {| t_base := 0; t_offset := 0; t_numel := 5; t_shape := [5%N] |})
  ∧ (try_allocate 1 DATA 2 one_tensor).2
    = inr (Some {| t_base := 0; t_offset := 0; t_numel := 0; t_shape := [0%N] |})
  ∧ (try_allocate 2 DATA 3 two_tensors).2
    = inr (Some {| t_base := 0; t_offset := 0; t_numel := 3; t_shape := [3%N] |})
  ∧ non_overlapping empty_chunk
  ∧ non_overlapping one_tensor
  ∧ non_overlapping two_tensors
  ∧ ranges (params three_tensors) (items three_tensors) = [(0, 5); (0, 0); (0, 3)]
  ∧ overlap (0, 5) (0, 3)
  ∧ ¬ non_overlapping three_tensors.
Proof.
  assert (Hov : overlap (0, 5) (0, 3)) by (unfold overlap; simpl; lia).
  assert (H3 : ranges (params three_tensors) (items three_tensors)
               = [(0, 5); (0, 0); (0, 3)]) by (by vm_compute).
  split_and!.
  - by vm_compute.
  - by vm_compute.
  - by vm_compute.
  - by vm_compute.
  - unfold non_overlapping.
    assert (ranges (params one_tensor) (items one_tensor) = [(0, 5)]) as ->
      by (by vm_compute).
    repeat constructor.
  - unfold non_overlapping.
    assert (ranges (params two_tensors) (items two_tensors) = [(0, 5); (0, 0)]) as ->
      by (by vm_compute).
    repeat constructor. unfold overlap. simpl. lia.
  - done.
  - done.
  - unfold non_overlapping. rewrite H3. simpl. intros [Hall _].
    apply Forall_cons in Hall as [_ Hall]. apply Forall_cons in Hall as [Hno _].
    by apply Hno.
Qed.

End ClientFacts.

(** ** Further properties of the directory *)

Module CoreMoreFacts.
Import Py Torch Core CoreSpec.

Section registry.
Context {Mgr : Type} `{!ManagerOps Mgr}.

Implicit Types (s : State Mgr) (cl : ChunkList).

(** *** Registration *)

(** X1. [new_chunk] with an id that is already registered raises
    [RuntimeError] and leaves the directory and the manager as they were. *)
Theorem new_chunk_duplicate (world_size chunk_id chunk_size : Z) (data_type : dtype)
    (is_dummy : bool) (chunk_type : ChunkType) (s : State Mgr) :
  is_Some (__getitem__ chunk_id (self s)) →
  new_chunk world_size chunk_id chunk_size data_type is_dummy chunk_type s
  = (s, inl RuntimeError).
Proof.
  intros Hreg. unfold new_chunk, bind, get, raise.
  by rewrite bool_decide_eq_true_2.
Qed.

(** X2. The [CommInfo] that [new_chunk] returns, for a positive world
    size: when [k] chunks of the type were registered before, the new one
    gets group [k // world_size] and offset [k % world_size], so that
    [group_id * world_size + offset = k] with [0 <= offset < world_size]. *)
Theorem new_chunk_comm_info (world_size chunk_id chunk_size : Z) (data_type : dtype)
    (is_dummy : bool) (chunk_type : ChunkType) (s s1 : State Mgr) (ci : CommInfo) :
  0 < world_size →
  new_chunk world_size chunk_id chunk_size data_type is_dummy chunk_type s
  = (s1, inr ci) →
  let k := Z.of_nat (length (chunk_ids_generator chunk_type (self s))) in
  ci_chunk_type ci = chunk_type
  ∧ group_id ci = k `div` world_size
  ∧ offset ci = k `mod` world_size
  ∧ group_id ci * world_size + offset ci = k
  ∧ 0 ≤ offset ci < world_size
  ∧ 0 ≤ group_id ci.
Proof.
  intros Hws. unfold new_chunk, bind, get, modify, raise, ret.
  case_bool_decide; [done|]. case_bool_decide; [done|].
  intros [= <- <-]. cbn [self append_id chunk_type_to_id_list_map set_id_to_chunk_map
                         ci_chunk_type group_id offset].
  rewrite bool_decide_eq_true_2 by done. rewrite length_app. simpl.
  unfold chunk_ids_generator.
  set (n := length (chunk_type_to_id_list_map (self s) chunk_type)).
  replace (Z.of_nat (n + 1) - 1) with (Z.of_nat n) by lia.
  split_and!; try done.
  - pose proof (Z.div_mod (Z.of_nat n) world_size). lia.
  - apply Z.mod_pos_bound. lia.
  - apply Z.mod_pos_bound. lia.
  - apply Z.div_pos; lia.
Qed.

(** X3. A successful [new_chunk] files the chunk: [__getitem__] finds it
    with the id, capacity and element type given; every other id answers as
    before; the directory has one chunk more; the id goes to the end of the
    list of its type and the lists of the other types are unchanged. *)
Theorem new_chunk_registers (world_size chunk_id chunk_size : Z) (data_type : dtype)
    (is_dummy : bool) (chunk_type : ChunkType) (s s1 : State Mgr) (ci : CommInfo) :
  new_chunk world_size chunk_id chunk_size data_type is_dummy chunk_type s
  = (s1, inr ci) →
  __getitem__ chunk_id (self s) = None
  ∧ (∃ c, __getitem__ chunk_id (self s1) = Some c
          ∧ Core.chunk_id c = chunk_id ∧ capacity c = chunk_size
          ∧ Core.data_type c = data_type)
  ∧ (∀ id, id ≠ chunk_id → __getitem__ id (self s1) = __getitem__ id (self s))
  ∧ chunk_list_size (self s1) = S (chunk_list_size (self s))
  ∧ chunk_ids_generator chunk_type (self s1)
    = chunk_ids_generator chunk_type (self s) ++ [chunk_id]
  ∧ (∀ ty, ty ≠ chunk_type →
       chunk_ids_generator ty (self s1) = chunk_ids_generator ty (self s)).
Proof.
  unfold new_chunk, bind, get, modify, raise, ret, __getitem__, chunk_list_size,
    chunk_ids_generator.
  case_bool_decide as Hreg; [done|]. case_bool_decide; [done|].
  intros [= <- _]. cbn [self append_id chunk_type_to_id_list_map set_id_to_chunk_map
                        id_to_chunk_map].
  assert (Hnone : id_to_chunk_map (self s) !! chunk_id = None).
  { destruct (id_to_chunk_map (self s) !! chunk_id) eqn:E; [|done].
    destruct Hreg. by eexists. }
  split_and!.
  - done.
  - eexists. rewrite lookup_insert_eq. split; [done|]. done.
  - intros id Hne. by rewrite lookup_insert_ne.
  - by rewrite map_size_insert_None.
  - by rewrite bool_decide_eq_true_2.
  - intros ty Hne. by rewrite bool_decide_eq_false_2.
Qed.

(** X4. [last_chunk_id] raises [RuntimeError] when no chunk of the type is
    registered and returns the id registered last otherwise, without
    changing anything; [is_empty] tells the two cases apart. *)
Theorem last_chunk_id_spec (chunk_type : ChunkType) (s : State Mgr) :
  (chunk_ids_generator chunk_type (self s) = [] →
   is_empty chunk_type (self s) = true
   ∧ last_chunk_id chunk_type s = (s, inl RuntimeError))
  ∧ (∀ ids chunk_id,
       chunk_ids_generator chunk_type (self s) = ids ++ [chunk_id] →
       is_empty chunk_type (self s) = false
       ∧ last_chunk_id chunk_type s = (s, inr chunk_id)).
Proof.
  unfold last_chunk_id, is_empty, chunk_ids_generator, bind, get, raise, ret. split.
  - intros ->. by rewrite bool_decide_eq_true_2.
  - intros ids chunk_id ->. rewrite bool_decide_eq_false_2.
    2:{ rewrite length_app. simpl. lia. }
    by rewrite last_snoc.
Qed.

(** *** Unknown ids and the guard of [chunk_move] *)

(** X5. For an id that is not registered, [__getitem__] answers [None],
    while [access_chunk] and [chunk_move] raise [KeyError]; neither changes
    the state. *)
Theorem unknown_chunk_id (chunk_id : Z) (device : Device) (s : State Mgr) :
  id_to_chunk_map (self s) !! chunk_id = None →
  __getitem__ chunk_id (self s) = None
  ∧ access_chunk chunk_id device s = (s, inl KeyError)
  ∧ chunk_move chunk_id device s = (s, inl KeyError).
Proof.
  intros Hnone. unfold __getitem__, access_chunk, chunk_move, bind, lookup_chunk.
  by rewrite Hnone.
Qed.

(** X6. [chunk_move] first compares the free chunk memory of the
    destination with the payload bytes of the chunk: when it is smaller the
    call raises [RuntimeError] and nothing changes, also when the chunk is
    already on that device; when it suffices and the chunk is already
    there, the call returns and nothing changes. *)
Theorem chunk_move_guard (chunk_id : Z) (device : Device) (s : State Mgr) (c : Chunk) :
  id_to_chunk_map (self s) !! chunk_id = Some c →
  (free_chunk_mem (mgr s) (dev_type device) < get_payload_space c →
   chunk_move chunk_id device s = (s, inl RuntimeError))
  ∧ (get_payload_space c ≤ free_chunk_mem (mgr s) (dev_type device) →
     get_device c = Some device →
     chunk_move chunk_id device s = (s, inr tt)).
Proof.
  intros Hc. unfold chunk_move, bind, lookup_chunk, get, raise, ret. rewrite Hc.
  split.
  - intros Hlt. apply Z.ltb_lt in Hlt. by rewrite Hlt.
  - intros Hle Hd. apply Z.ltb_ge in Hle. rewrite Hle.
    rewrite bool_decide_eq_false_2; [done|]. intros Hne. by apply Hne.
Qed.

(** *** The lists of the types and the map of the chunks stay in step *)

Lemma listed_ids_append (f : ChunkType → list Z) (ty : ChunkType) (id : Z)
    (ts : list ChunkType) :
  NoDup ts →
  ts ≫= (λ t, if bool_decide (t = ty) then f t ++ [id] else f t)
  ≡ₚ (if bool_decide (ty ∈ ts) then [id] else []) ++ (ts ≫= f).
Proof.
  induction ts as [|t ts IH]; intros Hnd; [done|].
  apply NoDup_cons in Hnd as [Hni Hnd]. rewrite !bind_cons, (IH Hnd).
  destruct (decide (t = ty)) as [->|Hne].
  - rewrite (bool_decide_eq_true_2 (ty = ty)) by done.
    rewrite (bool_decide_eq_true_2 (ty ∈ ty :: ts)) by left.
    rewrite (bool_decide_eq_false_2 (ty ∈ ts)) by done. simpl.
    rewrite <- app_assoc. simpl. by rewrite <- Permutation_middle.
  - rewrite (bool_decide_eq_false_2 (t = ty)) by done.
    destruct (decide (ty ∈ ts)) as [Hin|Hin].
    + rewrite (bool_decide_eq_true_2 (ty ∈ ts)) by done.
      rewrite (bool_decide_eq_true_2 (ty ∈ t :: ts)) by (by right). simpl.
      by rewrite <- Permutation_middle.
    + rewrite (bool_decide_eq_false_2 (ty ∈ ts)) by done.
      rewrite (bool_decide_eq_false_2 (ty ∈ t :: ts)); [done|].
      intros [?|?]%elem_of_cons; congruence.
Qed.

Lemma listed_ids_append_id cl ty id :
  listed_ids (append_id ty id cl) ≡ₚ id :: listed_ids cl.
Proof.
  unfold listed_ids, append_id. cbn [chunk_type_to_id_list_map].
  rewrite (listed_ids_append (chunk_type_to_id_list_map cl) ty id chunk_types).
  - rewrite bool_decide_eq_true_2; [done|]. unfold chunk_types.
    destruct ty; set_solver.
  - unfold chunk_types. repeat (constructor; [set_solver|]). constructor.
Qed.

Lemma same_registry_refl cl : same_registry cl cl.
Proof. by split. Qed.

Lemma same_registry_trans cl1 cl2 cl3 :
  same_registry cl1 cl2 → same_registry cl2 cl3 → same_registry cl1 cl3.
Proof.
  intros [H1 H2] [H3 H4]. split.
  - intros ty. by rewrite H3, H1.
  - intros id. by rewrite H4, H2.
Qed.

Lemma same_registry_consistent cl cl' :
  same_registry cl cl' → registry_consistent cl → registry_consistent cl'.
Proof.
  intros [Hl Hm] [Hnd Hin].
  assert (Heq : listed_ids cl' = listed_ids cl).
  { unfold listed_ids, chunk_types. simpl. by rewrite !Hl. }
  split.
  - by rewrite Heq.
  - intros id. by rewrite Heq, Hin, Hm.
Qed.

Lemma update_chunk_registry chunk_id f s :
  same_registry (self s) (self (update_chunk chunk_id f s).1).
Proof.
  unfold update_chunk.
  destruct (id_to_chunk_map (self s) !! chunk_id) as [c|] eqn:Hc;
    [|apply same_registry_refl].
  destruct (f c (mgr s)) as [c' m']. split; [done|]. intros id. simpl.
  destruct (decide (id = chunk_id)) as [->|Hne].
  - rewrite lookup_insert_eq, Hc. split; by eauto.
  - by rewrite lookup_insert_ne.
Qed.

Lemma chunk_move_registry chunk_id device s :
  same_registry (self s) (self (chunk_move chunk_id device s).1).
Proof.
  unfold chunk_move, bind, lookup_chunk, get, raise, ret.
  destruct (id_to_chunk_map (self s) !! chunk_id) as [c|];
    [|apply same_registry_refl].
  destruct (_ <? _); [apply same_registry_refl|].
  case_bool_decide; [apply update_chunk_registry|apply same_registry_refl].
Qed.

Lemma for_each_chunk_move_registry device l s :
  same_registry (self s) (self (for_each (λ idx, chunk_move idx device) l s).1).
Proof.
  revert s. induction l as [|x l IH]; intros s; [apply same_registry_refl|].
  simpl. unfold bind.
  pose proof (chunk_move_registry x device s) as Hx.
  destruct (chunk_move x device s) as [s1 [e|[]]]; [done|].
  eapply same_registry_trans; [exact Hx|apply IH].
Qed.

Lemma room_making_state d target_device s :
  (_chunk_to_move_out_for_room_making d target_device s).1 = s.
Proof.
  unfold _chunk_to_move_out_for_room_making.
  destruct (drain_queue _ _ _ _ _) as [?|[??]]; [done|]. by destruct (_ <? _).
Qed.

Lemma make_room_registry d target_device s :
  same_registry (self s) (self (make_room d target_device s).1).
Proof.
  unfold make_room, bind, get.
  pose proof (room_making_state d target_device s) as Hs.
  destruct (_chunk_to_move_out_for_room_making d target_device s) as [s' [e|l]];
    simpl in Hs; subst s'; [apply same_registry_refl|].
  apply for_each_chunk_move_registry.
Qed.

Lemma prepare_device_registry target_device need_bytes s :
  same_registry (self s) (self (prepare_device target_device need_bytes s).1).
Proof.
  unfold prepare_device, bind, get, raise, ret.
  destruct (_ <? _); [apply same_registry_refl|].
  destruct (_ <=? _); [apply same_registry_refl|].
  pose proof (room_making_state (need_bytes - free_chunk_mem (mgr s) (dev_type target_device))
                target_device s) as Hs.
  destruct (_chunk_to_move_out_for_room_making _ target_device s) as [s' [e|l]];
    simpl in Hs; subst s'; [apply same_registry_refl|].
  apply for_each_chunk_move_registry.
Qed.

Lemma bind_registry {A} (m : M (State Mgr) A) (k : A → M (State Mgr) unit) s :
  same_registry (self s) (self (m s).1) →
  (∀ a s', same_registry (self s') (self (k a s').1)) →
  same_registry (self s) (self (bind m k s).1).
Proof.
  intros Hm Hk. unfold bind. destruct (m s) as [s' [e|a]]; [done|].
  eapply same_registry_trans; [exact Hm|apply Hk].
Qed.

Lemma access_chunk_registry chunk_id compute_device s :
  same_registry (self s) (self (access_chunk chunk_id compute_device s).1).
Proof.
  unfold access_chunk.
  apply bind_registry.
  { unfold lookup_chunk. destruct (_ !! _); apply same_registry_refl. }
  intros _ s1. apply bind_registry; [apply same_registry_refl|].
  intros s2 s3. apply bind_registry.
  { destruct (is_warmup_training (mgr s2));
      [apply update_chunk_registry|apply same_registry_refl]. }
  intros _ s4. apply bind_registry.
  { unfold lookup_chunk. destruct (_ !! _); apply same_registry_refl. }
  intros chunk s5. case_bool_decide.
  - apply bind_registry; [apply prepare_device_registry|].
    intros _ s6. apply update_chunk_registry.
  - destruct (get_device chunk) as [d|]; [|apply same_registry_refl].
    case_bool_decide; [|apply same_registry_refl].
    apply bind_registry; [apply prepare_device_registry|].
    intros _ s6. apply bind_registry; [apply update_chunk_registry|].
    intros _ s7. apply bind_registry.
    { unfold lookup_chunk. destruct (_ !! _); apply same_registry_refl. }
    intros chunk' s8. destruct (get_device chunk') as [d'|]; [|apply same_registry_refl].
    case_bool_decide; apply same_registry_refl.
Qed.

Lemma new_chunk_consistent world_size chunk_id chunk_size data_type is_dummy chunk_type s :
  registry_consistent (self s) →
  registry_consistent
    (self (new_chunk world_size chunk_id chunk_size data_type is_dummy chunk_type s).1).
Proof.
  intros [Hnd Hin]. unfold new_chunk, bind, get, modify, raise, ret.
  case_bool_decide as Hreg; [done|].
  assert (Hgoal : registry_consistent
            (append_id chunk_type chunk_id
               (set_id_to_chunk_map
                  (<[chunk_id := Chunk_init chunk_size data_type chunk_id
                                   (cl_local_rank (self s)) is_dummy]>
                     (id_to_chunk_map (self s))) (self s)))).
  { split.
    - rewrite listed_ids_append_id. constructor; [|done].
      intros Hin'. apply Hreg. by apply Hin.
    - intros id. rewrite listed_ids_append_id, elem_of_cons. simpl.
      destruct (decide (id = chunk_id)) as [->|Hne].
      + rewrite lookup_insert_eq. split; [by eauto|by left].
      + rewrite lookup_insert_ne by done. rewrite <- Hin.
        split; [intros [?|?]; [done|done]|by right]. }
  by case_bool_decide.
Qed.

(** X7. The lists of the types and the map of the chunks stay in step.
    Starting from a new [ChunkList] and serving any calls of [new_chunk],
    [access_chunk], [prepare_device], [make_room] and [chunk_move], whether
    they return or raise: every registered id is in the list of exactly one
    type, exactly once, and every listed id is registered. *)
Theorem registry_stays_consistent (rs : list request) (m : Mgr) (local_rank : Z) :
  registry_consistent
    (self (serve_all rs {| mgr := m; self := ChunkList_init local_rank |})).
Proof.
  assert (Hgen : ∀ s, registry_consistent (self s) →
                      registry_consistent (self (serve_all rs s))).
  { induction rs as [|r rs IH]; intros s Hs; [done|].
    simpl. apply IH. destruct r; simpl.
    - by apply new_chunk_consistent.
    - eapply same_registry_consistent; [apply access_chunk_registry|done].
    - eapply same_registry_consistent; [apply prepare_device_registry|done].
    - eapply same_registry_consistent; [apply make_room_registry|done].
    - eapply same_registry_consistent; [apply chunk_move_registry|done]. }
  apply Hgen. split.
  - unfold listed_ids, chunk_types. simpl. constructor.
  - intros id. unfold listed_ids, chunk_types. simpl. rewrite lookup_empty.
    split; [by intros ?%elem_of_nil|by intros [??]].
Qed.

(** X8. [access_chunk], [prepare_device], [make_room] and [chunk_move]
    neither register nor drop a chunk and do not touch the lists of the
    types, whether they return or raise. *)
Theorem placement_keeps_registry (r : request) (s : State Mgr) :
  match r with NewChunk _ _ _ _ _ _ => False | _ => True end →
  (∀ ty, chunk_ids_generator ty (self (serve r s)) = chunk_ids_generator ty (self s))
  ∧ (∀ id, is_Some (__getitem__ id (self (serve r s)))
           ↔ is_Some (__getitem__ id (self s)))
  ∧ chunk_list_size (self (serve r s)) = chunk_list_size (self s).
Proof.
  intros Hr.
  assert (Hsame : same_registry (self s) (self (serve r s))).
  { destruct r; simpl; [done| | | |].
    - apply access_chunk_registry.
    - apply prepare_device_registry.
    - apply make_room_registry.
    - apply chunk_move_registry. }
  destruct Hsame as [Hl Hm]. split_and!; [done|done|].
  unfold chunk_list_size. rewrite <- !size_dom. f_equal.
  apply set_eq. intros id. rewrite !elem_of_dom. apply Hm.
Qed.

(** *** Chunk memory in use *)

Lemma memory_step_sum device (l : list (Z * Chunk)) (a : Z) :
  foldl (memory_step device) a l
  = a + foldr (λ item acc, resident_bytes (dev_type device) item.2 + acc) 0 l.
Proof.
  revert a. induction l as [|x l IH]; intros a; simpl; [lia|].
  rewrite IH. unfold memory_step, resident_bytes.
  destruct (get_device x.2) as [d|]; [|lia]. case_bool_decide; lia.
Qed.

Lemma get_chunk_memory_used_sum device cl :
  get_chunk_memory_used device cl = used_on (dev_type device) (id_to_chunk_map cl).
Proof. unfold get_chunk_memory_used, used_on. by rewrite memory_step_sum. Qed.

Lemma sum_bytes_perm ty (l1 l2 : list (Z * Chunk)) :
  l1 ≡ₚ l2 →
  foldr (λ item acc, resident_bytes ty item.2 + acc) 0 l1
  = foldr (λ item acc, resident_bytes ty item.2 + acc) 0 l2.
Proof. induction 1; simpl; lia. Qed.

Lemma used_on_delete ty (chunks : gmap Z Chunk) id c :
  chunks !! id = Some c →
  used_on ty chunks = resident_bytes ty c + used_on ty (delete id chunks).
Proof.
  intros Hc. unfold used_on.
  by rewrite <- (sum_bytes_perm ty _ _ (map_to_list_delete chunks id c Hc)).
Qed.

Lemma used_on_insert ty (chunks : gmap Z Chunk) id c c' :
  chunks !! id = Some c →
  used_on ty (<[id := c']> chunks)
  = used_on ty chunks - resident_bytes ty c + resident_bytes ty c'.
Proof.
  intros Hc. rewrite (used_on_delete ty chunks id c Hc).
  rewrite <- (insert_delete_eq chunks).
  unfold used_on at 1.
  rewrite (sum_bytes_perm ty _ _
             (map_to_list_insert (delete id chunks) id c' (lookup_delete_eq _ _))).
  simpl. fold (used_on ty (delete id chunks)). lia.
Qed.

Lemma resident_bytes_nonneg ty c : 0 ≤ capacity c → 0 ≤ resident_bytes ty c.
Proof.
  intros Hc. unfold resident_bytes, get_payload_space.
  destruct (get_device c) as [d|] eqn:Hd; [|done]. unfold get_device in Hd. rewrite Hd.
  case_bool_decide; [|done]. destruct (data_type c); simpl; lia.
Qed.

Lemma used_on_nonneg ty (chunks : gmap Z Chunk) :
  (∀ id c, chunks !! id = Some c → 0 ≤ capacity c) → 0 ≤ used_on ty chunks.
Proof.
  intros Hcap. unfold used_on.
  assert (Hall : Forall (λ item : Z * Chunk, 0 ≤ capacity item.2) (map_to_list chunks)).
  { apply Forall_forall. intros [id c] Hin. apply elem_of_map_to_list in Hin.
    by eapply Hcap. }
  induction Hall as [|x l Hx _ IH]; simpl; [done|].
  pose proof (resident_bytes_nonneg ty x.2 Hx). lia.
Qed.

Lemma payload_bytes_delete (chunks : gmap Z Chunk) id l :
  id ∉ l → payload_bytes (delete id chunks) l = payload_bytes chunks l.
Proof.
  induction l as [|x l IH]; intros Hni; simpl; [done|].
  apply not_elem_of_cons in Hni as [Hne Hni]. rewrite IH by done.
  unfold bytes_of. by rewrite lookup_delete_ne.
Qed.

(** Distinct chunks that are on a tier hold together no more than the
    tier has in use. *)
Lemma payload_bytes_le_used ty (l : list Z) : ∀ chunks : gmap Z Chunk,
  NoDup l →
  (∀ id c, chunks !! id = Some c → 0 ≤ capacity c) →
  (∀ id, id ∈ l → ∃ c d, chunks !! id = Some c ∧ get_device c = Some d ∧ dev_type d = ty) →
  payload_bytes chunks l ≤ used_on ty chunks.
Proof.
  induction l as [|x l IH]; intros chunks Hnd Hcap Hon; simpl.
  - by apply used_on_nonneg.
  - apply NoDup_cons in Hnd as [Hni Hnd].
    destruct (Hon x (list_elem_of_here _ _)) as (c&d&Hc&Hd&Hty).
    rewrite (used_on_delete ty chunks x c Hc).
    rewrite <- (payload_bytes_delete chunks x l Hni).
    assert (bytes_of chunks x = resident_bytes ty c) as ->.
    { unfold bytes_of, resident_bytes. rewrite Hc, Hd.
      by rewrite bool_decide_eq_true_2. }
    assert (payload_bytes (delete x chunks) l ≤ used_on ty (delete x chunks)); [|lia].
    apply IH; [done| |].
    + intros id c' Hc'. apply lookup_delete_Some in Hc' as [_ Hc']. by eapply Hcap.
    + intros id Hin. destruct (Hon id (list_elem_of_further _ _ _ Hin)) as (c'&d'&?&?&?).
      exists c', d'. split_and!; [|done|done].
      rewrite lookup_delete_ne; [done|]. intros ->. done.
Qed.

Lemma evicted_before_NoDup (m : Mgr) (chunks : gmap Z Chunk) target_device l :
  StronglySorted (evicted_before m chunks target_device) l → NoDup l.
Proof.
  induction 1 as [|x l _ IH Hall]; constructor; [|done].
  intros Hin. eapply Forall_forall in Hall; [|exact Hin].
  unfold evicted_before in Hall. lia.
Qed.

Lemma room_making_victims (s s' : State Mgr) (d : Z)
    (target_device : Device) (moved_list : list Z) :
  _chunk_to_move_out_for_room_making d target_device s = (s', inr moved_list) →
  NoDup moved_list
  ∧ ∀ id, id ∈ moved_list →
      ∃ c dev, __getitem__ id (self s) = Some c
               ∧ get_device c = Some dev
               ∧ dev_type dev = dev_type target_device.
Proof.
  intros Hrun. split.
  - destruct (CoreFacts.fill_queue_victim_order (mgr s) (id_to_chunk_map (self s))
                target_device) as [Hsorted _].
    apply evicted_before_NoDup in Hsorted.
    destruct (CoreFacts.room_making_spec s d target_device)
      as (taken&[k Hk]&_&[(_&_&Heq)|(->&_&Heq)]); rewrite Heq in Hrun.
    + inversion Hrun; subst. rewrite Hk in Hsorted. by apply NoDup_app in Hsorted as [? _].
    + destruct (0 <? d); [done|]. case_bool_decide; [|done].
      inversion Hrun; subst. constructor.
  - intros id Hin.
    destruct (CoreFacts.room_making_members s d target_device s' moved_list id Hrun Hin)
      as (_&c&Hc&Hmov).
    apply CoreFacts.movable_inv in Hmov as (_&_&dev&?&?). by exists c, dev.
Qed.

(** X9. The list victim selection returns names each chunk once, and
    every chunk in it has its payload on a device of the target's type. *)
Theorem victims_distinct_and_resident (s s' : State Mgr) (d : Z)
    (target_device : Device) (moved_list : list Z) :
  _chunk_to_move_out_for_room_making d target_device s = (s', inr moved_list) →
  NoDup moved_list
  ∧ ∀ id, id ∈ moved_list →
      ∃ c dev, __getitem__ id (self s) = Some c
               ∧ get_device c = Some dev
               ∧ dev_type dev = dev_type target_device.
Proof. apply room_making_victims. Qed.

(** X10. Victim selection cannot free more than the tier holds: when
    [get_chunk_memory_used] of the target device is below the bytes asked
    for, it raises [RuntimeError]; and the payload bytes of a list it
    returns never exceed [get_chunk_memory_used]. *)
Theorem room_making_bounded_by_memory_used (s : State Mgr) (d : Z)
    (target_device : Device) :
  (∀ id c, id_to_chunk_map (self s) !! id = Some c → 0 ≤ capacity c) →
  (get_chunk_memory_used target_device (self s) < d →
   _chunk_to_move_out_for_room_making d target_device s = (s, inl RuntimeError))
  ∧ (∀ s' moved_list,
       _chunk_to_move_out_for_room_making d target_device s = (s', inr moved_list) →
       payload_bytes (id_to_chunk_map (self s)) moved_list
       ≤ get_chunk_memory_used target_device (self s)).
Proof.
  intros Hcap. rewrite get_chunk_memory_used_sum.
  assert (Hbound : ∀ l,
            _chunk_to_move_out_for_room_making d target_device s = (s, inr l) →
            payload_bytes (id_to_chunk_map (self s)) l
            ≤ used_on (dev_type target_device) (id_to_chunk_map (self s))).
  { intros l Hrun.
    destruct (room_making_victims s s d target_device l Hrun) as [Hnd Hon].
    by apply payload_bytes_le_used. }
  split.
  - intros Hlt.
    pose proof (used_on_nonneg (dev_type target_device) _ Hcap) as Hnn.
    destruct (CoreFacts.room_making_spec s d target_device)
      as (taken&_&_&[(_&Hreach&Heq)|(_&_&Heq)]).
    + specialize (Hbound taken Heq). lia.
    + rewrite Heq. assert ((0 <? d) = true) as -> by (apply Z.ltb_lt; lia). done.
  - intros s' moved_list Hrun.
    pose proof (room_making_state d target_device s) as Hs. rewrite Hrun in Hs.
    simpl in Hs. subst s'. by apply Hbound.
Qed.

(** X11. [max_chunk_size] is an upper bound of the capacities of the
    registered chunks; it is 0 for an empty directory (and whenever no
    capacity is positive) and otherwise the capacity of some chunk. *)
Theorem max_chunk_size_spec (cl : ChunkList) :
  0 ≤ max_chunk_size cl
  ∧ (∀ id c, __getitem__ id cl = Some c → capacity c ≤ max_chunk_size cl)
  ∧ (max_chunk_size cl = 0
     ∨ ∃ id c, __getitem__ id cl = Some c ∧ capacity c = max_chunk_size cl)
  ∧ (id_to_chunk_map cl = ∅ → max_chunk_size cl = 0).
Proof.
  unfold max_chunk_size, __getitem__.
  assert (Hfold : ∀ (l : list (Z * Chunk)) (a : Z),
    let r := foldl (λ max_size item, Z.max (capacity item.2) max_size) a l in
    a ≤ r ∧ Forall (λ item, capacity item.2 ≤ r) l
    ∧ (r = a ∨ ∃ item, item ∈ l ∧ capacity item.2 = r)).
  { induction l as [|x l IH]; intros a; simpl.
    - split_and!; [done|constructor|by left].
    - destruct (IH (Z.max (capacity x.2) a)) as (H1&H2&H3). split_and!.
      + lia.
      + constructor; [lia|done].
      + destruct H3 as [H3|(item&Hin&Hitem)].
        * destruct (Z.max_spec (capacity x.2) a) as [[_ Hm]|[_ Hm]].
          -- left. congruence.
          -- right. exists x. split; [left|congruence].
        * right. exists item. split; [by right|done]. }
  destruct (Hfold (map_to_list (id_to_chunk_map cl)) 0) as (H1&H2&H3).
  split_and!.
  - done.
  - intros id c Hc. apply elem_of_map_to_list in Hc.
    eapply Forall_forall in H2; [|exact Hc]. done.
  - destruct H3 as [?|([id c]&Hin&?)]; [by left|right].
    exists id, c. split; [by apply elem_of_map_to_list|done].
  - intros ->. by rewrite map_to_list_empty.
Qed.

(** *** Room making moves bytes from one tier to the other *)

Lemma payload_bytes_other (chunks chunks' : gmap Z Chunk) l :
  (∀ id, id ∈ l → chunks' !! id = chunks !! id) →
  payload_bytes chunks' l = payload_bytes chunks l.
Proof.
  induction l as [|x l IH]; intros Heq; simpl; [done|].
  rewrite IH by (intros id Hin; apply Heq; by right).
  unfold bytes_of. by rewrite (Heq x) by left.
Qed.

(** One victim moved to a device of the other type. *)
Lemma chunk_move_used chunk_id device s s1 c d :
  id_to_chunk_map (self s) !! chunk_id = Some c →
  get_device c = Some d →
  dev_type d ≠ dev_type device →
  chunk_move chunk_id device s = (s1, inr tt) →
  used_on (dev_type d) (id_to_chunk_map (self s1))
  = used_on (dev_type d) (id_to_chunk_map (self s)) - get_payload_space c
  ∧ used_on (dev_type device) (id_to_chunk_map (self s1))
    = used_on (dev_type device) (id_to_chunk_map (self s)) + get_payload_space c
  ∧ id_to_chunk_map (self s1) !! chunk_id = Some (set_payload_device (Some device) c).
Proof.
  intros Hc Hd Hty. unfold chunk_move, bind, lookup_chunk, get, raise, ret. rewrite Hc.
  destruct (_ <? _); [done|].
  rewrite bool_decide_eq_true_2.
  2:{ rewrite Hd. intros [= ->]. done. }
  unfold update_chunk, Chunk_move. rewrite Hc. unfold get_device in Hd. rewrite Hd.
  rewrite bool_decide_eq_false_2 by (intros ->; done).
  intros [= <-]. cbn [self id_to_chunk_map set_id_to_chunk_map].
  rewrite !(used_on_insert _ _ _ c _ Hc), lookup_insert_eq.
  unfold resident_bytes, get_device, get_payload_space. cbn [payload_device set_payload_device
    capacity data_type]. rewrite Hd.
  rewrite (bool_decide_eq_true_2 (dev_type d = dev_type d)) by done.
  rewrite (bool_decide_eq_false_2 (dev_type device = dev_type d)) by done.
  rewrite (bool_decide_eq_false_2 (dev_type d = dev_type device)) by done.
  rewrite (bool_decide_eq_true_2 (dev_type device = dev_type device)) by done.
  split_and!; [lia|lia|done].
Qed.

Lemma for_each_chunk_move_used device ty l : ∀ s s1,
  NoDup l →
  ty ≠ dev_type device →
  (∀ id, id ∈ l → ∃ c d, id_to_chunk_map (self s) !! id = Some c
                         ∧ get_device c = Some d ∧ dev_type d = ty) →
  for_each (λ idx, chunk_move idx device) l s = (s1, inr tt) →
  used_on ty (id_to_chunk_map (self s1))
  = used_on ty (id_to_chunk_map (self s)) - payload_bytes (id_to_chunk_map (self s)) l
  ∧ used_on (dev_type device) (id_to_chunk_map (self s1))
    = used_on (dev_type device) (id_to_chunk_map (self s))
      + payload_bytes (id_to_chunk_map (self s)) l
  ∧ ∀ id, id ∈ l →
      payload_device <$> id_to_chunk_map (self s1) !! id = Some (Some device).
Proof.
  induction l as [|x l IH]; intros s s1 Hnd Hty Hon Hrun.
  - simpl in *. inversion Hrun; subst. split_and!; [lia|lia|].
    intros ? Hin. by apply elem_of_nil in Hin.
  - apply NoDup_cons in Hnd as [Hni Hnd]. simpl in Hrun. unfold bind in Hrun.
    destruct (chunk_move x device s) as [sm [e|[]]] eqn:Hstep; [done|].
    destruct (Hon x (list_elem_of_here _ _)) as (c&d&Hc&Hd&Hdt). subst ty.
    destruct (chunk_move_used x device s sm c d Hc Hd Hty Hstep) as (H1&H2&H3).
    assert (Hother : ∀ id, id ≠ x →
              id_to_chunk_map (self sm) !! id = id_to_chunk_map (self s) !! id).
    { intros id Hne. pose proof (CoreFacts.chunk_move_other x device s id Hne) as Ho.
      by rewrite Hstep in Ho. }
    destruct (IH sm s1 Hnd Hty) as (IH1&IH2&IH3); [|done|].
    { intros id Hin. rewrite Hother by (intros ->; done).
      apply Hon. by right. }
    assert (Hpb : payload_bytes (id_to_chunk_map (self sm)) l
                  = payload_bytes (id_to_chunk_map (self s)) l).
    { apply payload_bytes_other. intros id Hin. apply Hother. intros ->. done. }
    rewrite Hpb in IH1, IH2. simpl.
    assert (bytes_of (id_to_chunk_map (self s)) x = get_payload_space c) as ->.
    { unfold bytes_of. by rewrite Hc. }
    split_and!; [lia|lia|].
    intros id Hin. apply elem_of_cons in Hin as [->|Hin]; [|by apply IH3].
    pose proof (CoreFacts.for_each_chunk_move_other device l sm x Hni) as Hkeep.
    rewrite Hrun in Hkeep. simpl in Hkeep. by rewrite Hkeep, H3.
Qed.

Lemma other_device_type target_device local_rank :
  dev_type target_device ≠ dev_type (other_device target_device local_rank).
Proof.
  unfold other_device. case_bool_decide as H; simpl; [by rewrite H|].
  by destruct (dev_type target_device).
Qed.

Lemma make_room_used (offload_size_in_bytes : Z) (target_device : Device)
    (s s1 : State Mgr) :
  (∀ id c, id_to_chunk_map (self s) !! id = Some c → 0 ≤ capacity c) →
  make_room offload_size_in_bytes target_device s = (s1, inr tt) →
  let new_device := other_device target_device (cl_local_rank (self s)) in
  get_chunk_memory_used target_device (self s1)
  ≤ get_chunk_memory_used target_device (self s) - offload_size_in_bytes
  ∧ get_chunk_memory_used target_device (self s1)
    ≤ get_chunk_memory_used target_device (self s)
  ∧ get_chunk_memory_used target_device (self s1)
    + get_chunk_memory_used new_device (self s1)
    = get_chunk_memory_used target_device (self s)
      + get_chunk_memory_used new_device (self s).
Proof.
  intros Hcap Hrun new_device. unfold make_room, bind, get in Hrun.
  destruct (_chunk_to_move_out_for_room_making offload_size_in_bytes target_device s)
    as [s' [e|moved_list]] eqn:Hsel; [done|].
  pose proof (room_making_state offload_size_in_bytes target_device s) as Hs.
  rewrite Hsel in Hs. simpl in Hs. subst s'. fold new_device in Hrun.
  destruct (room_making_victims s s _ target_device moved_list Hsel)
    as [Hnd Hon].
  destruct (for_each_chunk_move_used new_device (dev_type target_device) moved_list
              s s1 Hnd (other_device_type _ _)) as (H1&H2&_); [|done|].
  { intros id Hin. destruct (Hon id Hin) as (c&d&?&?&?). by exists c, d. }
  rewrite !get_chunk_memory_used_sum.
  assert (Hreach : offload_size_in_bytes ≤ payload_bytes (id_to_chunk_map (self s)) moved_list
                   ∧ 0 ≤ payload_bytes (id_to_chunk_map (self s)) moved_list).
  { split; [|by apply CoreFacts.payload_bytes_nonneg].
    destruct (CoreFacts.room_making_spec s offload_size_in_bytes target_device)
      as (taken&_&_&[(_&Hreach&Heq)|(_&_&Heq)]); rewrite Heq in Hsel.
    - by inversion Hsel; subst.
    - destruct (0 <? offload_size_in_bytes) eqn:E; [done|]. apply Z.ltb_ge in E.
      case_bool_decide; [|done]. inversion Hsel; subst. simpl. lia. }
  lia.
Qed.

(** X12. A [make_room] that returns has moved at least the bytes asked
    for off the target tier: [get_chunk_memory_used] of the target device
    drops by the payload bytes of the victims, which is at least
    [offload_size_in_bytes]; the other tier grows by the same amount, so the
    total over both tiers is unchanged. *)
Theorem make_room_frees (offload_size_in_bytes : Z) (target_device : Device)
    (s s1 : State Mgr) :
  (∀ id c, id_to_chunk_map (self s) !! id = Some c → 0 ≤ capacity c) →
  make_room offload_size_in_bytes target_device s = (s1, inr tt) →
  let new_device := other_device target_device (cl_local_rank (self s)) in
  get_chunk_memory_used target_device (self s1)
  ≤ get_chunk_memory_used target_device (self s) - offload_size_in_bytes
  ∧ get_chunk_memory_used target_device (self s1)
    ≤ get_chunk_memory_used target_device (self s)
  ∧ get_chunk_memory_used target_device (self s1)
    + get_chunk_memory_used new_device (self s1)
    = get_chunk_memory_used target_device (self s)
      + get_chunk_memory_used new_device (self s).
Proof. apply make_room_used. Qed.

Lemma prepare_device_make_room target_device need_bytes (s : State Mgr) :
  need_bytes ≤ available_chunk_mem (mgr s) (dev_type target_device) →
  free_chunk_mem (mgr s) (dev_type target_device) < need_bytes →
  prepare_device target_device need_bytes s
  = make_room (need_bytes - free_chunk_mem (mgr s) (dev_type target_device))
      target_device s.
Proof.
  intros Hava Hfree. unfold prepare_device, make_room. unfold bind at 1. unfold get at 1.
  assert ((available_chunk_mem (mgr s) (dev_type target_device) <? need_bytes) = false)
    as -> by (apply Z.ltb_ge; lia).
  assert ((need_bytes - free_chunk_mem (mgr s) (dev_type target_device) <=? 0) = false)
    as -> by (apply Z.leb_gt; lia).
  unfold bind, get.
  pose proof (room_making_state (need_bytes - free_chunk_mem (mgr s) (dev_type target_device))
                target_device s) as Hs.
  destruct (_chunk_to_move_out_for_room_making _ target_device s) as [s' [e|l]];
    simpl in Hs; by subst s'.
Qed.

(** X13. A [prepare_device] that has to evict and returns has moved at
    least the missing bytes, [need_bytes] minus the free chunk memory, off
    the target tier, as [get_chunk_memory_used] measures it. *)
Theorem prepare_device_frees (target_device : Device) (need_bytes : Z)
    (s s1 : State Mgr) :
  (∀ id c, id_to_chunk_map (self s) !! id = Some c → 0 ≤ capacity c) →
  free_chunk_mem (mgr s) (dev_type target_device) < need_bytes →
  prepare_device target_device need_bytes s = (s1, inr tt) →
  get_chunk_memory_used target_device (self s1)
  ≤ get_chunk_memory_used target_device (self s)
    - (need_bytes - free_chunk_mem (mgr s) (dev_type target_device)).
Proof.
  intros Hcap Hfree Hrun.
  destruct (decide (need_bytes ≤ available_chunk_mem (mgr s) (dev_type target_device)))
    as [Hava|Hava].
  - rewrite prepare_device_make_room in Hrun by done.
    by destruct (make_room_used _ target_device s s1 Hcap Hrun) as [? _].
  - unfold prepare_device, bind, get, raise in Hrun.
    assert ((available_chunk_mem (mgr s) (dev_type target_device) <? need_bytes) = true)
      as Hlt by (apply Z.ltb_lt; lia).
    by rewrite Hlt in Hrun.
Qed.

End registry.

(** *** The statements at work on the concrete directory *)

Import CoreScenario.

(** Settles a decidable statement about concrete data by evaluation. *)
Ltac settle :=
  match goal with
  | |- ?P => apply (bool_decide_unpack P); vm_compute; exact I
  end.

Lemma state_crowded_capacities :
  ∀ id c, id_to_chunk_map (self state_crowded) !! id = Some c → 0 ≤ capacity c.
Proof.
  apply (bool_decide_unpack
           (map_Forall (λ _ c, 0 ≤ capacity c) (id_to_chunk_map (self state_crowded)))).
  by vm_compute.
Qed.

Lemma new_chunk_duplicate_witness :
  new_chunk 1 1 30 half false PARAM_FP16 state_registered
  = (state_registered, inl RuntimeError).
Proof. apply new_chunk_duplicate. settle. Defined.

Lemma new_chunk_comm_info_witness :
  let ci := {| ci_chunk_type := PARAM_FP16; group_id := 1; offset := 0 |} in
  ci_chunk_type ci = PARAM_FP16
  ∧ group_id ci = 2 `div` 2
  ∧ offset ci = 2 `mod` 2
  ∧ group_id ci * 2 + offset ci = 2
  ∧ 0 ≤ offset ci < 2
  ∧ 0 ≤ group_id ci.
Proof.
  intros ci.
  apply (new_chunk_comm_info 2 3 10 half false PARAM_FP16 state_registered
           (new_chunk 2 3 10 half false PARAM_FP16 state_registered).1 ci);
    [lia|by vm_compute].
Defined.

Lemma new_chunk_registers_witness :
  let s1 := (new_chunk 2 3 10 half false MOMENTUM state_registered).1 in
  chunk_list_size (self s1) = 3%nat
  ∧ chunk_ids_generator MOMENTUM (self s1) = [3]
  ∧ chunk_ids_generator PARAM_FP16 (self s1) = [1; 2].
Proof.
  intros s1.
  destruct (new_chunk_registers 2 3 10 half false MOMENTUM state_registered s1
              {| ci_chunk_type := MOMENTUM; group_id := 0; offset := 0 |})
    as (_&_&_&Hsize&Hlist&Hother); [by vm_compute|].
  split_and!.
  - by rewrite Hsize.
  - by rewrite Hlist.
  - by rewrite Hother.
Defined.

Lemma last_chunk_id_spec_witness :
  last_chunk_id MOMENTUM state_registered = (state_registered, inl RuntimeError)
  ∧ last_chunk_id PARAM_FP16 state_registered = (state_registered, inr 2).
Proof.
  split.
  - apply (last_chunk_id_spec MOMENTUM state_registered). by vm_compute.
  - apply (proj2 (last_chunk_id_spec PARAM_FP16 state_registered) [1] 2). by vm_compute.
Defined.

Lemma unknown_chunk_id_witness :
  __getitem__ 9 (self state_registered) = None
  ∧ access_chunk 9 gpu0 state_registered = (state_registered, inl KeyError)
  ∧ chunk_move 9 gpu0 state_registered = (state_registered, inl KeyError).
Proof. apply unknown_chunk_id. by vm_compute. Defined.

(** Chunk 1 sits on the fast tier, which has 40 bytes free: moving it
    there asks for 60 free bytes and raises. With 100 bytes free, moving
    chunk 3 to the device it is on returns at once. *)
Lemma chunk_move_guard_witness :
  chunk_move 1 gpu0 state_one_resident = (state_one_resident, inl RuntimeError)
  ∧ chunk_move 3 gpu0 {| mgr := tracker0; self := self state_crowded |}
    = ({| mgr := tracker0; self := self state_crowded |}, inr tt).
Proof.
  split.
  - apply (proj1 (chunk_move_guard 1 gpu0 state_one_resident
                    (set_payload_device (Some gpu0) (Chunk_init 30 half 1 0 false))
                    ltac:(by vm_compute))).
    by vm_compute.
  - apply (proj2 (chunk_move_guard 3 gpu0 {| mgr := tracker0; self := self state_crowded |}
                    (resident 3 10 [T_FREE] false [9]) ltac:(by vm_compute)));
      by vm_compute.
Defined.

Lemma placement_keeps_registry_witness :
  let s1 := serve (AccessChunk 2 gpu0) state_one_resident in
  (∀ ty, chunk_ids_generator ty (self s1) = chunk_ids_generator ty (self state_one_resident))
  ∧ (∀ id, is_Some (__getitem__ id (self s1))
           ↔ is_Some (__getitem__ id (self state_one_resident)))
  ∧ chunk_list_size (self s1) = chunk_list_size (self state_one_resident).
Proof. intros s1. by apply (placement_keeps_registry (AccessChunk 2 gpu0)). Defined.

Lemma victims_distinct_and_resident_witness :
  NoDup [3; 1]
  ∧ ∀ id, id ∈ [3; 1] →
      ∃ c dev, __getitem__ id (self state_crowded) = Some c
               ∧ get_device c = Some dev ∧ dev_type dev = dev_type gpu0.
Proof.
  apply (victims_distinct_and_resident state_crowded state_crowded 25 gpu0 [3; 1]).
  by vm_compute.
Defined.

Lemma room_making_bounded_by_memory_used_witness :
  get_chunk_memory_used gpu0 (self state_crowded) = 100
  ∧ _chunk_to_move_out_for_room_making 101 gpu0 state_crowded
    = (state_crowded, inl RuntimeError)
  ∧ payload_bytes (id_to_chunk_map (self state_crowded)) [3; 1]
    ≤ get_chunk_memory_used gpu0 (self state_crowded).
Proof.
  destruct (room_making_bounded_by_memory_used state_crowded 101 gpu0
              state_crowded_capacities) as [Hraise _].
  destruct (room_making_bounded_by_memory_used state_crowded 25 gpu0
              state_crowded_capacities) as [_ Hle].
  split_and!.
  - by vm_compute.
  - apply Hraise. by vm_compute.
  - apply (Hle state_crowded). by vm_compute.
Defined.

Lemma max_chunk_size_spec_witness :
  max_chunk_size (self state_registered) = 30
  ∧ 25 ≤ max_chunk_size (self state_registered).
Proof.
  split; [by vm_compute|].
  destruct (max_chunk_size_spec (self state_registered)) as (_&Hub&_).
  apply (Hub 2 (Chunk_init 25 half 2 0 false)). by vm_compute.
Defined.

Lemma make_room_frees_witness :
  let s1 := (make_room 25 gpu0 state_crowded).1 in
  get_chunk_memory_used gpu0 (self s1)
  ≤ get_chunk_memory_used gpu0 (self state_crowded) - 25
  ∧ get_chunk_memory_used gpu0 (self s1) ≤ get_chunk_memory_used gpu0 (self state_crowded)
  ∧ get_chunk_memory_used gpu0 (self s1) + get_chunk_memory_used host (self s1)
    = get_chunk_memory_used gpu0 (self state_crowded)
      + get_chunk_memory_used host (self state_crowded).
Proof.
  intros s1.
  apply (make_room_frees 25 gpu0 state_crowded s1 state_crowded_capacities).
  by vm_compute.
Defined.

Lemma prepare_device_frees_witness :
  get_chunk_memory_used gpu0 (self (prepare_device gpu0 40 state_crowded).1)
  ≤ get_chunk_memory_used gpu0 (self state_crowded)
    - (40 - free_chunk_mem (mgr state_crowded) (dev_type gpu0)).
Proof.
  apply (prepare_device_frees gpu0 40 state_crowded _ state_crowded_capacities);
    by vm_compute.
Defined.

End CoreMoreFacts.

(** ** Further properties of a chunk *)

Module ClientMoreFacts.
Import Py Torch Client ClientSpec.

Lemma filter_insert_by_start (k : Z) x l :
  filter (λ i, start i = k) (insert_by_start x l)
  = filter (λ i, start i = k) (x :: l).
Proof.
  induction l as [|y l IH]; simpl; [done|].
  destruct (start x <=? start y) eqn:E; [done|]. apply Z.leb_gt in E.
  rewrite filter_cons, IH. rewrite !filter_cons.
  destruct (decide (start y = k)), (decide (start x = k)); try done. lia.
Qed.

Lemma dict_set_keys {V} (k : Z) (v : V) (d : list (Z * V)) :
  (dict_set k v d).*1 = if bool_decide (k ∈ d.*1) then d.*1 else d.*1 ++ [k].
Proof.
  induction d as [|[k' v'] d IH].
  - rewrite bool_decide_eq_false_2; [done|]. by intros ?%elem_of_nil.
  - cbn [dict_set]. rewrite fmap_cons. cbn [fst].
    destruct (decide (k' = k)) as [->|Hk].
    + rewrite !bool_decide_eq_true_2; [done|by left|done].
    + rewrite (bool_decide_eq_false_2 (k' = k)) by done.
      rewrite fmap_cons, IH. cbn [fst].
      destruct (decide (k ∈ d.*1)) as [Hin|Hin].
      * rewrite !bool_decide_eq_true_2; [done|by right|done].
      * rewrite !bool_decide_eq_false_2; [done| |done].
        intros [?|?]%elem_of_cons; congruence.
Qed.

Lemma dict_set_elem {V} (k : Z) (v : V) (d : list (Z * V)) k' v' :
  NoDup d.*1 →
  (k', v') ∈ dict_set k v d ↔ (k' = k ∧ v' = v) ∨ (k' ≠ k ∧ (k', v') ∈ d).
Proof.
  induction d as [|[k0 v0] d IH]; simpl; intros Hnd.
  - rewrite list_elem_of_singleton. split.
    + intros [= -> ->]. by left.
    + intros [[-> ->]|[_ Hin]]; [done|]. by apply elem_of_nil in Hin.
  - apply NoDup_cons in Hnd as [Hni Hnd]. case_bool_decide as Hk.
    + subst k0. rewrite !elem_of_cons. split.
      * intros [[= -> ->]|Hin]; [by left|]. right. split; [|by right].
        intros ->. apply Hni. apply list_elem_of_fmap. by exists (k, v').
      * intros [[-> ->]|[Hne [[= ? ?]|Hin]]]; [by left|done|by right].
    + rewrite !elem_of_cons, (IH Hnd). split.
      * intros [[= -> ->]|[[-> ->]|[Hne Hin]]].
        -- right. split; [done|by left].
        -- by left.
        -- right. split; [done|by right].
      * intros [[-> ->]|[Hne [[= -> ->]|Hin]]].
        -- right. by left.
        -- by left.
        -- right. right. done.
Qed.

Section chunk_more.
Context {Mgr : Type} `{!PSManagerOps Mgr}.

Implicit Types (s : State Mgr) (ps : gmap nat Param) (info : TensorInfo).

(** *** The list of items *)

(** X14. [generate_in_sorted_order] yields every item of the dictionary
    exactly once, in ascending order of [start], and items with the same
    start in the order in which the dictionary holds them. *)
Theorem generate_in_sorted_order_spec (c : Chunk) :
  StronglySorted (λ i j, start i ≤ start j) (generate_in_sorted_order c)
  ∧ generate_in_sorted_order c ≡ₚ (tensor_id_to_info_dict c).*2
  ∧ ∀ k, filter (λ i, start i = k) (generate_in_sorted_order c)
         = filter (λ i, start i = k) (tensor_id_to_info_dict c).*2.
Proof.
  unfold generate_in_sorted_order. split_and!.
  - apply ClientFacts.sort_by_start_sorted.
  - apply ClientFacts.sort_by_start_perm.
  - intros k. induction ((tensor_id_to_info_dict c).*2) as [|x l IH]; [done|].
    simpl. rewrite filter_insert_by_start, !filter_cons. by rewrite IH.
Qed.

(** X15. [tensor_info_list.add] files the item under the id of its
    tensor: afterwards the dictionary holds the item under that id and
    nothing else under it, the entries of the other ids are untouched, and
    an id that was already there keeps its place while a new one goes to
    the end; so [get_len] grows by one exactly when the id is new, and ids
    stay unique. *)
Theorem add_files_item (item : TensorInfo) (s : State Mgr) :
  let k := info_tensor_id (params s) item in
  let d := tensor_id_to_info_dict (self s) in
  let s' := (add item s).1 in
  NoDup d.*1 →
  (add item s).2 = inr tt
  ∧ NoDup (tensor_id_to_info_dict (self s')).*1
  ∧ (∀ k' v, (k', v) ∈ tensor_id_to_info_dict (self s')
             ↔ (k' = k ∧ v = item) ∨ (k' ≠ k ∧ (k', v) ∈ d))
  ∧ (tensor_id_to_info_dict (self s')).*1
    = (if bool_decide (k ∈ d.*1) then d.*1 else d.*1 ++ [k])
  ∧ get_len (self s')
    = (if bool_decide (k ∈ d.*1) then get_len (self s) else S (get_len (self s)))
  ∧ heap s' = heap s ∧ params s' = params s ∧ ps_manager s' = ps_manager s.
Proof.
  intros k d s' Hnd. subst s'. unfold add, modify. cbn [fst snd self set_self set_dict
    tensor_id_to_info_dict heap params ps_manager].
  fold k d. split_and!; try done.
  - rewrite dict_set_keys. case_bool_decide as Hin; [done|].
    apply NoDup_app. split_and!; [done| |apply NoDup_singleton].
    intros x Hx ->%list_elem_of_singleton. done.
  - intros k' v. by apply dict_set_elem.
  - apply dict_set_keys.
  - unfold get_len. cbn [tensor_id_to_info_dict set_dict]. fold d.
    rewrite <- (length_fmap fst (dict_set k item d)), <- (length_fmap fst d).
    rewrite dict_set_keys.
    case_bool_decide; [done|]. rewrite length_app. simpl. lia.
Qed.

(** *** Requests that cannot or must fit *)

Lemma first_fit_too_large n cap prev_end occ :
  0 ≤ prev_end → cap < n →
  Forall (λ r : Z * Z, 0 ≤ r.1 ∧ 0 ≤ r.2 ∧ r.1 + r.2 ≤ cap) occ →
  first_fit n (gaps prev_end cap occ) = None.
Proof.
  intros Hp Hn Hocc. revert prev_end Hp.
  induction Hocc as [|[st m] occ (H1&H2&H3) _ IH]; intros prev_end Hp; simpl.
  - destruct (n <=? cap - prev_end) eqn:E; [|done]. apply Z.leb_le in E. lia.
  - simpl in *. destruct (n <=? st - prev_end) eqn:E.
    + apply Z.leb_le in E. lia.
    + apply IH. lia.
Qed.

(** X16. A tensor with more elements than the capacity of the chunk is
    never placed: [try_allocate] returns [None] and changes nothing. *)
Theorem try_allocate_too_large (p : nat) (a : AccessType) (now : Z) (s : State Mgr) :
  well_formed s →
  capacity (self s) < numel (ps_shape (params s !!! p)) →
  try_allocate p a now s = (s, inr None).
Proof.
  intros Hwf Hlarge.
  pose proof (ClientFacts.try_allocate_run s p a now Hwf) as Hrun. cbv zeta in Hrun.
  rewrite first_fit_too_large in Hrun; [done|done|done|].
  by apply ClientFacts.occupied_in_range.
Qed.

(** X17. Space of tensors that are [FREE] is given out again: in a chunk
    whose items are all [FREE] (or that has none), a tensor that fits the
    capacity is placed at offset 0. *)
Theorem try_allocate_reuses_free_space (p : nat) (a : AccessType) (now : Z)
    (s : State Mgr) :
  t_numel (payload (self s)) = capacity (self s) →
  (∀ info, info ∈ items s → info_status (params s) info = PSTensorStatus.FREE) →
  let n := numel (ps_shape (params s !!! p)) in
  n ≤ capacity (self s) →
  try_allocate p a now s = (allocated 0 n p a now s, inr (Some (slice 0 n s))).
Proof.
  intros Hpay Hfree n Hfit.
  assert (Hwf : well_formed s).
  { split; [done|]. intros info Hin Hres. by destruct Hres; apply Hfree. }
  assert (Hocc : occupied s = []).
  { unfold occupied, ranges.
    assert (filter (resident (params s)) (generate_in_sorted_order (self s)) = []) as ->;
      [|done].
    assert (Hall : Forall (λ info, ¬ resident (params s) info)
                     (generate_in_sorted_order (self s))).
    { apply Forall_forall. intros info Hin Hres.
      apply ClientFacts.elem_of_sorted_order in Hin. by destruct Hres; apply Hfree. }
    induction Hall as [|x l Hx _ IH]; [done|].
    by rewrite filter_cons_False. }
  pose proof (ClientFacts.try_allocate_run s p a now Hwf) as Hrun. cbv zeta in Hrun.
  rewrite Hocc in Hrun. simpl in Hrun. fold n in Hrun.
  assert ((n <=? capacity (self s) - 0) = true) as Hle by (apply Z.leb_le; lia).
  rewrite Hle in Hrun. by destruct Hrun as [-> _].
Qed.

(** X18. [allocate] checks what [narrow] checks and nothing else,
    whatever the chunk already holds in the range. With [n] the length of
    the payload: it returns when [numel] is not negative, [offset] lies in
    [-n, n] and the range, counted from the end for a negative [offset],
    ends inside the payload; the range is then zeroed, the item is filed
    with the [offset] as given, and the view is returned. A negative
    [numel] or a range that runs past the end raises [RuntimeError], an
    [offset] outside [-n, n] raises [IndexError]; nothing is written before
    either. *)
Theorem allocate_bounds (offset numel0 : Z) (p : nat) (a : AccessType) (now : Z)
    (s : State Mgr) :
  let n := t_numel (payload (self s)) in
  (0 ≤ numel0 → - n ≤ offset ≤ n → wrap n offset + numel0 ≤ n →
   allocate offset numel0 p a now s
   = (allocated_wrapped offset numel0 p a now s, inr (slice (wrap n offset) numel0 s)))
  ∧ (0 ≤ offset →
     wrap n offset = offset
     ∧ allocated_wrapped offset numel0 p a now s = allocated offset numel0 p a now s)
  ∧ (numel0 < 0 ∨ (- n ≤ offset ≤ n ∧ n < wrap n offset + numel0) →
     allocate offset numel0 p a now s = (s, inl RuntimeError))
  ∧ (0 ≤ numel0 → ¬ (- n ≤ offset ≤ n) →
     allocate offset numel0 p a now s = (s, inl IndexError)).
Proof.
  intros n. subst n. split_and!.
  - intros Hn Hrange Hend.
    unfold allocate, bind, get, narrow, zero_, add, touch, modify, ret.
    rewrite (bool_decide_eq_false_2 (numel0 < 0)) by lia.
    rewrite (bool_decide_eq_true_2 (- _ ≤ offset ≤ _)) by done.
    rewrite bool_decide_eq_true_2 by lia.
    unfold allocated_wrapped, slice. cbn [t_base t_offset t_numel].
    by destruct (heap s !! t_base (payload (self s))).
  - intros Hoff. unfold allocated_wrapped, allocated.
    by rewrite ClientFacts.wrap_nonneg.
  - intros Hbad. unfold allocate, bind, get, narrow, raise.
    destruct Hbad as [Hneg|[Hrange Hend]].
    + by rewrite (bool_decide_eq_true_2 (numel0 < 0)).
    + destruct (decide (numel0 < 0)) as [Hneg|Hpos].
      * by rewrite (bool_decide_eq_true_2 (numel0 < 0)).
      * rewrite (bool_decide_eq_false_2 (numel0 < 0)) by done.
        rewrite (bool_decide_eq_true_2 (- _ ≤ offset ≤ _)) by done.
        by rewrite bool_decide_eq_false_2 by lia.
  - intros Hn Hout. unfold allocate, bind, get, narrow, raise.
    rewrite (bool_decide_eq_false_2 (numel0 < 0)) by lia.
    by rewrite (bool_decide_eq_false_2 (- _ ≤ offset ≤ _)).
Qed.

(** *** What allocation keeps *)

Lemma dict_set_elem_inv {V} (k : Z) (v : V) (d : list (Z * V)) k' v' :
  (k', v') ∈ dict_set k v d → (k' = k ∧ v' = v) ∨ (k', v') ∈ d.
Proof.
  induction d as [|[k0 v0] d IH]; cbn [dict_set].
  - intros [= -> ->]%list_elem_of_singleton. by left.
  - case_bool_decide.
    + intros [[= -> ->]|Hin]%elem_of_cons; [by left|]. right. by right.
    + intros [[= -> ->]|Hin]%elem_of_cons; [right; by left|].
      destruct (IH Hin) as [?|?]; [by left|]. right. by right.
Qed.

Lemma elem_of_items s info :
  info ∈ items s ↔ ∃ k, (k, info) ∈ tensor_id_to_info_dict (self s).
Proof.
  unfold items. rewrite list_elem_of_fmap. split.
  - intros [[k i] [-> Hin]]. by exists k.
  - intros [k Hin]. by exists (k, info).
Qed.

(** The gap [try_allocate] picks is clear of every resident range. *)
Lemma try_allocate_gap (s : State Mgr) (n : Z) :
  well_formed s →
  Forall (λ r, 0 < r.2) (ranges (params s) (items s)) →
  non_overlapping s →
  0 ≤ n →
  ∀ off, first_fit n (gaps 0 (capacity (self s)) (occupied s)) = Some off →
    Forall (λ r, ¬ overlap (off, n) r) (ranges (params s) (items s)).
Proof.
  intros Hwf Hpos Hdis Hn off Hfit.
  pose proof (ClientFacts.sort_by_start_sorted (tensor_id_to_info_dict (self s)).*2)
    as Hsorted.
  fold (generate_in_sorted_order (self s)) in Hsorted.
  assert (Hperm : occupied s ≡ₚ ranges (params s) (items s)).
  { unfold occupied, generate_in_sorted_order, items.
    apply ClientFacts.ranges_perm, ClientFacts.sort_by_start_perm. }
  destruct (ClientFacts.first_fit_clear n (capacity (self s)) 0 (occupied s) off)
    as [_ Hclear]; try done.
  - by apply ClientFacts.ranges_sorted.
  - eapply ClientFacts.pairwise_disjoint_perm; [symmetry; exact Hperm|exact Hdis].
  - by rewrite Hperm.
  - eapply Forall_impl; [apply (ClientFacts.occupied_in_range s Hwf)|]. simpl. tauto.
  - by rewrite <- Hperm.
Qed.

(** X19. [try_allocate] keeps the chunk in order: the resident items still
    lie inside the payload; when every resident item holds at least one
    element and no two of them overlap, this is still so afterwards; the
    items stay filed under the id of their tensor when the parameter is one
    of the store. It writes neither the parameters nor the manager, nor the
    id, capacity, element type, device or payload view of the chunk. *)
Theorem try_allocate_keeps_invariants (p : nat) (a : AccessType) (now : Z)
    (s : State Mgr) :
  well_formed s →
  let s' := (try_allocate p a now s).1 in
  well_formed s'
  ∧ (Forall (λ r, 0 < r.2) (ranges (params s) (items s)) → non_overlapping s →
     non_overlapping s')
  ∧ (keyed s → is_Some (params s !! p) → keyed s')
  ∧ same_frame (self s) (self s')
  ∧ device (self s') = device (self s) ∧ payload (self s') = payload (self s)
  ∧ params s' = params s ∧ ps_manager s' = ps_manager s.
Proof.
  intros Hwf s'.
  split_and!.
  2:{ intros. by apply ClientFacts.try_allocate_keeps_non_overlapping. }
  all: subst s'; pose proof (ClientFacts.try_allocate_run s p a now Hwf) as Hrun;
    cbv zeta in Hrun;
    destruct (first_fit _ (gaps 0 (capacity (self s)) (occupied s))) as [off|];
    [destruct Hrun as (->&Hlo&Hhi)|rewrite Hrun]; cbn [fst]; try done.
  - destruct Hwf as [Hpay Hin]. split; [done|].
    intros info [k Hk]%elem_of_items Hres. cbn [allocated self params] in *.
    cbn [set_timestamp set_dict tensor_id_to_info_dict capacity] in *.
    apply dict_set_elem_inv in Hk as [[_ ->]|Hk].
    + unfold info_numel. cbn [start param]. lia.
    + apply Hin; [|done]. apply elem_of_items. by exists k.
  - intros [Hnd Hkey] Hp. split.
    + cbn [allocated self set_timestamp set_dict tensor_id_to_info_dict].
      rewrite dict_set_keys. case_bool_decide as Hin; [done|].
      apply NoDup_app. split_and!; [done| |apply NoDup_singleton].
      by intros x Hx ->%list_elem_of_singleton.
    + intros k info Hk.
      cbn [allocated self params set_timestamp set_dict tensor_id_to_info_dict] in *.
      apply dict_set_elem_inv in Hk as [[-> ->]|Hk]; [done|]. by apply Hkey.
Qed.

(** X20. Allocation spares the data of the tensors that are in use: in a
    chunk whose resident items hold at least one element each and do not
    overlap, [try_allocate] leaves every element of every resident item as
    it was; it only zeroes the range it hands out. *)
Theorem try_allocate_spares_resident_data (p : nat) (a : AccessType) (now : Z)
    (s : State Mgr) (st : Storage) :
  well_formed s →
  Forall (λ r, 0 < r.2) (ranges (params s) (items s)) →
  non_overlapping s →
  heap s !! t_base (payload (self s)) = Some st →
  0 ≤ t_offset (payload (self s)) →
  t_offset (payload (self s)) + t_numel (payload (self s))
    ≤ Z.of_nat (length (st_data st)) →
  ∃ l l', payload_data s = Some l
    ∧ payload_data (try_allocate p a now s).1 = Some l'
    ∧ ∀ info (i : nat), info ∈ items s → resident (params s) info →
        start info ≤ Z.of_nat i < start info + info_numel (params s) info →
        l' !! i = l !! i.
Proof.
  intros Hwf Hpos Hdis Hst Hoff Hlen.
  pose proof (ClientFacts.try_allocate_run s p a now Hwf) as Hrun. cbv zeta in Hrun.
  pose proof (ClientFacts.numel_nonneg (ps_shape (params s !!! p))) as Hn.
  pose proof (try_allocate_gap s _ Hwf Hpos Hdis Hn) as Hgap.
  set (n := numel (ps_shape (params s !!! p))) in *.
  destruct (first_fit n (gaps 0 (capacity (self s)) (occupied s))) as [off|].
  2:{ rewrite Hrun. cbn [fst]. unfold payload_data. rewrite Hst. by eexists _, _. }
  destruct Hrun as (->&Hlo&Hhi). specialize (Hgap off eq_refl). cbn [fst].
  unfold payload_data. cbn [allocated heap self set_timestamp set_dict payload].
  rewrite Hst. rewrite list_lookup_insert_eq by (by eapply lookup_lt_Some).
  cbn [fmap option_fmap option_map st_data]. eexists _, _. split_and!; [done..|].
  intros info i Hin Hres Hi.
  destruct Hwf as [Hpay Hrange]. destruct (Hrange info Hin Hres) as [H0 Hcap].
  assert (Hclear : ¬ overlap (off, n) (start info, info_numel (params s) info)).
  { rewrite Forall_forall in Hgap. apply Hgap. unfold ranges.
    apply list_elem_of_fmap. exists info. split; [done|].
    by apply list_elem_of_filter. }
  unfold overlap in Hclear. cbn [fst snd] in Hclear.
  rewrite !lookup_take_lt by lia. rewrite !lookup_drop.
  rewrite ClientFacts.zero_range_lookup by lia.
  rewrite bool_decide_eq_false_2 by lia. done.
Qed.

(** *** What [move] keeps, however it ends *)

Lemma status_scan_statics ps ps' l free_flag :
  same_statics ps ps' → status_scan ps' l free_flag = status_scan ps l free_flag.
Proof.
  intros Hs. revert free_flag. induction l as [|info l IH]; intros f; [done|].
  cbn [status_scan].
  destruct (ClientFacts.info_same_statics ps ps' info Hs) as (_&_&->&_).
  by rewrite !IH.
Qed.

Lemma get_status_ext s s' :
  tensor_id_to_info_dict (self s') = tensor_id_to_info_dict (self s) →
  same_statics (params s) (params s') →
  get_status s' = get_status s.
Proof.
  intros Hd Hs. unfold get_status, get_len, generate_in_sorted_order. rewrite Hd.
  case_bool_decide; [done|]. by apply status_scan_statics.
Qed.

Lemma loop_frame_same s0 r :
  r.1 = s0 → r.2 = inr tt ∨ r.2 = inl RuntimeError ∨ r.2 = inl IndexError →
  loop_frame s0 r.
Proof. intros <- ?. by split_and!. Qed.

Lemma move_item_frame dd gd info s0 : loop_frame s0 (move_item dd gd info s0).
Proof.
  unfold move_item. unfold bind at 1. unfold get at 1.
  case_bool_decide as Hfree; [apply loop_frame_same; [done|by left]|].
  destruct (dd !! info_tensor_id (params s0) info) as [r|].
  - unfold bind at 1.
    destruct (narrow (payload (self s0)) (start info) (info_numel (params s0) info) s0)
      as [sn [e|t]] eqn:Hnarrow.
    { apply ClientFacts.narrow_raises in Hnarrow as (->&[[-> _]|[-> _]]);
        (apply loop_frame_same; [done|]); [right; by left|right; by right]. }
    apply ClientFacts.narrow_returns in Hnarrow as (->&_&_&_&->).
    unfold bind, view, repoint_data, modify, ret, raise. cbn [t_numel].
    case_bool_decide as Hview; [|apply loop_frame_same; [done|right; by left]].
    unfold loop_frame. cbn [fst snd heap self ps_manager params set_params].
    split_and!; try done; [| |by left].
    + intros r'. destruct (decide (r' = r)) as [->|Hne].
      * by rewrite lookup_total_insert_eq.
      * by rewrite lookup_total_insert_ne.
    + intros q Hq. rewrite lookup_insert_is_Some.
      destruct (decide (r = q)); [by left|by right].
  - destruct (gd !! info_tensor_id (params s0) info) as [r|];
      [|apply loop_frame_same; [done|right; by left]].
    unfold bind at 1.
    destruct (narrow (payload (self s0)) (start info) (info_numel (params s0) info) s0)
      as [sn [e|t]] eqn:Hnarrow.
    { apply ClientFacts.narrow_raises in Hnarrow as (->&[[-> _]|[-> _]]);
        (apply loop_frame_same; [done|]); [right; by left|right; by right]. }
    apply ClientFacts.narrow_returns in Hnarrow as (->&_&_&_&->).
    unfold bind, view, repoint_grad, modify, ret, raise. cbn [t_numel].
    case_bool_decide as Hview; [|apply loop_frame_same; [done|right; by left]].
    unfold loop_frame. cbn [fst snd heap self ps_manager params set_params].
    split_and!; try done; [| |by left].
    + intros r'. destruct (decide (r' = r)) as [->|Hne].
      * by rewrite lookup_total_insert_eq.
      * by rewrite lookup_total_insert_ne.
    + intros q Hq. rewrite lookup_insert_is_Some.
      destruct (decide (r = q)); [by left|by right].
Qed.

Lemma move_items_frame dd gd l : ∀ s0, loop_frame s0 (for_each (move_item dd gd) l s0).
Proof.
  induction l as [|info l IH]; intros s0.
  - apply loop_frame_same; [done|by left].
  - cbn [for_each]. unfold bind.
    pose proof (move_item_frame dd gd info s0) as Hstep.
    destruct (move_item dd gd info s0) as [s1 [e|[]]]; [done|].
    destruct Hstep as (Hh&Hself&Hm&Hst&Hdom&_). cbn [fst snd] in *.
    destruct (IH s1) as (Hh'&Hself'&Hm'&Hst'&Hdom'&Hres).
    unfold loop_frame. cbn [fst snd].
    split_and!; [congruence|congruence|congruence| | |done].
    + by eapply ClientFacts.same_statics_trans.
    + intros q Hq. by apply Hdom', Hdom.
Qed.

(** A step of the loop raises [IndexError] only for an item that is not
    [FREE] and whose start is outside [-n, n]. *)
Lemma move_item_in_range dd gd info s0 :
  (resident (params s0) info →
   - t_numel (payload (self s0)) ≤ start info ≤ t_numel (payload (self s0))) →
  (move_item dd gd info s0).2 ≠ inl IndexError.
Proof.
  intros Hrange. unfold move_item. unfold bind at 1. unfold get at 1.
  case_bool_decide as Hfree; [done|]. specialize (Hrange Hfree).
  destruct (dd !! info_tensor_id (params s0) info) as [r|].
  - unfold bind at 1.
    destruct (narrow (payload (self s0)) (start info) (info_numel (params s0) info) s0)
      as [sn [e|t]] eqn:Hnarrow.
    { by apply ClientFacts.narrow_raises in Hnarrow as (->&[[-> _]|(_&_&?)]). }
    unfold bind, view, repoint_data, modify, ret, raise.
    by case_bool_decide.
  - destruct (gd !! info_tensor_id (params s0) info) as [r|]; [|done].
    unfold bind at 1.
    destruct (narrow (payload (self s0)) (start info) (info_numel (params s0) info) s0)
      as [sn [e|t]] eqn:Hnarrow.
    { by apply ClientFacts.narrow_raises in Hnarrow as (->&[[-> _]|(_&_&?)]). }
    unfold bind, view, repoint_grad, modify, ret, raise.
    by case_bool_decide.
Qed.

Lemma move_items_in_range dd gd l : ∀ s0,
  (∀ info, info ∈ l → resident (params s0) info →
     - t_numel (payload (self s0)) ≤ start info ≤ t_numel (payload (self s0))) →
  (for_each (move_item dd gd) l s0).2 ≠ inl IndexError.
Proof.
  induction l as [|info l IH]; intros s0 Hall; [done|].
  cbn [for_each]. unfold bind.
  pose proof (move_item_frame dd gd info s0) as Hstep.
  pose proof (move_item_in_range dd gd info s0) as Hin.
  destruct (move_item dd gd info s0) as [s1 [e|[]]].
  - apply Hin. intros Hr. apply Hall; [left|done].
  - destruct Hstep as (_&Hself&_&Hst&_). cbn [fst snd] in *.
    apply IH. intros info' Hin' Hr. rewrite Hself.
    destruct (ClientFacts.info_same_statics _ _ info' Hst) as (_&_&Hstat&_).
    apply Hall; [by right|]. unfold resident in *. by rewrite <- Hstat.
Qed.





(** X22. A [move] that fails half way is not undone. When the payload's
    storage does not report the device the target stands for, the items
    that are not [FREE] lie inside the payload and one of them is found in
    neither dictionary, [move] raises [RuntimeError]; the chunk it leaves
    behind still names the old device and the old timestamp, while its
    payload is the copy on the target device and the manager has been
    charged for the target and credited for the old device. *)
Theorem move_failure_is_partial (dd gd : gmap Z nat) (target_device : Device)
    (current_device now : Z) (s : State Mgr) (st : Storage) (info : TensorInfo) :
  device (self s) ≠ target_device →
  heap s !! t_base (payload (self s)) = Some st →
  reported current_device (st_device st) ≠ reported current_device target_device →
  well_formed s →
  info ∈ items s → resident (params s) info →
  dd !! info_tensor_id (params s) info = None →
  gd !! info_tensor_id (params s) info = None →
  ∃ s', move dd gd target_device current_device now s = (s', inl RuntimeError)
    ∧ device (self s') = device (self s)
    ∧ timestamp (self s') = timestamp (self s)
    ∧ heap s' !! t_base (payload (self s'))
      = Some {| st_device := reported current_device target_device;
                st_dtype := st_dtype st;
                st_data := take (Z.to_nat (t_numel (payload (self s))))
                             (drop (Z.to_nat (t_offset (payload (self s))))
                                (st_data st)) |}
    ∧ ps_manager s'
      = ps_delete (dev_type (device (self s))) (dev_index (device (self s)))
          (capacity (self s) * getsizeof (data_type (self s)))
          (ps_add (dev_type target_device) (dev_index target_device)
             (capacity (self s) * getsizeof (data_type (self s))) (ps_manager s)).
Proof.
  intros Hne Hst Hdev [Hpay Hrange] Hin Hres Hdd Hgd.
  rewrite ClientFacts.move_unfold by done.
  rewrite (ClientFacts.to_other_device s target_device current_device st Hst Hdev).
  set (np := {| t_base := length (heap s) |}).
  set (sa := set_heap _ s).
  pose proof (move_items_frame dd gd
                (generate_in_sorted_order (self (relocated target_device np sa)))
                (relocated target_device np sa)) as Hloop.
  pose proof (move_items_in_range dd gd
                (generate_in_sorted_order (self (relocated target_device np sa)))
                (relocated target_device np sa)) as Hindex.
  destruct (ClientFacts.move_items_unresolved dd gd
              (generate_in_sorted_order (self (relocated target_device np sa)))
              (relocated target_device np sa) info) as (s1&e&Hrun); try done.
  { by apply ClientFacts.elem_of_sorted_order. }
  rewrite Hrun in *. destruct Hloop as (Hh&Hself&Hm&_&_&Hout). cbn [fst snd] in *.
  assert (e = RuntimeError) as ->.
  { destruct Hout as [?|[[= ->]|[= ->]]]; [done|done|]. exfalso. apply Hindex; [|done].
    intros info' Hin' Hres'.
    cbn [relocated sa set_heap self params set_payload payload np t_numel] in *.
    apply (ClientFacts.elem_of_sorted_order s) in Hin'.
    destruct (Hrange info' Hin' Hres') as [Hlo Hhi].
    pose proof (ClientFacts.numel_nonneg (ps_shape (params s !!! param info'))) as Hnn.
    unfold info_numel in Hhi. lia. }
  exists s1. split; [done|]. rewrite Hself, Hh, Hm.
  cbn [relocated sa set_heap heap self ps_manager set_payload device timestamp payload
       np t_base capacity data_type].
  split_and!; try done.
  rewrite lookup_app_r by done. by rewrite Nat.sub_diag.
Qed.


(** *** Releasing the memory of a tensor *)

Lemma same_statics_insert ps (r : nat) (p' : Param) :
  statics p' = statics (ps !!! r) → same_statics ps (<[r := p']> ps).
Proof.
  intros Hp q. destruct (decide (q = r)) as [->|Hne].
  - by rewrite lookup_total_insert_eq.
  - by rewrite lookup_total_insert_ne.
Qed.

(** X24. [delete_tensor_memory] is guarded by the status of the tensor:
    unless it is [FREE] the call raises [AssertionError] and changes
    nothing. When it is [FREE] the call returns; it writes only the tensor
    attribute of that one parameter (a one-element tensor of zeros on the
    cpu for the data, [None] for the gradient) and never the chunk: the
    item stays in the dictionary, the payload and the manager are as
    before and [get_status] answers as before. *)
Theorem delete_tensor_memory_spec (info : TensorInfo) (s : State Mgr) :
  (info_status (params s) info ≠ PSTensorStatus.FREE →
   delete_tensor_memory info s = (s, inl AssertionError))
  ∧ (info_status (params s) info = PSTensorStatus.FREE →
     ∃ s', delete_tensor_memory info s = (s', inr tt)
       ∧ self s' = self s ∧ ps_manager s' = ps_manager s
       ∧ heap s `prefix_of` heap s'
       ∧ same_statics (params s) (params s')
       ∧ get_status s' = get_status s
       ∧ (∀ r, r ≠ param info → params s' !! r = params s !! r)
       ∧ data (params s' !!! param info) = data (params s !!! param info)
       ∧ grad (params s' !!! param info) = grad (params s !!! param info)
       ∧ match access_type info with
         | DATA =>
             ps_grad_tensor (params s' !!! param info)
             = ps_grad_tensor (params s !!! param info)
             ∧ ∃ t, ps_data_tensor (params s' !!! param info) = Some t
                 ∧ t_numel t = 1 ∧ t_offset t = 0
                 ∧ heap s' !! t_base t
                   = Some {| st_device := mkDevice cpu None;
                             st_dtype := p_dtype (params s !!! param info);
                             st_data := [0] |}
         | GRAD =>
             ps_data_tensor (params s' !!! param info)
             = ps_data_tensor (params s !!! param info)
             ∧ ps_grad_tensor (params s' !!! param info) = None
         end).
Proof.
  unfold delete_tensor_memory, info_status.
  destruct (access_type info); (split; intros Hst;
    [by rewrite bool_decide_eq_false_2|rewrite bool_decide_eq_true_2 by done]).
  - eexists. split; [done|].
    cbn [self ps_manager heap params set_params set_heap].
    rewrite !lookup_total_insert_eq.
    cbn [data grad ps_data_tensor ps_grad_tensor].
    split_and!; try done.
    + by apply prefix_app_r.
    + by apply same_statics_insert.
    + apply get_status_ext; [done|]. by apply same_statics_insert.
    + intros r Hne. by rewrite lookup_insert_ne.
    + eexists. split; [done|]. cbn [t_numel t_offset t_base]. split_and!; try done.
      rewrite lookup_app_r by done. by rewrite Nat.sub_diag.
  - eexists. split; [done|].
    cbn [self ps_manager heap params set_params set_heap].
    rewrite !lookup_total_insert_eq.
    cbn [data grad ps_data_tensor ps_grad_tensor].
    split_and!; try done.
    + by apply same_statics_insert.
    + apply get_status_ext; [done|]. by apply same_statics_insert.
    + intros r Hne. by rewrite lookup_insert_ne.
Qed.

(** *** Construction *)

(** X25. A chunk that [Chunk.__init__] returns is ready for use: the
    manager was initialised, the capacity is not negative and the scheduled
    device is usable; the payload is a new storage of [capacity] zeros on
    that device, charged to the manager; there are no items, so the chunk
    is [FREE], and it is well formed, keyed and without overlap. *)
Theorem Chunk_init_fresh (capacity0 : Z) (data_type0 : dtype)
    (chunk_id0 current_device device_count now : Z)
    (h h' : list Storage) (m m' : Mgr) (ps : gmap nat Param) (c : Chunk) :
  Chunk_init capacity0 data_type0 chunk_id0 current_device device_count now (h, m)
  = ((h', m'), inr c) →
  let s := {| heap := h'; params := ps; ps_manager := m'; self := c |} in
  ps_is_init m = true ∧ 0 ≤ capacity0
  ∧ device c = ps_schedule m (capacity0 * getsizeof data_type0) current_device
  ∧ usable device_count (device c)
  ∧ chunk_id c = chunk_id0 ∧ capacity c = capacity0 ∧ data_type c = data_type0
  ∧ cuda_idx c = current_device ∧ get_timestamp s = now
  ∧ h' = h ++ [{| st_device := device c; st_dtype := data_type0;
                  st_data := replicate (Z.to_nat capacity0) 0 |}]
  ∧ m' = ps_add (dev_type (device c)) (dev_index (device c))
           (capacity0 * getsizeof data_type0) m
  ∧ payload_data s = Some (replicate (Z.to_nat capacity0) 0)
  ∧ payload_on_device s
  ∧ get_len c = 0%nat ∧ get_status s = PSChunkStatus.FREE
  ∧ well_formed s ∧ keyed s ∧ non_overlapping s.
Proof.
  intros Hrun s. unfold Chunk_init in Hrun.
  destruct (ps_is_init m) eqn:Hinit; [|done]. cbn [negb] in Hrun.
  set (d := ps_schedule m (capacity0 * getsizeof data_type0) current_device) in *.
  assert (Hnormal :
    (if capacity0 <? 0 then ((h, m), inl RuntimeError)
     else ((h ++ [{| st_device := d; st_dtype := data_type0;
                     st_data := replicate (Z.to_nat capacity0) 0 |}],
            ps_add (dev_type d) (dev_index d) (capacity0 * getsizeof data_type0) m),
           inr {| chunk_id := chunk_id0; capacity := capacity0; data_type := data_type0;
                  cuda_idx := current_device; device := d;
                  payload := {| t_base := length h; t_offset := 0;
                                t_numel := capacity0;
                                t_shape := [Z.to_N capacity0] |};
                  tensor_id_to_info_dict := []; timestamp := now |}))
    = ((h', m'), inr c) ∧ usable device_count d).
  { unfold usable. destruct (dev_type d), (dev_index d) as [index|]; try done.
    destruct (device_count <? index) eqn:Hcount.
    - by destruct (capacity0 <? 0).
    - apply Z.ltb_ge in Hcount. done. }
  clear Hrun. destruct Hnormal as [Hrun Husable].
  destruct (capacity0 <? 0) eqn:Hcap; [done|]. apply Z.ltb_ge in Hcap.
  injection Hrun as <- <- <-. subst s.
  unfold get_timestamp, payload_data, payload_on_device, get_len, get_status, get_len,
    well_formed, keyed, non_overlapping, items.
  cbn [heap self params device chunk_id capacity data_type cuda_idx payload timestamp
       tensor_id_to_info_dict t_base t_offset t_numel].
  rewrite lookup_app_r by done. rewrite Nat.sub_diag.
  cbn [lookup list_lookup fmap option_fmap option_map st_data st_device].
  split_and!; try done.
  - f_equal. change (Z.to_nat 0) with 0%nat. rewrite drop_0.
    apply take_ge. by rewrite length_replicate.
  - by eexists.
  - intros info Hin. by apply elem_of_nil in Hin.
  - apply NoDup_nil_2.
  - intros k info Hin. by apply elem_of_nil in Hin.
Qed.

(** X26. [Chunk.__init__] returns no chunk and does not charge the manager
    when the manager is not initialised (a [TypeError], with nothing
    allocated), when the capacity is negative, or when the scheduled device
    is a cuda device without index or with an index above [device_count]. *)
Theorem Chunk_init_refuses (capacity0 : Z) (data_type0 : dtype)
    (chunk_id0 current_device device_count now : Z) (h : list Storage) (m : Mgr) :
  let run := Chunk_init capacity0 data_type0 chunk_id0 current_device device_count now
               (h, m) in
  (ps_is_init m = false → run = ((h, m), inl TypeError))
  ∧ (capacity0 < 0 → ∃ e, run = ((h, m), inl e))
  ∧ (¬ usable device_count
         (ps_schedule m (capacity0 * getsizeof data_type0) current_device) →
     ∃ h' e, run = ((h', m), inl e) ∧ h `prefix_of` h').
Proof.
  intros run. subst run. unfold Chunk_init, usable.
  set (d := ps_schedule m (capacity0 * getsizeof data_type0) current_device).
  split_and!.
  - by intros ->.
  - intros Hcap. apply Z.ltb_lt in Hcap. rewrite Hcap.
    destruct (ps_is_init m); cbn [negb]; [|by eexists].
    destruct (dev_type d), (dev_index d) as [index|]; try (by eexists).
    destruct (device_count <? index); by eexists.
  - intros Hbad. destruct (ps_is_init m); cbn [negb]; [|by eexists _, _].
    destruct (dev_type d), (dev_index d) as [index|]; try done; [|by eexists _, _].
    destruct (device_count <? index) eqn:Hcount.
    + destruct (capacity0 <? 0); eexists _, _; (split; [done|]); [done|].
      by apply prefix_app_r.
    + apply Z.ltb_ge in Hcount. by destruct Hbad.
Qed.

End chunk_more.

(** *** The statements at work on the concrete chunk *)

Import ClientScenario.

(** Settles a decidable statement about concrete data by evaluation. *)
Ltac settle :=
  match goal with
  | |- ?P => apply (bool_decide_unpack P); vm_compute; exact I
  end.

Lemma one_tensor_items :
  items one_tensor = [{| start := 0; param := 0%nat; access_type := DATA |}].
Proof. by vm_compute. Qed.

Lemma one_tensor_non_overlapping : non_overlapping one_tensor.
Proof.
  unfold non_overlapping.
  assert (ranges (params one_tensor) (items one_tensor) = [(0, 5)]) as ->
    by (by vm_compute).
  repeat constructor.
Qed.

Lemma one_tensor_keyed : keyed one_tensor.
Proof. apply ClientFacts.keyed_check; settle. Qed.

Lemma add_files_item_witness :
  (tensor_id_to_info_dict
     (self (add {| start := 5; param := 2%nat; access_type := DATA |} one_tensor).1)).*1
  = [1; 5]
  ∧ get_len (self (add {| start := 5; param := 2%nat; access_type := DATA |}
                     one_tensor).1) = 2%nat.
Proof.
  pose proof (add_files_item {| start := 5; param := 2%nat; access_type := DATA |}
                one_tensor) as H.
  cbv zeta in H. destruct H as (_&_&_&Hkeys&Hlen&_); [settle|].
  split; [rewrite Hkeys|rewrite Hlen]; by vm_compute.
Defined.

Lemma try_allocate_too_large_witness :
  try_allocate 3 DATA 4 with_large_param = (with_large_param, inr None).
Proof.
  apply (try_allocate_too_large 3 DATA 4 with_large_param); [|settle].
  apply ClientFacts.well_formed_check; [by vm_compute|].
  assert (items with_large_param
          = [{| start := 0; param := 0%nat; access_type := DATA |}]) as ->
    by (by vm_compute).
  repeat constructor; by vm_compute.
Defined.

Lemma try_allocate_reuses_free_space_witness :
  try_allocate 2 DATA 4 tensor_released
  = (allocated 0 3 2 DATA 4 tensor_released, inr (Some (slice 0 3 tensor_released))).
Proof.
  apply (try_allocate_reuses_free_space 2 DATA 4 tensor_released).
  - by vm_compute.
  - assert (items tensor_released
            = [{| start := 0; param := 0%nat; access_type := DATA |}]) as ->
      by (by vm_compute).
    intros info ->%list_elem_of_singleton. by vm_compute.
  - settle.
Defined.

Lemma allocate_bounds_witness :
  allocate 2 3 0 DATA 1 empty_chunk
  = (allocated 2 3 0 DATA 1 empty_chunk, inr (slice 2 3 empty_chunk))
  ∧ (allocate (-3) 2 0 DATA 1 empty_chunk).2 = inr (slice 7 2 empty_chunk)
  ∧ items (allocate (-3) 2 0 DATA 1 empty_chunk).1
    = [{| start := -3; param := 0%nat; access_type := DATA |}]
  ∧ payload_data (allocate (-3) 2 0 DATA 1 empty_chunk).1
    = Some [7; 7; 7; 7; 7; 7; 7; 0; 0; 7]
  ∧ allocate 8 3 0 DATA 1 empty_chunk = (empty_chunk, inl RuntimeError)
  ∧ allocate 11 0 0 DATA 1 empty_chunk = (empty_chunk, inl IndexError)
  ∧ allocate (-11) 1 0 DATA 1 empty_chunk = (empty_chunk, inl IndexError).
Proof.
  pose proof (allocate_bounds 2 3 0 DATA 1 empty_chunk) as Hin.
  pose proof (allocate_bounds (-3) 2 0 DATA 1 empty_chunk) as Hend.
  pose proof (allocate_bounds 8 3 0 DATA 1 empty_chunk) as Hpast.
  pose proof (allocate_bounds 11 0 0 DATA 1 empty_chunk) as Habove.
  pose proof (allocate_bounds (-11) 1 0 DATA 1 empty_chunk) as Hbelow.
  cbv zeta in *.
  destruct Hin as (Hin&Hsame&_). destruct Hend as (Hend&_).
  destruct Hpast as (_&_&Hpast&_). destruct Habove as (_&_&_&Habove).
  destruct Hbelow as (_&_&_&Hbelow).
  destruct Hsame as [Hwrap Hstate]; [lia|].
  split_and!.
  - rewrite Hin by settle. by rewrite Hwrap, Hstate.
  - rewrite Hend by settle. by vm_compute.
  - rewrite Hend by settle. by vm_compute.
  - rewrite Hend by settle. by vm_compute.
  - apply Hpast. right. settle.
  - apply Habove; settle.
  - apply Hbelow; settle.
Defined.

Lemma try_allocate_keeps_invariants_witness :
  well_formed (try_allocate 2 DATA 3 one_tensor).1
  ∧ non_overlapping (try_allocate 2 DATA 3 one_tensor).1
  ∧ keyed (try_allocate 2 DATA 3 one_tensor).1.
Proof.
  pose proof (try_allocate_keeps_invariants 2 DATA 3 one_tensor
                ClientFacts.one_tensor_well_formed) as H.
  cbv zeta in H. destruct H as (Hwf&Hdis&Hkey&_).
  split_and!; [done| |].
  - apply Hdis; [settle|exact one_tensor_non_overlapping].
  - apply Hkey; [exact one_tensor_keyed|settle].
Defined.

Lemma try_allocate_spares_resident_data_witness :
  ∃ l l', payload_data one_tensor = Some l
    ∧ payload_data (try_allocate 2 DATA 3 one_tensor).1 = Some l'
    ∧ ∀ info (i : nat), info ∈ items one_tensor → resident (params one_tensor) info →
        start info ≤ Z.of_nat i < start info + info_numel (params one_tensor) info →
        l' !! i = l !! i.
Proof.
  apply (try_allocate_spares_resident_data 2 DATA 3 one_tensor
           {| st_device := host; st_dtype := float;
              st_data := [0; 0; 0; 0; 0; 7; 7; 7; 7; 7] |}).
  - exact ClientFacts.one_tensor_well_formed.
  - settle.
  - exact one_tensor_non_overlapping.
  - by vm_compute.
  - settle.
  - settle.
Defined.


Lemma move_failure_is_partial_witness :
  ∃ s', move ∅ ∅ gpu0 0 9 one_tensor = (s', inl RuntimeError)
    ∧ device (self s') = host
    ∧ st_device <$> heap s' !! t_base (payload (self s')) = Some gpu0
    ∧ ps_manager s' = [Added cuda (Some 0) 40; Deleted cpu None 40].
Proof.
  destruct (move_failure_is_partial ∅ ∅ gpu0 0 9 one_tensor
              {| st_device := host; st_dtype := float;
                 st_data := [0; 0; 0; 0; 0; 7; 7; 7; 7; 7] |}
              {| start := 0; param := 0%nat; access_type := DATA |})
    as (s'&Hrun&Hdev&_&Hheap&Hmgr).
  - by vm_compute.
  - by vm_compute.
  - by vm_compute.
  - exact ClientFacts.one_tensor_well_formed.
  - rewrite one_tensor_items. apply list_elem_of_here.
  - by vm_compute.
  - by vm_compute.
  - by vm_compute.
  - exists s'. split_and!; [done|by rewrite Hdev|by rewrite Hheap|].
    rewrite Hmgr. by vm_compute.
Defined.


Lemma delete_tensor_memory_spec_witness :
  delete_tensor_memory {| start := 0; param := 0%nat; access_type := DATA |} one_tensor
  = (one_tensor, inl AssertionError)
  ∧ ∃ s', delete_tensor_memory {| start := 0; param := 0%nat; access_type := DATA |}
            tensor_released = (s', inr tt)
          ∧ self s' = self tensor_released
          ∧ get_status s' = PSChunkStatus.FREE.
Proof.
  destruct (delete_tensor_memory_spec
              {| start := 0; param := 0%nat; access_type := DATA |} one_tensor)
    as [Hguard _].
  destruct (delete_tensor_memory_spec
              {| start := 0; param := 0%nat; access_type := DATA |} tensor_released)
    as [_ Hfree].
  split; [apply Hguard; by vm_compute|].
  destruct Hfree as (s'&Hrun&Hself&_&_&_&Hstatus&_); [by vm_compute|].
  exists s'. split_and!; [done|done|]. rewrite Hstatus. by vm_compute.
Defined.

Lemma Chunk_init_fresh_witness :
  ∃ h' m' c,
    Chunk_init 4 float 7 0 1 9 ([] : list Storage, [] : list entry) = ((h', m'), inr c)
    ∧ m' = [Added cpu None 16]
    ∧ get_status {| heap := h'; params := ∅; ps_manager := m'; self := c |}
      = PSChunkStatus.FREE
    ∧ well_formed {| heap := h'; params := ∅; ps_manager := m'; self := c |}.
Proof.
  assert (Hrun :
    Chunk_init 4 float 7 0 1 9 ([] : list Storage, [] : list entry)
    = (([{| st_device := host; st_dtype := float; st_data := [0; 0; 0; 0] |}],
        [Added cpu None 16]),
       inr {| chunk_id := 7; capacity := 4; data_type := float; cuda_idx := 0;
              device := host;
              payload := {| t_base := 0; t_offset := 0; t_numel := 4;
                            t_shape := [4%N] |};
              tensor_id_to_info_dict := []; timestamp := 9 |}))
    by (by vm_compute).
  pose proof (Chunk_init_fresh 4 float 7 0 1 9 _ _ _ _ ∅ _ Hrun) as H.
  cbv zeta in H. destruct H as (_&_&_&_&_&_&_&_&_&_&_&_&_&_&Hstatus&Hwf&_).
  eexists _, _, _. split_and!; [exact Hrun|done|exact Hstatus|exact Hwf].
Defined.

Lemma Chunk_init_refuses_witness :
  ∃ e, Chunk_init (-1) float 7 0 1 9 ([] : list Storage, [] : list entry)
       = (([], []), inl e).
Proof.
  pose proof (Chunk_init_refuses (-1) float 7 0 1 9 ([] : list Storage)
                ([] : list entry)) as H.
  cbv zeta in H. destruct H as (_&Hneg&_). apply Hneg. lia.
Defined.

End ClientMoreFacts.
